(** * Lingua-Lens: the text-segmentation and DOM-rewriting core

    A shallow embedding of the content script (pattern compilation,
    match collection and overlap resolution, compound lookup, fragment
    construction, tree walk, mutation batching) and the properties that
    hold of it. *)

From Stdlib Require Import NArith List Lia Bool Permutation Sorted.
From stdpp Require Import base list sorting gmap strings.

(** ** JavaScript strings

    A JavaScript string is a sequence of UTF-16 code units; offsets
    ([index], [lastIndex], [slice]) count code units. *)

Definition jsstring := list N.

(** ASCII literals of the source, as code units. *)
Definition js (s : string) : jsstring :=
  map (fun a => N.of_nat (Ascii.nat_of_ascii a)) (String.list_ascii_of_string s).

(** [s.slice(from, to)] on a string or an array, for [0 <= from], [0 <= to]. *)
Definition slice {A} (s : list A) (from to : nat) : list A :=
  take (to - from) (drop from s).

(** [s.slice(from)] *)
Definition sliceFrom {A} (s : list A) (from : nat) : list A := drop from s.

(** [parts.join(sep)] on an array of strings. *)
Fixpoint join (sep : jsstring) (parts : list jsstring) : jsstring :=
  match parts with
  | [] => []
  | [p] => p
  | p :: rest => p ++ sep ++ join sep rest
  end.

(** The word characters of [\b] (no [u] flag): [A-Za-z0-9_]. *)
Definition isWordChar (c : N) : bool :=
  ((48 <=? c) && (c <=? 57) || (65 <=? c) && (c <=? 90) ||
   (c =? 95) || (97 <=? c) && (c <=? 122))%N.

(** White space and line terminators removed by [String.prototype.trim]. *)
Definition isWhiteSpace (c : N) : bool :=
  ((9 <=? c) && (c <=? 13) || (c =? 32) || (c =? 0xA0) || (c =? 0x1680) ||
   (0x2000 <=? c) && (c <=? 0x200A) || (c =? 0x2028) || (c =? 0x2029) ||
   (c =? 0x202F) || (c =? 0x205F) || (c =? 0x3000) || (c =? 0xFEFF))%N.

(** [!s.trim()]: the string is empty once trimmed. *)
Definition trimIsEmpty (s : jsstring) : bool := forallb isWhiteSpace s.

(** ** Regular expressions built by the content script

    Both constructors in the source have the shape
    [new RegExp(`\\b(${chunk.join('|')})\\b`, 'gi')] or
    [new RegExp(`(${escapedWords.join('|')})`, 'g')]: one group of
    alternatives, each the output of [escapeRegex], optionally between
    two [\b] assertions. A compiled pattern is kept as that data. *)

Record RegExp := mkRegExp {
  wordBoundary : bool;          (* the group stands between two \b *)
  group : list jsstring;        (* the alternatives, as written in the source of the pattern *)
  ignoreCase : bool             (* flag i; flag g is set on every pattern *)
}.

Definition isRegexSpecial (c : N) : bool :=
  existsb (N.eqb c) (js ".*+?^${}()|[]\").

(** [string.replace(/[.*+?^${}()|[\]\\]/g, '\\$&')] *)
Definition escapeRegex (s : jsstring) : jsstring :=
  flat_map (fun c => if isRegexSpecial c then [92%N; c] else [c]) s.

(** The characters an alternative matches: a backslash makes the next
    character literal. *)
Fixpoint unescape (s : jsstring) : jsstring :=
  match s with
  | [] => []
  | c :: rest =>
      if (c =? 92)%N then
        match rest with
        | [] => []
        | d :: rest' => d :: unescape rest'
        end
      else c :: unescape rest
  end.

(** ** Objects and values

    A plain object is its list of own properties, in property order, on
    top of [Object.prototype]: [obj[key]] finds the own property, else
    the member of the prototype of that name. *)

Definition object (V : Type) := list (jsstring * V).

Definition objectPrototype : list jsstring :=
  map js ["constructor"; "hasOwnProperty"; "isPrototypeOf"; "propertyIsEnumerable";
          "toLocaleString"; "toString"; "valueOf"; "__proto__";
          "__defineGetter__"; "__defineSetter__"; "__lookupGetter__";
          "__lookupSetter__"]%string.

Inductive property (V : Type) :=
  | Own (v : V)
  | Inherited (name : jsstring)
  | Absent.
Arguments Own {V} v.
Arguments Inherited {V} name.
Arguments Absent {V}.

Fixpoint getOwn {V} (o : object V) (key : jsstring) : option V :=
  match o with
  | [] => None
  | (k, v) :: o' => if bool_decide (k = key) then Some v else getOwn o' key
  end.

(** [obj[key]] *)
Definition getProperty {V} (o : object V) (key : jsstring) : property V :=
  match getOwn o key with
  | Some v => Own v
  | None => if bool_decide (key ∈ objectPrototype) then Inherited key else Absent
  end.

(** [Object.keys(obj)] *)
Definition keys {V} (o : object V) : list jsstring := map fst o.

(** The values that reach the code below: [undefined], a string, or a
    member of [Object.prototype] (a function or the prototype itself). *)
Inductive jsval :=
  | Undefined
  | Str (s : jsstring)
  | Builtin (name : jsstring).

Definition truthy (v : jsval) : bool :=
  match v with
  | Undefined => false
  | Str s => negb (bool_decide (s = []))
  | Builtin _ => true
  end.

(** The string of a member of [Object.prototype]: the members are
    functions named as the property, but for [constructor], which is
    [Object], and [__proto__], which is the prototype object. *)
Definition builtinText (name : jsstring) : jsstring :=
  if bool_decide (name = js "__proto__") then js "[object Object]"
  else js "function "
       ++ (if bool_decide (name = js "constructor") then js "Object" else name)
       ++ js "() { [native code] }".

(** [Array.prototype.join] turns [undefined] into the empty string. *)
Definition toJoinString (v : jsval) : jsstring :=
  match v with
  | Undefined => []
  | Str s => s
  | Builtin name => builtinText name
  end.

(** ** The compound dictionary *)

Definition CompoundWords : object jsstring := [
  ([0x5979; 0x7684], js "her");
  ([0x4ED6; 0x7684], js "his");
  ([0x6211; 0x7684], js "my");
  ([0x4F60; 0x7684], js "your");
  ([0x6211; 0x4EEC], js "we");
  ([0x4ED6; 0x4EEC], js "they");
  ([0x5B83; 0x4EEC], js "they");
  ([0x8FD9; 0x4E2A], js "this");
  ([0x90A3; 0x4E2A], js "that");
  ([0x8FD9; 0x4E9B], js "these");
  ([0x90A3; 0x4E9B], js "those");
  ([0x9884; 0x7B97], js "budget");
  ([0x653F; 0x5E9C], js "government");
  ([0x8BAE; 0x4F1A], js "parliament");
  ([0x56FD; 0x4F1A], js "congress");
  ([0x9996; 0x76F8], js "prime minister");
  ([0x603B; 0x7EDF], js "president");
  ([0x8D22; 0x653F], js "financial");
  ([0x90E8; 0x957F], js "minister");
  ([0x8BAE; 0x5458], js "member of parliament");
  ([0x9009; 0x4E3E], js "election");
  ([0x6295; 0x7968], js "vote");
  ([0x7A0E; 0x6536], js "tax");
  ([0x7ECF; 0x6D4E], js "economy");
  ([0x516C; 0x53F8], js "company");
  ([0x5DE5; 0x4F5C], js "work");
  ([0x5B66; 0x6821], js "school");
  ([0x5927; 0x5B66], js "university");
  ([0x533B; 0x9662], js "hospital");
  ([0x8B66; 0x5BDF], js "police");
  ([0x519B; 0x961F], js "military");
  ([0x4ECA; 0x5929], js "today");
  ([0x660E; 0x5929], js "tomorrow");
  ([0x6628; 0x5929], js "yesterday");
  ([0x73B0; 0x5728], js "now");
  ([0x4EE5; 0x524D], js "before");
  ([0x4EE5; 0x540E], js "after");
  ([0x65F6; 0x5019], js "time");
  ([0x661F; 0x671F], js "week");
  ([0x6708; 0x4EFD], js "month");
  ([0x5E74; 0x4EFD], js "year");
  ([0x53EF; 0x4EE5], js "can");
  ([0x5E94; 0x8BE5], js "should");
  ([0x5FC5; 0x987B], js "must");
  ([0x9700; 0x8981], js "need");
  ([0x60F3; 0x8981], js "want");
  ([0x5E0C; 0x671B], js "hope");
  ([0x8BA4; 0x4E3A], js "think");
  ([0x77E5; 0x9053], js "know");
  ([0x76F8; 0x4FE1], js "believe");
  ([0x56E0; 0x4E3A], js "because");
  ([0x6240; 0x4EE5], js "so");
  ([0x4F46; 0x662F], js "but");
  ([0x5982; 0x679C], js "if");
  ([0x867D; 0x7136], js "although");
  ([0x7136; 0x800C], js "however");
  ([0x800C; 0x4E14], js "moreover");
  ([0x6216; 0x8005], js "or")
]%N.

Definition compoundValue (key : jsstring) : jsval :=
  match getProperty CompoundWords key with
  | Own v => Str v
  | Inherited name => Builtin name
  | Absent => Undefined
  end.

(** [CompoundWords[chineseText] || null] *)
Definition getCompoundTranslation (chineseText : jsstring) : option jsval :=
  let v := compoundValue chineseText in
  if truthy v then Some v else None.

Record CompoundResult := mkCompound {
  compound : jsstring;
  compoundTranslation : jsval;     (* field [translation] of the result *)
  compoundLength : nat             (* field [length]: number of words consumed *)
}.

(** The loop [for (let len = lookahead; len >= 1; len--)] of [findCompound]. *)
Fixpoint findCompoundLoop (words : list jsval) (startIndex len : nat) : option CompoundResult :=
  match len with
  | 0 => None
  | S len' =>
      if startIndex + len <? length words then
        let potentialCompound :=
          join [] (map toJoinString (slice words startIndex (startIndex + len + 1))) in
        let translation := compoundValue potentialCompound in
        if truthy translation then
          Some (mkCompound potentialCompound translation (len + 1))
        else findCompoundLoop words startIndex len'
      else findCompoundLoop words startIndex len'
  end.

Definition findCompound (words : list jsval) (startIndex lookahead : nat) : option CompoundResult :=
  findCompoundLoop words startIndex lookahead.

(** ** Vocabulary *)

Record WordData := mkWord {
  translation : jsstring;
  pinyin : option jsstring
}.

(** [wordData.translation], where [wordData] is what [knownWords[key]] gave. *)
Definition translationOf (wordData : property WordData) : jsval :=
  match wordData with
  | Own w => Str (translation w)
  | Inherited _ => Undefined
  | Absent => Undefined
  end.

(** ** Case tables on ASCII, for the concrete runs below *)

Definition asciiCanonicalize (c : N) : N :=
  if ((97 <=? c) && (c <=? 122))%N then (c - 32)%N else c.

Definition asciiToLowerCase (s : jsstring) : jsstring :=
  map (fun c => if ((65 <=? c) && (c <=? 90))%N then (c + 32)%N else c) s.

Record Match := mkMatch {
  text : jsstring;
  index : nat;
  endIndex : nat
}.

(** How a call ends: it returns, it throws (a TypeError on a property of
    [null] or [undefined]), or it never returns. *)
Inductive outcome (A : Type) :=
  | Returns (a : A)
  | Throws
  | Diverges.
Arguments Returns {A} a.
Arguments Throws {A}.
Arguments Diverges {A}.

Section Runtime.

(** The case tables belong to the JavaScript runtime: [canonicalize] is
    the per-code-unit folding used by flag [i], [toLowerCase] is
    [String.prototype.toLowerCase]. *)
Variable canonicalize : N -> N.
Variable toLowerCase : jsstring -> jsstring.

Definition sameChar (ic : bool) (c d : N) : bool :=
  if ic then (canonicalize c =? canonicalize d)%N else (c =? d)%N.

(** The literal [lit] matches at the head of [rest]. *)
Fixpoint prefixMatch (ic : bool) (lit rest : jsstring) : bool :=
  match lit, rest with
  | [], _ => true
  | _ :: _, [] => false
  | c :: lit', d :: rest' => sameChar ic c d && prefixMatch ic lit' rest'
  end.

Definition wordAt (s : jsstring) (i : nat) : bool :=
  match s !! i with Some c => isWordChar c | None => false end.

(** [\b] at offset [p]: exactly one side is a word character. *)
Definition isBoundary (s : jsstring) (p : nat) : bool :=
  xorb (match p with 0 => false | S q => wordAt s q end) (wordAt s p).

(** One alternative at offset [p], with the assertions around the group. *)
Definition alternativeAt (r : RegExp) (s : jsstring) (p : nat) (alt : jsstring) : bool :=
  let lit := unescape alt in
  prefixMatch (ignoreCase r) lit (drop p s) &&
  (negb (wordBoundary r) || isBoundary s p && isBoundary s (p + length lit)).

(** Alternatives are tried left to right; the first that lets the whole
    pattern match decides the end of the match. *)
Fixpoint tryAlternatives (r : RegExp) (s : jsstring) (p : nat) (alts : list jsstring)
  : option nat :=
  match alts with
  | [] => None
  | alt :: alts' =>
      if alternativeAt r s p alt then Some (p + length (unescape alt))
      else tryAlternatives r s p alts'
  end.

Definition matchAt (r : RegExp) (s : jsstring) (p : nat) : option nat :=
  tryAlternatives r s p (group r).

Fixpoint scanFrom (r : RegExp) (s : jsstring) (p positions : nat) : option (nat * nat) :=
  match positions with
  | 0 => None
  | S positions' =>
      match matchAt r s p with
      | Some e => Some (p, e)
      | None => scanFrom r s (S p) positions'
      end
  end.

(** [pattern.exec(s)] with [pattern.lastIndex = lastIndex]: the leftmost
    match starting at or after [lastIndex], as (index, new lastIndex). *)
Definition exec (r : RegExp) (s : jsstring) (lastIndex : nat) : option (nat * nat) :=
  scanFrom r s lastIndex (S (length s) - lastIndex).

(** [pattern.lastIndex = 0; pattern.test(s)] *)
Definition test (r : RegExp) (s : jsstring) : bool :=
  match exec r s 0 with Some _ => true | None => false end.

(** The loop [while ((match = pattern.exec(originalText)) !== null) matches.push(..)].
    [exec] leaves [lastIndex] at the end of the match, so an empty match
    is found again at the same offset and the loop never ends: [None].
    The fuel bounds the number of iterations, see [execLoop_fuel]. *)
Fixpoint execLoop (fuel : nat) (r : RegExp) (originalText : jsstring) (lastIndex : nat)
  : option (list Match) :=
  match fuel with
  | 0 => None
  | S fuel' =>
      match exec r originalText lastIndex with
      | None => Some []
      | Some (i, e) =>
          if e =? i then None
          else
            match execLoop fuel' r originalText e with
            | Some ms => Some (mkMatch (slice originalText i e) i e :: ms)
            | None => None
            end
      end
  end.

Definition execAll (r : RegExp) (originalText : jsstring) : option (list Match) :=
  execLoop (S (length originalText)) r originalText 0.

(** [for (const pattern of patternsArray) { pattern.lastIndex = 0; while ... }] *)
Fixpoint collectMatches (originalText : jsstring) (patterns : list RegExp)
  : option (list Match) :=
  match patterns with
  | [] => Some []
  | pattern :: rest =>
      match execAll pattern originalText with
      | None => None
      | Some ms =>
          match collectMatches originalText rest with
          | None => None
          | Some ms' => Some (ms ++ ms')
          end
      end
  end.

(** [matches.sort((a, b) => a.index - b.index)]: Array.prototype.sort is
    stable, so matches with the same [index] keep their order. *)
Fixpoint insertByIndex (m : Match) (sorted : list Match) : list Match :=
  match sorted with
  | [] => [m]
  | x :: rest =>
      if index m <=? index x then m :: x :: rest
      else x :: insertByIndex m rest
  end.

Fixpoint sortByIndex (matches : list Match) : list Match :=
  match matches with
  | [] => []
  | m :: rest => insertByIndex m (sortByIndex rest)
  end.

(** The loop that fills [uniqueMatches]. *)
Definition pushIfDisjoint (uniqueMatches : list Match) (current : Match) : list Match :=
  match last uniqueMatches with
  | None => uniqueMatches ++ [current]
  | Some previous =>
      if endIndex previous <=? index current then uniqueMatches ++ [current]
      else uniqueMatches
  end.

Definition uniqueMatchesOf (sorted : list Match) : list Match :=
  fold_left pushIfDisjoint sorted [].

(** Lines 1527-1553 of [replaceTextNode]: collect, sort, drop overlaps. *)
Definition resolveMatches (originalText : jsstring) (patterns : list RegExp)
  : option (list Match) :=
  match collectMatches originalText patterns with
  | None => None
  | Some matches => Some (uniqueMatchesOf (sortByIndex matches))
  end.

(** ** Building the replacement fragment *)

(** The nodes a rewrite creates: [document.createTextNode(data)], and a
    [span] with its class, its [textContent] and the attributes set on
    it. Style text and tooltip listeners are not part of the model. *)
Inductive created :=
  | NewText (data : jsstring)
  | NewSpan (className : jsstring) (textContent : jsval)
            (attributes : list (jsstring * jsstring)).

Record builder := mkBuilder {
  fragment : list created;
  lastIndex : nat;
  processedIndices : gset nat
}.

(** [if (m.index > lastIndex) fragment.appendChild(createTextNode(originalText.slice(lastIndex, m.index)))] *)
Definition appendTextBefore (originalText : jsstring) (frag : list created)
    (last matchIndex : nat) : list created :=
  if last <? matchIndex then frag ++ [NewText (slice originalText last matchIndex)]
  else frag.

(** The translations pushed after the first one: those of the next two
    matches, as far as [knownWords] has them. *)
Definition lookaheadWords (knownWords : object WordData) (uniqueMatches : list Match)
    (i : nat) : list jsval :=
  flat_map (fun j =>
    match uniqueMatches !! j with
    | Some next =>
        match getProperty knownWords (toLowerCase (text next)) with
        | Absent => []
        | nextData => [translationOf nextData]
        end
    | None => []
    end) [i + 1; i + 2].

(** The indices [j] of [for (j = i; j < i + compoundLength && j < uniqueMatches.length; j++)]. *)
Definition consumedIndices (uniqueMatches : list Match) (i len : nat) : list nat :=
  filter (fun j => j < length uniqueMatches) (seq i len).

Definition singleSpan (matchedWord : jsstring) (wordData : property WordData) : created :=
  NewSpan (js "lang-learner-translated") (translationOf wordData)
    [(js "data-original", matchedWord); (js "data-translated", js "true")].

Definition compoundSpan (c : CompoundResult) (originalWords : list jsstring) : created :=
  NewSpan (js "lang-learner-translated lang-learner-compound") (compoundTranslation c)
    [(js "data-original", join (js " ") originalWords);
     (js "data-compound", compound c);
     (js "data-translated", js "true")].

(** One iteration of the loop over [uniqueMatches] when [window.findCompound]
    is a function. [stats] is an object on every call. *)
Definition compoundStep (knownWords : object WordData) (originalText : jsstring)
    (uniqueMatches : list Match) (acc : outcome builder) (i : nat) : outcome builder :=
  match acc with
  | Returns st =>
      if bool_decide (i ∈ processedIndices st) then Returns st
      else
        match uniqueMatches !! i with
        | None => Returns st
        | Some currentMatch =>
            let matchedWord := text currentMatch in
            let wordKey := toLowerCase matchedWord in
            match getProperty knownWords wordKey with
            | Absent => Returns st
            | wordData =>
                let chineseWords :=
                  translationOf wordData :: lookaheadWords knownWords uniqueMatches i in
                let compoundResult :=
                  if 1 <? length chineseWords then findCompound chineseWords 0 2 else None in
                let frag :=
                  appendTextBefore originalText (fragment st) (lastIndex st) (index currentMatch) in
                match compoundResult with
                | Some c =>
                    let consumed := consumedIndices uniqueMatches i (compoundLength c) in
                    let originalWords := omap (fun j => text <$> uniqueMatches !! j) consumed in
                    match uniqueMatches !! (i + compoundLength c - 1) with
                    | Some lastConsumed =>
                        Returns (mkBuilder (frag ++ [compoundSpan c originalWords])
                                           (endIndex lastConsumed)
                                           (processedIndices st ∪ list_to_set consumed))
                    | None => Throws
                    end
                | None =>
                    Returns (mkBuilder (frag ++ [singleSpan matchedWord wordData])
                                       (endIndex currentMatch)
                                       (processedIndices st ∪ {[ i ]}))
                end
            end
        end
  | Throws => Throws
  | Diverges => Diverges
  end.

(** One iteration of the loop of the branch without compound support. *)
Definition simpleStep (knownWords : object WordData) (originalText : jsstring)
    (st : builder) (m : Match) : builder :=
  let matchedWord := text m in
  let wordKey := toLowerCase matchedWord in
  match getProperty knownWords wordKey with
  | Absent => st
  | wordData =>
      mkBuilder
        (appendTextBefore originalText (fragment st) (lastIndex st) (index m)
           ++ [singleSpan matchedWord wordData])
        (endIndex m) (processedIndices st)
  end.

(** [if (lastIndex < originalText.length) fragment.appendChild(createTextNode(originalText.slice(lastIndex)))] *)
Definition appendRemaining (originalText : jsstring) (st : builder) : list created :=
  if lastIndex st <? length originalText
  then fragment st ++ [NewText (sliceFrom originalText (lastIndex st))]
  else fragment st.

Definition emptyBuilder : builder := mkBuilder [] 0 ∅.

(** The loops of [replaceTextNode] over the resolved matches. *)
Definition fragmentOf (findCompoundLoaded : bool) (knownWords : object WordData)
    (originalText : jsstring) (uniqueMatches : list Match) : outcome (list created) :=
  if findCompoundLoaded && (0 <? length uniqueMatches) then
    match fold_left (compoundStep knownWords originalText uniqueMatches)
                    (seq 0 (length uniqueMatches)) (Returns emptyBuilder) with
    | Returns st => Returns (appendRemaining originalText st)
    | Throws => Throws
    | Diverges => Diverges
    end
  else
    Returns (appendRemaining originalText
               (fold_left (simpleStep knownWords originalText) uniqueMatches emptyBuilder)).

(** [replaceTextNode] up to, and without, the final [replaceChild]. *)
Definition buildFragment (findCompoundLoaded : bool) (knownWords : object WordData)
    (originalText : jsstring) (patterns : list RegExp) : outcome (list created) :=
  match resolveMatches originalText patterns with
  | None => Diverges
  | Some uniqueMatches => fragmentOf findCompoundLoaded knownWords originalText uniqueMatches
  end.

(** The fragment of [highlightKnownWords] (practice mode). *)
Definition knownSpan (matchedWord : jsstring) : created :=
  NewSpan (js "lang-learner-known") (Str matchedWord)
    [(js "data-known", js "true"); (js "title", js "Known word")].

Definition highlightStep (originalText : jsstring) (st : builder) (m : Match) : builder :=
  mkBuilder
    (appendTextBefore originalText (fragment st) (lastIndex st) (index m)
       ++ [knownSpan (text m)])
    (endIndex m) (processedIndices st).

Definition highlightFragment (originalText : jsstring) (pattern : RegExp)
  : outcome (list created) :=
  match execAll pattern originalText with
  | None => Diverges
  | Some matches =>
      Returns (appendRemaining originalText
                 (fold_left (highlightStep originalText) matches emptyBuilder))
  end.

(** ** Compiling the vocabulary into patterns *)

(** Code-unit order of strings, the order of [Array.prototype.sort]
    without a comparator. *)
Fixpoint lexLeb (a b : jsstring) : bool :=
  match a, b with
  | [], _ => true
  | _ :: _, [] => false
  | x :: a', y :: b' =>
      if (x <? y)%N then true
      else if (y <? x)%N then false
      else lexLeb a' b'
  end.

Definition lexLe (a b : jsstring) : Prop := lexLeb a b = true.

#[local] Instance lexLe_dec a b : Decision (lexLe a b).
Proof. unfold lexLe. apply _. Defined.

(** [wordList.sort()] *)
Definition sortStrings (wordList : list jsstring) : list jsstring :=
  merge_sort lexLe wordList.

Definition CHUNK_SIZE : nat := 200.

(** [for (let i = 0; i < escapedWords.length; i += CHUNK_SIZE)]; the
    fuel counts the iterations, see [compileChunks_fuel]. *)
Fixpoint compileChunks (fuel : nat) (escapedWords : list jsstring) (i : nat) : list RegExp :=
  match fuel with
  | 0 => []
  | S fuel' =>
      if i <? length escapedWords then
        mkRegExp true (slice escapedWords i (i + CHUNK_SIZE)) true
          :: compileChunks fuel' escapedWords (i + CHUNK_SIZE)
      else []
  end.

Record patternCache := mkCache {
  cachedPatterns : option (list RegExp);
  cachedKnownWordsHash : option jsstring
}.

(** [Object.keys(knownWords).sort().join('|')] *)
Definition knownWordsHash (knownWords : object WordData) : jsstring :=
  join (js "|") (sortStrings (keys knownWords)).

Definition getCompiledPatterns (knownWords : object WordData) (cache : patternCache)
  : list RegExp * patternCache :=
  let wordList := sortStrings (keys knownWords) in
  let currentHash := join (js "|") wordList in
  let compile :=
    let escapedWords := map escapeRegex wordList in
    let patterns := compileChunks (length escapedWords) escapedWords 0 in
    (patterns, mkCache (Some patterns) (Some currentHash)) in
  match cachedPatterns cache with
  | Some patterns =>
      if bool_decide (cachedKnownWordsHash cache = Some currentHash)
      then (patterns, cache)
      else compile
  | None => compile
  end.

(** The pattern of [translateUnknownWords]:
    [new RegExp(`(${escapedWords.join('|')})`, 'g')] over the translations. *)
Definition practicePattern (knownWords : object WordData) : RegExp :=
  let wordList := map (fun kv => translation (snd kv)) knownWords in
  mkRegExp false (map escapeRegex wordList) false.

(** ** The document tree *)

Definition attrs := list (jsstring * jsstring).

#[warnings="-register-all"] Inductive node :=
  | TextNode (id : nat) (textContent : jsstring)
  | ElementNode (id : nat) (tagName : jsstring) (attributes : attrs)
                (childNodes : list node).

Definition nodeId (n : node) : nat :=
  match n with
  | TextNode id _ => id
  | ElementNode id _ _ _ => id
  end.

Definition isElement (n : node) : bool :=
  match n with
  | TextNode _ _ => false
  | ElementNode _ _ _ _ => true
  end.

Definition SKIP_TAGS : list jsstring :=
  map js ["SCRIPT"; "STYLE"; "NOSCRIPT"; "IFRAME"; "OBJECT"; "EMBED"; "INPUT";
          "TEXTAREA"; "SELECT"; "BUTTON"; "CODE"; "PRE"]%string.

Definition SKIP_ATTRIBUTES : list jsstring :=
  map js ["data-translated"; "contenteditable"]%string.

Definition hasAttribute (a : attrs) (name : jsstring) : bool :=
  existsb (fun kv => bool_decide (fst kv = name)) a.

(** An element of the [parentElement] chain: its tag and attributes. *)
Definition ancestor := (jsstring * attrs)%type.

Definition skipsText (parent : ancestor) : bool :=
  bool_decide (fst parent ∈ SKIP_TAGS) ||
  existsb (hasAttribute (snd parent)) SKIP_ATTRIBUTES.

(** The filter of the TreeWalker, [true] for FILTER_ACCEPT; [ancestors]
    is the [parentElement] chain of the text node, innermost first. *)
Definition acceptNode (ancestors : list ancestor) (textContent : jsstring) : bool :=
  if trimIsEmpty textContent then false
  else negb (existsb skipsText ancestors).

(** What [textContent = v] stores: [undefined] clears the content. *)
Definition domString (v : jsval) : jsstring :=
  match v with
  | Undefined => []
  | Str s => s
  | Builtin name => builtinText name
  end.

(** A created node enters the tree under the next free identities. *)
Definition attachNode (next : nat) (c : created) : node * nat :=
  match c with
  | NewText data => (TextNode next data, S next)
  | NewSpan className content attributes =>
      let inner := domString content in
      (ElementNode next (js "SPAN") ((js "class", className) :: attributes)
         (if bool_decide (inner = []) then [] else [TextNode (S next) inner]),
       S (S next))
  end.

Fixpoint attachAll (next : nat) (cs : list created) : list node * nat :=
  match cs with
  | [] => ([], next)
  | c :: cs' =>
      let (n, next') := attachNode next c in
      let (ns, next'') := attachAll next' cs' in
      (n :: ns, next'')
  end.

(** [parent.replaceChild(fragment, child)] on the child list of [parent]. *)
Fixpoint replaceChild (fragment : list node) (child : nat) (childNodes : list node)
  : list node :=
  match childNodes with
  | [] => []
  | c :: cs =>
      if nodeId c =? child then fragment ++ cs
      else c :: replaceChild fragment child cs
  end.

(** ** The page state of the content script *)

Record page := mkPage {
  knownWords : object WordData;
  autoTranslate : bool;              (* settings.autoTranslate *)
  findCompoundLoaded : bool;         (* typeof window.findCompound === 'function' *)
  processedNodes : gset nat;         (* the WeakSet, by node identity *)
  cache : patternCache;
  nextNode : nat                     (* identity of the next created node *)
}.

Definition withProcessed (st : page) (s : gset nat) : page :=
  mkPage (knownWords st) (autoTranslate st) (findCompoundLoaded st) s
         (cache st) (nextNode st).

Definition withCache (st : page) (c : patternCache) : page :=
  mkPage (knownWords st) (autoTranslate st) (findCompoundLoaded st)
         (processedNodes st) c (nextNode st).

Definition withNextNode (st : page) (n : nat) : page :=
  mkPage (knownWords st) (autoTranslate st) (findCompoundLoaded st)
         (processedNodes st) (cache st) n.

(** [textNode.parentNode.replaceChild(fragment, textNode)]: the parent
    with the fragment in place of the node; a TypeError when
    [textNode.parentNode] is [null]. *)
Definition replaceInParent (parentNode : option node) (textNode : nat)
    (frag : list created) (st : page) : outcome (node * page) :=
  match parentNode with
  | Some (ElementNode id tag a children) =>
      let (nodes, next) := attachAll (nextNode st) frag in
      Returns (ElementNode id tag a (replaceChild nodes textNode children),
               withNextNode st next)
  | _ => Throws
  end.

Definition replaceTextNode (parentNode : option node) (textNode : nat)
    (originalText : jsstring) (patterns : list RegExp) (st : page)
  : outcome (node * page) :=
  match buildFragment (findCompoundLoaded st) (knownWords st) originalText patterns with
  | Returns frag => replaceInParent parentNode textNode frag st
  | Throws => Throws
  | Diverges => Diverges
  end.

Definition highlightKnownWords (parentNode : option node) (textNode : nat)
    (originalText : jsstring) (pattern : RegExp) (st : page)
  : outcome (node * page) :=
  match highlightFragment originalText pattern with
  | Returns frag => replaceInParent parentNode textNode frag st
  | Throws => Throws
  | Diverges => Diverges
  end.

(** ** Walking the text nodes *)

Inductive Mode := Learn | Practice.

(** [TreeWalker.nextNode] is the browser's. Once the callback has
    replaced the walker's current node, that node has neither sibling
    nor parent; whether the next call still finds the nodes that
    followed it ([true]) or ends the walk ([false]) is left open. *)
Variable walkerResumes : bool.

Record walker := mkWalker {
  walkerPage : page;
  walkerAlive : bool
}.

(** What a callback does to one accepted text node: the new state, and
    the parent after a replacement if there was one. *)
Definition callback :=
  option node -> nat -> jsstring -> page -> outcome (option node * page).

(** The parent [current] with its child [child] replaced by [child']. *)
Definition setChild (current : node) (child : nat) (child' : node) : node :=
  match current with
  | TextNode _ _ => current
  | ElementNode id tag a children =>
      ElementNode id tag a (replaceChild [child'] child children)
  end.

Definition visitText (f : callback) (ancestors : list ancestor) (current : node)
    (id : nat) (textContent : jsstring) (w : walker) : outcome (node * walker) :=
  if acceptNode ancestors textContent then
    match f (Some current) id textContent (walkerPage w) with
    | Returns (Some parent', st') => Returns (parent', mkWalker st' walkerResumes)
    | Returns (None, st') => Returns (current, mkWalker st' true)
    | Throws => Throws
    | Diverges => Diverges
    end
  else Returns (current, w).

(** The children [todo] of the element [current], left to right: a text
    child goes through the filter to the callback, an element child is
    walked by [below]. The walk stops where the walker has lost its place. *)
Definition walkChildren (below : node -> walker -> outcome (node * walker))
    (f : callback) (ancestors : list ancestor)
  : list node -> outcome (node * walker) -> outcome (node * walker) :=
  fix loop (todo : list node) (acc : outcome (node * walker)) {struct todo} :=
    match todo with
    | [] => acc
    | c :: todo' =>
        match acc with
        | Returns (current, w) =>
            if walkerAlive w then
              match c with
              | TextNode id textContent =>
                  loop todo' (visitText f ancestors current id textContent w)
              | ElementNode id _ _ _ =>
                  match below c w with
                  | Returns (c', w') => loop todo' (Returns (setChild current id c', w'))
                  | Throws => Throws
                  | Diverges => Diverges
                  end
              end
            else acc
        | Throws => Throws
        | Diverges => Diverges
        end
    end.

(** [while (node = walker.nextNode()) callback(node)] below [n], in
    document order; the walker shows text nodes only and never returns
    its root. The result is [n] as the callbacks left it. *)
Fixpoint walkBelow (f : callback) (ancestors : list ancestor) (n : node) (w : walker)
    {struct n} : outcome (node * walker) :=
  match n with
  | TextNode _ _ => Returns (n, w)
  | ElementNode _ tag a children =>
      walkChildren (walkBelow f ((tag, a) :: ancestors)) f ((tag, a) :: ancestors)
                   children (Returns (n, w))
  end.

Definition walkTextNodes (root : node) (rootAncestors : list ancestor) (f : callback)
    (st : page) : outcome (node * page) :=
  match walkBelow f rootAncestors root (mkWalker st true) with
  | Returns (root', w) => Returns (root', walkerPage w)
  | Throws => Throws
  | Diverges => Diverges
  end.

(** The early-exit check: some pattern matches the text. *)
Definition hasMatches (patterns : list RegExp) (originalText : jsstring) : bool :=
  existsb (fun pattern => test pattern originalText) patterns.

(** The callback of [translateKnownWords] and of [processSubtree]. *)
Definition learnCallback (patterns : list RegExp) : callback :=
  fun parentNode textNode originalText st =>
    if bool_decide (textNode ∈ processedNodes st) then Returns (None, st)
    else if negb (hasMatches patterns originalText) then Returns (None, st)
    else
      match replaceTextNode parentNode textNode originalText patterns st with
      | Returns (parent', st') =>
          Returns (Some parent', withProcessed st' ({[ textNode ]} ∪ processedNodes st'))
      | Throws => Throws
      | Diverges => Diverges
      end.

(** The callback of [translateUnknownWords]. *)
Definition practiceCallback (pattern : RegExp) : callback :=
  fun parentNode textNode originalText st =>
    if bool_decide (textNode ∈ processedNodes st) then Returns (None, st)
    else if test pattern originalText then
      match highlightKnownWords parentNode textNode originalText pattern st with
      | Returns (parent', st') =>
          Returns (Some parent', withProcessed st' ({[ textNode ]} ∪ processedNodes st'))
      | Throws => Throws
      | Diverges => Diverges
      end
    else Returns (None, st).

(** [translateKnownWords] on [document.body], below the elements [above]. *)
Definition translateKnownWords (body : node) (above : list ancestor) (st : page)
  : outcome (node * page) :=
  if length (keys (knownWords st)) =? 0 then Returns (body, st)
  else
    let (patterns, cache') := getCompiledPatterns (knownWords st) (cache st) in
    walkTextNodes body above (learnCallback patterns) (withCache st cache').

(** [translateUnknownWords] on [document.body], below the elements [above]. *)
Definition translateUnknownWords (body : node) (above : list ancestor) (st : page)
  : outcome (node * page) :=
  if length (knownWords st) =? 0 then Returns (body, st)
  else walkTextNodes body above (practiceCallback (practicePattern (knownWords st))) st.

(** [processSubtree(root, mode)], with the mode the caller detected. *)
Definition processSubtree (root : node) (rootAncestors : list ancestor) (mode : Mode)
    (st : page) : outcome (node * page) :=
  if negb (autoTranslate st) then Returns (root, st)
  else
    match mode with
    | Learn =>
        let (patterns, cache') := getCompiledPatterns (knownWords st) (cache st) in
        if length patterns =? 0 then Returns (root, withCache st cache')
        else walkTextNodes root rootAncestors (learnCallback patterns) (withCache st cache')
    | Practice => Returns (root, st)
    end.

(** ** The mutation observer and its debounce timer *)

Inductive mutationType := childList | attributesType | characterData.

Record MutationRecord := mkMutation {
  mutationKind : mutationType;         (* field [type] *)
  targetChain : list ancestor;         (* [target] and the elements above it *)
  addedNodes : list node
}.

(** A captured root, with the chain of elements above it. *)
Definition rootRef := (node * list ancestor)%type.

(** [mutatedRoots.add(node)]: a Set keeps the first insertion. *)
Definition addRoot (mutatedRoots : list rootRef) (r : rootRef) : list rootRef :=
  if existsb (fun r' => nodeId (fst r') =? nodeId (fst r)) mutatedRoots
  then mutatedRoots
  else mutatedRoots ++ [r].

(** The body of [for (const mutation of mutations)]. *)
Definition collectRoots (processed : gset nat) (mutatedRoots : list rootRef)
    (mutation : MutationRecord) : list rootRef :=
  match mutationKind mutation with
  | childList =>
      fold_left (fun roots n =>
                   if isElement n && negb (bool_decide (nodeId n ∈ processed))
                   then addRoot roots (n, targetChain mutation)
                   else roots)
                (addedNodes mutation) mutatedRoots
  | _ => mutatedRoots
  end.

(** The observer callback. [timeout] is the pending timer, that is the
    set of roots its closure captured. A new non-empty batch clears the
    pending timer and sets one for its own set. *)
Definition observerCallback (st : page) (timeout : option (list rootRef))
    (mutations : list MutationRecord) : option (list rootRef) :=
  let mutatedRoots := fold_left (collectRoots (processedNodes st)) mutations [] in
  if 0 <? length mutatedRoots then Some mutatedRoots else timeout.

(** The timer callback: [mutatedRoots.forEach(root => processSubtree(root, mode))].
    It returns the state and the identities of the roots it passed to
    [processSubtree], in order. *)
Fixpoint processRoots (mode : Mode) (roots : list rootRef) (st : page)
  : outcome (page * list nat) :=
  match roots with
  | [] => Returns (st, [])
  | (root, chain) :: rest =>
      match processSubtree root chain mode st with
      | Returns (_, st') =>
          match processRoots mode rest st' with
          | Returns (st'', called) => Returns (st'', nodeId root :: called)
          | Throws => Throws
          | Diverges => Diverges
          end
      | Throws => Throws
      | Diverges => Diverges
      end
  end.

Inductive event :=
  | Mutations (records : list MutationRecord)
  | TimerFires.

Record eventLoop := mkLoop {
  loopPage : page;
  timeout : option (list rootRef);
  processed : list nat                 (* roots passed to processSubtree so far *)
}.

Definition step (mode : Mode) (l : eventLoop) (e : event) : outcome eventLoop :=
  match e with
  | Mutations records =>
      Returns (mkLoop (loopPage l) (observerCallback (loopPage l) (timeout l) records)
                      (processed l))
  | TimerFires =>
      match timeout l with
      | None => Returns l
      | Some roots =>
          match processRoots mode roots (loopPage l) with
          | Returns (st', called) => Returns (mkLoop st' None (processed l ++ called))
          | Throws => Throws
          | Diverges => Diverges
          end
      end
  end.

Fixpoint run (mode : Mode) (l : eventLoop) (events : list event) : outcome eventLoop :=
  match events with
  | [] => Returns l
  | e :: rest =>
      match step mode l e with
      | Returns l' => run mode l' rest
      | Throws => Throws
      | Diverges => Diverges
      end
  end.

(** ** Sample vocabularies, texts and pages for the concrete runs *)

Definition freshCache : patternCache := mkCache None None.

Definition patternsOf (kw : object WordData) : list RegExp :=
  fst (getCompiledPatterns kw freshCache).

(** hello -> U+4F60 U+597D, world -> U+4E16 U+754C *)
Definition greetings : object WordData :=
  [(js "hello", mkWord [0x4F60; 0x597D]%N None);
   (js "world", mkWord [0x4E16; 0x754C]%N None)].

Definition greetingsReversed : object WordData :=
  [(js "world", mkWord [0x4E16; 0x754C]%N None);
   (js "hello", mkWord [0x4F60; 0x597D]%N None)].

(** i -> U+6211, of -> U+7684; the dictionary has U+6211 U+7684 -> my *)
Definition possessive : object WordData :=
  [(js "i", mkWord [0x6211]%N None); (js "of", mkWord [0x7684]%N None)].

Definition places : object WordData :=
  [(js "new", mkWord (js "neu") None); (js "new york", mkWord (js "Neu York") None)].

Definition chunkOf (word : jsstring) : RegExp := mkRegExp true [escapeRegex word] true.

(** cat -> cat: the key and its translation read the same *)
Definition pets : object WordData := [(js "cat", mkWord (js "cat") None)].

Definition pageStart : page := mkPage greetings true true ∅ freshCache 100.

Definition plainDiv : node := ElementNode 1 (js "DIV") [] [TextNode 2 (js "zzz")].

Definition divA : node := ElementNode 1 (js "DIV") [] [TextNode 2 (js "hello")].
Definition divB : node := ElementNode 3 (js "DIV") [] [TextNode 4 (js "world")].

Definition article : node :=
  ElementNode 1 (js "DIV") []
    [TextNode 2 (js "zzz");
     ElementNode 3 (js "P") [] [TextNode 4 (js "Hello, world!")]].

(** ** Vocabulary of the statements *)

(** No alternative of the pattern is the empty string. *)
Definition nonEmptyAlternatives (r : RegExp) : Prop :=
  Forall (fun alt => unescape alt ≠ []) (group r).

(** A match lies inside the text and carries the text it covers. *)
Definition inText (originalText : jsstring) (m : Match) : Prop :=
  index m < endIndex m ∧ endIndex m ≤ length originalText ∧
  text m = slice originalText (index m) (endIndex m).

(** [a] ends before [b] starts. *)
Definition before (a b : Match) : Prop :=
  index a < index b ∧ endIndex a ≤ index b.

(** The overlap filter as a recursion on the sorted list: [bound] is the
    end of the last match kept. *)
Fixpoint keepFrom (bound : option nat) (sorted : list Match) : list Match :=
  match sorted with
  | [] => []
  | m :: rest =>
      match bound with
      | None => m :: keepFrom (Some (endIndex m)) rest
      | Some e =>
          if e <=? index m then m :: keepFrom (Some (endIndex m)) rest
          else keepFrom bound rest
      end
  end.

(** A generated unit with the range of the source text it stands for. *)
Definition unit := (nat * nat * created)%type.

(** The fragment that alternates the text between the units, verbatim,
    with the units: the run before a unit is [originalText.slice(last, start)],
    left out when empty, and the run after the last unit is the rest. *)
Fixpoint weaveUnits (originalText : jsstring) (last : nat) (units : list unit)
  : list created :=
  match units with
  | [] => []
  | (s, e, span) :: rest =>
      (if last <? s then [NewText (slice originalText last s)] else [])
        ++ span :: weaveUnits originalText e rest
  end.

Fixpoint endOfUnits (last : nat) (units : list unit) : nat :=
  match units with
  | [] => last
  | (_, e, _) :: rest => endOfUnits e rest
  end.

Definition weave (originalText : jsstring) (units : list unit) : list created :=
  weaveUnits originalText 0 units ++
  (if endOfUnits 0 units <? length originalText
   then [NewText (sliceFrom originalText (endOfUnits 0 units))] else []).

(** The units are in order and do not overlap, from [last] on. *)
Fixpoint orderedUnits (last : nat) (units : list unit) : Prop :=
  match units with
  | [] => True
  | (s, e, _) :: rest => last ≤ s ∧ s < e ∧ orderedUnits e rest
  end.

Definition isSpan (c : created) : Prop :=
  match c with NewSpan _ _ _ => True | NewText _ => False end.

(** A unit stands for one resolved match, or for the stretch from the
    start of one resolved match to the end of a later one. *)
Definition unitOfMatches (uniqueMatches : list Match) (u : unit) : Prop :=
  isSpan (snd u) ∧
  ∃ first final, first ∈ uniqueMatches ∧ final ∈ uniqueMatches ∧
    fst (fst u) = index first ∧ snd (fst u) = endIndex final ∧
    index first ≤ index final.

(** The plain-text runs of a fragment, concatenated. *)
Definition plainText (frag : list created) : jsstring :=
  flat_map (fun c => match c with NewText d => d | NewSpan _ _ _ => [] end) frag.

(** The text outside the match spans, concatenated. *)
Fixpoint outsideSpans (originalText : jsstring) (last : nat) (spans : list Match)
  : jsstring :=
  match spans with
  | [] => sliceFrom originalText last
  | m :: rest =>
      slice originalText last (index m) ++ outsideSpans originalText (endIndex m) rest
  end.

(** A span that the walk skips: it carries [data-translated]. *)
Definition marksTranslated (c : created) : Prop :=
  match c with
  | NewText _ => True
  | NewSpan _ _ a => hasAttribute a (js "data-translated") = true
  end.

(** The text nodes below [n] that the filter accepts, in document order. *)
Fixpoint acceptedBelow (ancestors : list ancestor) (n : node) : list (nat * jsstring) :=
  match n with
  | TextNode _ _ => []
  | ElementNode _ tag a children =>
      flat_map (fun c =>
        match c with
        | TextNode id textContent =>
            if acceptNode ((tag, a) :: ancestors) textContent
            then [(id, textContent)] else []
        | ElementNode _ _ _ _ => acceptedBelow ((tag, a) :: ancestors) c
        end) children
  end.

(** The roots the observer callback captures from one batch. *)
Definition mutatedRootsOf (st : page) (mutations : list MutationRecord) : list rootRef :=
  fold_left (collectRoots (processedNodes st)) mutations [].

(** The order of the sort. *)
Definition byIndex (a b : Match) : Prop := index a ≤ index b.

(** What the loops maintain: the fragment built so far is the weave of
    the units found so far, and [lastIndex] is where the last one ends. *)
Definition builderInv (originalText : jsstring) (uniqueMatches : list Match)
    (st : builder) (units : list unit) : Prop :=
  fragment st = weaveUnits originalText 0 units ∧
  lastIndex st = endOfUnits 0 units ∧
  orderedUnits 0 units ∧
  Forall (unitOfMatches uniqueMatches) units.

(** Matches not yet consumed start at or after [lastIndex]. *)
Definition pendingAfter (um : list Match) (i : nat) (st : builder) : Prop :=
  ∀ j m, i ≤ j → j ∉ processedIndices st → um !! j = Some m → lastIndex st ≤ index m.

(** The accepted text nodes among the children [todo] of an element. *)
Definition acceptedChildren (ancestors : list ancestor) (todo : list node)
  : list (nat * jsstring) :=
  flat_map (fun c =>
    match c with
    | TextNode id textContent =>
        if acceptNode ancestors textContent then [(id, textContent)] else []
    | ElementNode _ _ _ _ => acceptedBelow ancestors c
    end) todo.

(** From [st] to [st'] the processed set grew only by nodes of [found]
    whose text matches a pattern. *)
Definition marksOnlyMatched (patterns : list RegExp) (found : list (nat * jsstring))
    (st st' : page) : Prop :=
  ∀ j, j ∈ processedNodes st' →
    j ∈ processedNodes st ∨
    ∃ textContent, (j, textContent) ∈ found ∧ hasMatches patterns textContent = true.

(** From the walker [w] to [w'] the processed set kept what it held;
    and if the walker keeps its place after a replacement and was alive,
    it still is, and every node of [found] whose text matches a pattern
    is in the processed set. *)
Definition marksAllMatched (patterns : list RegExp) (found : list (nat * jsstring))
    (w w' : walker) : Prop :=
  processedNodes (walkerPage w) ⊆ processedNodes (walkerPage w') ∧
  (walkerResumes = true → walkerAlive w = true →
   walkerAlive w' = true ∧
   ∀ j textContent, (j, textContent) ∈ found →
     hasMatches patterns textContent = true → j ∈ processedNodes (walkerPage w')).

(** A node as the rewrite attaches it: a text node, or an element that
    the filter skips and whose children are text nodes. *)
Definition generatedNode (n : node) : Prop :=
  match n with
  | TextNode _ _ => True
  | ElementNode _ tag a children =>
      skipsText (tag, a) = true ∧ Forall (fun c => isElement c = false) children
  end.

(** [element.getAttribute(name)] *)
Fixpoint getAttribute (a : list (jsstring * jsstring)) (name : jsstring) : option jsstring :=
  match a with
  | [] => None
  | (k, v) :: a' => if bool_decide (k = name) then Some v else getAttribute a' name
  end.

(** The text a reader sees in a fragment: its text runs and the content
    of its spans, in order. *)
Definition fragmentText (frag : list created) : jsstring :=
  flat_map (fun c =>
    match c with
    | NewText data => data
    | NewSpan _ content _ => domString content
    end) frag.

(** The fragment with every span replaced by its [data-original]. *)
Definition restoreOriginal (frag : list created) : jsstring :=
  flat_map (fun c =>
    match c with
    | NewText data => data
    | NewSpan _ _ a => default [] (getAttribute a (js "data-original"))
    end) frag.

(** A span made for a compound: it carries [data-compound]. *)
Definition isCompoundSpan (c : created) : bool :=
  match c with
  | NewText _ => false
  | NewSpan _ _ a => hasAttribute a (js "data-compound")
  end.

(** The key holds no code unit of the separator of the signature. *)
Definition noBar (key : jsstring) : Prop := 124%N ∉ key.

(** The loops keep this about [data-original]: as long as no compound
    span was made, the fragment with its spans read back is the text up
    to [lastIndex]. *)
Definition readsBack (originalText : jsstring) (st : builder) : Prop :=
  existsb isCompoundSpan (fragment st) = false →
  restoreOriginal (fragment st) = take (lastIndex st) originalText.

(** The children of every element below [n] are distinct nodes. *)
Fixpoint distinctChildren (n : node) : Prop :=
  match n with
  | TextNode _ _ => True
  | ElementNode _ _ _ children =>
      NoDup (map nodeId children) ∧
      fold_right (fun c rest => distinctChildren c ∧ rest) True children
  end.

(** The [parentElement] chain of the text children of [root], for a walk
    of [root] that lies below [rootAncestors]. *)
Definition chainAt (root : node) (rootAncestors : list ancestor) : list ancestor :=
  match root with
  | TextNode _ _ => rootAncestors
  | ElementNode _ tag a _ => (tag, a) :: rootAncestors
  end.

(** ** Highlighting of known Chinese words *)

(** [rest] begins with the code units of [word]. *)
Fixpoint startsWith (word rest : jsstring) : bool :=
  match word, rest with
  | [], _ => true
  | c :: word', d :: rest' => (c =? d)%N && startsWith word' rest'
  | _ :: _, [] => false
  end.

Fixpoint indexOfFrom (word rest : jsstring) (pos : nat) : option nat :=
  if startsWith word rest then Some pos
  else
    match rest with
    | [] => None
    | _ :: rest' => indexOfFrom word rest' (S pos)
    end.

(** [text.indexOf(word, startIndex)], [None] for -1: the search starts at
    [min(startIndex, text.length)], so the empty word is found at every
    start, and at [text.length] from every start beyond the end. *)
Definition indexOf (text word : jsstring) (startIndex : nat) : option nat :=
  let from := startIndex `min` length text in
  indexOfFrom word (drop from text) from.

(** [chineseKnownWords.sort((a, b) => b.length - a.length)]: longest
    first, words of the same length in the order of the set. *)
Fixpoint insertByLength (w : jsstring) (sorted : list jsstring) : list jsstring :=
  match sorted with
  | [] => [w]
  | x :: rest =>
      if length x <=? length w then w :: x :: rest
      else x :: insertByLength w rest
  end.

Fixpoint sortByLength (words : list jsstring) : list jsstring :=
  match words with
  | [] => []
  | w :: rest => insertByLength w (sortByLength rest)
  end.

(** An entry of [matches]: [{start, end, word}]. *)
Record ChineseMatch := mkChineseMatch {
  start : nat;
  end_ : nat;
  word : jsstring
}.

(** [index < m.end && end > m.start] *)
Definition overlapsAt (index end' : nat) (m : ChineseMatch) : bool :=
  (index <? end_ m) && (start m <? end').

(** The binary search [while (left <= right)]: whether a match overlaps
    [index, end'), and [left] where the loop ended. [matches[mid]] out
    of range is [undefined], whose [end] is a TypeError. The fuel counts
    the iterations, see [findOverlap_total]. *)
Fixpoint searchOverlap (fuel : nat) (matches : list ChineseMatch) (index end' : nat)
    (left right : Z) : outcome (bool * Z) :=
  match fuel with
  | 0 => Diverges
  | S fuel' =>
      if (left <=? right)%Z then
        let mid := ((left + right) `div` 2)%Z in
        match (if (0 <=? mid)%Z then matches !! Z.to_nat mid else None) with
        | None => Throws
        | Some m =>
            if overlapsAt index end' m then Returns (true, left)
            else if end' <=? start m
                 then searchOverlap fuel' matches index end' left (mid - 1)
                 else searchOverlap fuel' matches index end' (mid + 1) right
        end
      else Returns (false, left)
  end.

Definition findOverlap (matches : list ChineseMatch) (index end' : nat)
  : outcome (bool * Z) :=
  searchOverlap (S (length matches)) matches index end' 0 (Z.of_nat (length matches) - 1).

(** [matches.splice(left, 0, m)] *)
Definition splice (matches : list ChineseMatch) (left : nat) (m : ChineseMatch)
  : list ChineseMatch :=
  take left matches ++ m :: drop left matches.

(** One turn of the [indexOf] loop after a hit at [index]. *)
Definition addIfFree (matches : list ChineseMatch) (index : nat) (w : jsstring)
  : outcome (list ChineseMatch) :=
  let end' := index + length w in
  match findOverlap matches index end' with
  | Returns (true, _) => Returns matches
  | Returns (false, left') =>
      Returns (splice matches (Z.to_nat left') (mkChineseMatch index end' w))
  | Throws => Throws
  | Diverges => Diverges
  end.

(** [while ((index = text.indexOf(word, startIndex)) !== -1)] with
    [startIndex = index + 1] at the end of each turn. The loop has no
    other exit: out of fuel it is still running. *)
Fixpoint occurrences (fuel : nat) (text w : jsstring) (startIndex : nat)
    (matches : list ChineseMatch) : outcome (list ChineseMatch) :=
  match fuel with
  | 0 => Diverges
  | S fuel' =>
      match indexOf text w startIndex with
      | None => Returns matches
      | Some index =>
          match addIfFree matches index w with
          | Returns matches' => occurrences fuel' text w (index + 1) matches'
          | Throws => Throws
          | Diverges => Diverges
          end
      end
  end.

(** The body of [for (const word of sortedWords)]; a hit of a word that
    is not empty lies inside the text, so its loop takes at most
    [text.length + 1] turns. *)
Definition wordLoop (text : jsstring) (acc : outcome (list ChineseMatch)) (w : jsstring)
  : outcome (list ChineseMatch) :=
  match acc with
  | Returns matches => occurrences (S (S (length text))) text w 0 matches
  | Throws => Throws
  | Diverges => Diverges
  end.

Definition findMatches (sortedWords : list jsstring) (text : jsstring)
  : outcome (list ChineseMatch) :=
  fold_left (wordLoop text) sortedWords (Returns []).

Definition chineseSpan (chineseHighlightStyle : jsstring) (m : ChineseMatch) : created :=
  NewSpan (js "chinese-known-word " ++ chineseHighlightStyle) (Str (word m))
    [(js "data-word", word m); (js "title", js "Known word")].

(** [text.substring(lastIndex, match.start)] is read only where
    [match.start > lastIndex], where it is [slice]. *)
Definition chineseStep (text chineseHighlightStyle : jsstring) (st : builder)
    (m : ChineseMatch) : builder :=
  mkBuilder
    (appendTextBefore text (fragment st) (lastIndex st) (start m)
       ++ [chineseSpan chineseHighlightStyle m])
    (end_ m) (processedIndices st).

(** The body of [textNodes.forEach]: the fragment that replaces the
    node, [None] when the text holds no known word. *)
Definition chineseFragment (chineseKnownWords : list jsstring)
    (chineseHighlightStyle text : jsstring) : outcome (option (list created)) :=
  match findMatches (sortByLength chineseKnownWords) text with
  | Returns matches =>
      if 0 <? length matches then
        Returns (Some (appendRemaining text
                         (fold_left (chineseStep text chineseHighlightStyle)
                                    matches emptyBuilder)))
      else Returns None
  | Throws => Throws
  | Diverges => Diverges
  end.

(** [/[\u4e00-\u9fff]/.test(text)] *)
Definition containsChinese (text : jsstring) : bool :=
  existsb (fun c => (0x4e00 <=? c)%N && (c <=? 0x9fff)%N) text.

(** ASCII whitespace, which separates the tokens of a [class] attribute. *)
Definition isAsciiWhitespace (c : N) : bool :=
  ((c =? 9) || (c =? 10) || (c =? 12) || (c =? 13) || (c =? 32))%N.

(** The tokens of a class name; [current] is the token being read. *)
Fixpoint classTokens (current className : jsstring) : list jsstring :=
  match className with
  | [] => if current is [] then [] else [current]
  | c :: rest =>
      if isAsciiWhitespace c
      then (if current is [] then classTokens [] rest else current :: classTokens [] rest)
      else classTokens (current ++ [c]) rest
  end.

(** [element.classList.contains(token)] *)
Definition classListContains (a : attrs) (token : jsstring) : bool :=
  match getAttribute a (js "class") with
  | Some className => bool_decide (token ∈ classTokens [] className)
  | None => false
  end.

(** The filter of the walker of [highlightChineseKnownWords], [true] for
    FILTER_ACCEPT; [parent] is the tag and the attributes of
    [node.parentElement]. *)
Definition chineseAcceptNode (parent : ancestor) (textContent : jsstring) : bool :=
  if bool_decide (fst parent = js "SCRIPT")
     || bool_decide (fst parent = js "STYLE")
     || classListContains (snd parent) (js "chinese-known-word")
     || classListContains (snd parent) (js "lang-learner-translated")
     || hasAttribute (snd parent) (js "data-translated")
  then false
  else containsChinese textContent.

Record chineseState := mkChineseState {
  chineseKnownWords : list jsstring;      (* the Set, in insertion order *)
  chineseHighlightStyle : jsstring;
  chineseProcessedNodes : gset nat;
  chineseNextNode : nat                   (* the identity of the next created node *)
}.

(** One text node [c]: the nodes that stand in its place afterwards.
    [collected] is [chineseProcessedNodes] as it was while the walker
    collected [textNodes], before the first replacement. *)
Definition chineseVisit (collected : gset nat) (parent : ancestor) (c : node)
    (id : nat) (textContent : jsstring) (st : chineseState)
  : outcome (list node * chineseState) :=
  if chineseAcceptNode parent textContent && negb (bool_decide (id ∈ collected)) then
    match chineseFragment (chineseKnownWords st) (chineseHighlightStyle st) textContent with
    | Returns (Some frag) =>
        let (nodes, next) := attachAll (chineseNextNode st) frag in
        Returns (nodes,
                 mkChineseState (chineseKnownWords st) (chineseHighlightStyle st)
                                ({[ id ]} ∪ chineseProcessedNodes st) next)
    | Returns None => Returns ([c], st)
    | Throws => Throws
    | Diverges => Diverges
    end
  else Returns ([c], st).

(** The children [todo] of an element, left to right. *)
Definition chineseChildren
    (below : node -> chineseState -> outcome (node * chineseState))
    (collected : gset nat) (parent : ancestor)
  : list node -> chineseState -> outcome (list node * chineseState) :=
  fix loop (todo : list node) (st : chineseState) {struct todo} :=
    match todo with
    | [] => Returns ([], st)
    | c :: todo' =>
        let visited :=
          match c with
          | TextNode id textContent => chineseVisit collected parent c id textContent st
          | ElementNode _ _ _ _ =>
              match below c st with
              | Returns (c', st') => Returns ([c'], st')
              | Throws => Throws
              | Diverges => Diverges
              end
          end in
        match visited with
        | Returns (nodes, st') =>
            match loop todo' st' with
            | Returns (rest, st'') => Returns (nodes ++ rest, st'')
            | Throws => Throws
            | Diverges => Diverges
            end
        | Throws => Throws
        | Diverges => Diverges
        end
    end.

(** [textNodes.forEach] over the text nodes below [n], in document order. *)
Fixpoint chineseBelow (collected : gset nat) (n : node) (st : chineseState) {struct n}
  : outcome (node * chineseState) :=
  match n with
  | TextNode _ _ => Returns (n, st)
  | ElementNode id tag a children =>
      match chineseChildren (chineseBelow collected) collected (tag, a) children st with
      | Returns (children', st') => Returns (ElementNode id tag a children', st')
      | Throws => Throws
      | Diverges => Diverges
      end
  end.

(** [highlightChineseKnownWords()] on [document.body]. *)
Definition highlightChineseKnownWords (body : node) (st : chineseState)
  : outcome (node * chineseState) :=
  if length (chineseKnownWords st) =? 0 then Returns (body, st)
  else chineseBelow (chineseProcessedNodes st) body st.

(** [node.textContent] *)
Fixpoint nodeText (n : node) : jsstring :=
  match n with
  | TextNode _ textContent => textContent
  | ElementNode _ _ _ children => flat_map nodeText children
  end.

(** *** Vocabulary of the statements about the Chinese highlighter *)

(** [m] is a known word where the text has it. *)
Definition genuine (words : list jsstring) (text : jsstring) (m : ChineseMatch) : Prop :=
  word m ∈ words ∧ end_ m = start m + length (word m) ∧ end_ m ≤ length text ∧
  slice text (start m) (end_ m) = word m.

(** [m1] ends before [m2] begins. *)
Definition apart (m1 m2 : ChineseMatch) : Prop := end_ m1 ≤ start m2.

(** The text has [w] at [i]. *)
Definition occursAt (text w : jsstring) (i : nat) : Prop :=
  i + length w ≤ length text ∧ slice text i (i + length w) = w.

(** The invariant of [matches]: in order of start, no two overlapping,
    none ending before it starts. *)
Definition placed (ms : list ChineseMatch) : Prop :=
  StronglySorted apart ms ∧ Forall (fun m => start m ≤ end_ m) ms.

(** Where the binary search ends when nothing overlaps: the matches
    before [l] end by [index], those from [l] on start at [end'] or later. *)
Definition insertionPoint (ms : list ChineseMatch) (index end' : nat) (l : Z) : Prop :=
  (0 ≤ l ≤ Z.of_nat (length ms))%Z ∧
  (∀ (j : nat) m, ms !! j = Some m → (Z.of_nat j < l)%Z → end_ m ≤ index) ∧
  (∀ (j : nat) m, ms !! j = Some m → (l ≤ Z.of_nat j)%Z → end' ≤ start m).

(** A stretch of the text that no match touches. *)
Definition gapOf (ms : list ChineseMatch) (text t : jsstring) : Prop :=
  ∃ a b, a ≤ b ≤ length text ∧ t = slice text a b ∧
         ∀ m, m ∈ ms → overlapsAt a b m = false.

(** Nothing below [n] is left for the highlighter: every text child is
    rejected by the filter, or was collected before, or holds no known
    word. *)
Fixpoint settled (collected : gset nat) (words : list jsstring) (style : jsstring)
    (n : node) : Prop :=
  match n with
  | TextNode _ _ => True
  | ElementNode _ tag a children =>
      fold_right (fun c rest =>
        match c with
        | TextNode id textContent =>
            chineseAcceptNode (tag, a) textContent = false ∨ id ∈ collected ∨
            chineseFragment words style textContent = Returns None
        | ElementNode _ _ _ _ => settled collected words style c
        end ∧ rest) True children
  end.

(** [settled] for one child of the element [parent]. *)
Definition settledUnder (collected : gset nat) (words : list jsstring) (style : jsstring)
    (parent : ancestor) (c : node) : Prop :=
  match c with
  | TextNode id textContent =>
      chineseAcceptNode parent textContent = false ∨ id ∈ collected ∨
      chineseFragment words style textContent = Returns None
  | ElementNode _ _ _ _ => settled collected words style c
  end.

(** What a pass keeps of the state. *)
Definition sameWords (st st' : chineseState) : Prop :=
  chineseKnownWords st' = chineseKnownWords st ∧
  chineseHighlightStyle st' = chineseHighlightStyle st ∧
  chineseProcessedNodes st ⊆ chineseProcessedNodes st'.

(** ** Reading the original text back from a selection *)

(** [extractFromNode(node)] of [getOriginalTextFromSelection]. *)
Fixpoint extractFromNode (n : node) : jsstring :=
  match n with
  | TextNode _ textContent => textContent
  | ElementNode _ _ a children =>
      if classListContains a (js "lang-learner-translated") then
        match getAttribute a (js "data-original") with
        | Some ((_ :: _) as original) => original ++ js " "
        | _ => flat_map nodeText children ++ js " "
        end
      else flat_map extractFromNode children
  end.

(** [s.replace(/\s+/g, ' ')]; [inRun] says that the character before was
    white space. *)
Fixpoint collapseSpaces (inRun : bool) (s : jsstring) : jsstring :=
  match s with
  | [] => []
  | c :: rest =>
      if isWhiteSpace c
      then (if inRun then collapseSpaces true rest else 32%N :: collapseSpaces true rest)
      else c :: collapseSpaces false rest
  end.

Fixpoint trimStart (s : jsstring) : jsstring :=
  match s with
  | [] => []
  | c :: rest => if isWhiteSpace c then trimStart rest else s
  end.

(** [s.trim()] *)
Definition trim (s : jsstring) : jsstring :=
  rev (trimStart (rev (trimStart s))).

(** [getOriginalTextFromSelection(selectedText)]; [container] holds the
    children of [range.cloneContents()], [None] when there is no
    selection range. *)
Definition getOriginalTextFromSelection (selectedText : jsstring)
    (container : option (list node)) : jsstring :=
  match container with
  | None => selectedText
  | Some childNodes =>
      let originalText := flat_map extractFromNode childNodes in
      let result := trim (collapseSpaces false originalText) in
      if bool_decide (result = []) then selectedText else result
  end.

(** The characters of [s] that are not white space. *)
Definition inkOf (s : jsstring) : jsstring :=
  List.filter (fun c => negb (isWhiteSpace c)) s.

(** What the rewriter puts into a fragment. *)
Definition rewriterPart (c : created) : Prop :=
  (∃ t, c = NewText t) ∨
  (∃ w wordData, w ≠ [] ∧ c = singleSpan w wordData) ∨
  (∃ cr originalWords, c = compoundSpan cr originalWords).

(** ** The list of known Chinese words in the popup *)

(** [addChineseWord()] with [input.value = inputValue]: the list that is
    stored, which is the old list when the word is refused. *)
Definition addChineseWord (inputValue : jsstring) (chineseKnownWords : list jsstring)
  : list jsstring :=
  let word := trim inputValue in
  if bool_decide (word = []) then chineseKnownWords
  else if negb (containsChinese word) then chineseKnownWords
  else if bool_decide (word ∈ chineseKnownWords) then chineseKnownWords
  else chineseKnownWords ++ [word].

(** The functions of the object [StorageManager] of src/storage.js. *)
Definition StorageManagerFunctions : list jsstring :=
  map js ["initialize"; "getKnownWords"; "getWord"; "addWord"; "updateWord";
          "removeWord"; "clearAllWords"; "getSettings"; "updateSettings";
          "exportWords"; "importWords"; "getStats"]%string.

(** [await StorageManager.<name>()] for a name that [Object.prototype]
    does not have: a member that is no function cannot be called, a
    TypeError is thrown. [result] is what the function resolves to. *)
Definition callStorageManager {A} (name : jsstring) (result : A) : outcome A :=
  if bool_decide (name ∈ StorageManagerFunctions) then Returns result else Throws.

(** The loop of [syncKnownWordsToChinese] over [Object.entries(knownWords)]. *)
Definition addTranslations (knownWords : object WordData)
    (chineseKnownWords : list jsstring) : list jsstring :=
  fold_left (fun chineseKnownWords entry =>
    let translation := translation (snd entry) in
    if negb (bool_decide (translation = [])) && containsChinese translation then
      if bool_decide (translation ∈ chineseKnownWords) then chineseKnownWords
      else chineseKnownWords ++ [translation]
    else chineseKnownWords) knownWords chineseKnownWords.

(** [syncKnownWordsToChinese()]: the list in [chrome.storage.sync]
    afterwards, [stored] being the list there before and [knownWords]
    the vocabulary in storage. The words are asked for with
    [StorageManager.getWords()], inside the [try]; when that throws, the
    [catch] reports the failure and nothing is stored. *)
Definition syncKnownWordsToChinese (knownWords : object WordData)
    (stored : list jsstring) : list jsstring :=
  match callStorageManager (js "getWords") knownWords with
  | Returns knownWords => addTranslations knownWords stored
  | Throws | Diverges => stored
  end.

(** ** The excluded URLs of the settings *)

(** [s.split('\n')] *)
Fixpoint splitLines (s : jsstring) : list jsstring :=
  match s with
  | [] => [[]]
  | c :: rest =>
      if (c =? 10)%N then [] :: splitLines rest
      else
        match splitLines rest with
        | line :: lines => (c :: line) :: lines
        | [] => [[c]]
        end
  end.

(** What the save button stores for the text of the textarea. *)
Definition parseExcludedUrls (value : jsstring) : list jsstring :=
  let excludedUrlsText := trim value in
  if bool_decide (excludedUrlsText = []) then []
  else List.filter (fun url => 0 <? length url) (map trim (splitLines excludedUrlsText)).

(** What [loadSettings] puts into the textarea. *)
Definition showExcludedUrls (excludedUrls : list jsstring) : jsstring :=
  join [10%N] excludedUrls.

(** [s.includes(pattern)] *)
Definition includes (s pattern : jsstring) : bool :=
  match indexOf s pattern 0 with Some _ => true | None => false end.

(** [isUrlExcluded(currentUrl, excludedUrls)]; [hostname] is
    [new URL(currentUrl).hostname], [None] when the constructor throws. *)
Definition isUrlExcluded (hostname : option jsstring) (currentUrl : jsstring)
    (excludedUrls : list jsstring) : outcome bool :=
  if length excludedUrls =? 0 then Returns false
  else
    match hostname with
    | None => Throws
    | Some hostname =>
        Returns (existsb (fun excludedPattern =>
                   let pattern := trim (toLowerCase excludedPattern) in
                   includes hostname pattern ||
                   includes (toLowerCase currentUrl) pattern) excludedUrls)
    end.

(** The string neither starts nor ends with white space. *)
Definition trimmed (s : jsstring) : Prop :=
  (∀ c, head s = Some c → isWhiteSpace c = false) ∧
  (∀ c, last s = Some c → isWhiteSpace c = false).

(** An entry as the save button stores it. *)
Definition storable (url : jsstring) : Prop :=
  url ≠ [] ∧ trimmed url ∧ 10%N ∉ url.

(** ** The translation cache of TranslatorAPI

    One call is followed from its first line to its last; the calls to
    [chrome.storage.local] are taken to succeed and no other call runs
    between the [await]s. Every caller passes the key
    [`${text}:${sourceLang}:${targetLang}`]. *)

Definition cacheKeyOf (text sourceLang targetLang : jsstring) : jsstring :=
  text ++ js ":" ++ sourceLang ++ js ":" ++ targetLang.

(** [{translation, timestamp}] *)
Record CacheEntry := mkCacheEntry {
  cachedTranslation : jsstring;   (* field [translation] *)
  timestamp : Z
}.

Record TranslatorAPI := mkTranslatorAPI {
  translationCache : list (jsstring * CacheEntry);   (* the Map, in insertion order *)
  persistentCache : object CacheEntry                (* [translationCache] in chrome.storage.local *)
}.

Definition cacheTimeout : Z := 24 * 60 * 60 * 1000.
Definition maxCacheSize : nat := 5000.

(** [map.set(key, value)] and [obj[key] = value]: a key that is there
    keeps its place. *)
Fixpoint setEntry (m : list (jsstring * CacheEntry)) (key : jsstring) (value : CacheEntry)
  : list (jsstring * CacheEntry) :=
  match m with
  | [] => [(key, value)]
  | (k, v) :: m' =>
      if bool_decide (k = key) then (key, value) :: m'
      else (k, v) :: setEntry m' key value
  end.

(** [map.delete(key)] and [delete obj[key]] *)
Definition deleteEntry (m : list (jsstring * CacheEntry)) (key : jsstring)
  : list (jsstring * CacheEntry) :=
  List.filter (fun kv => negb (bool_decide (fst kv = key))) m.

(** [Date.now() - entry.timestamp > this.cacheTimeout] *)
Definition expired (now : Z) (entry : CacheEntry) : bool :=
  (cacheTimeout <? now - timestamp entry)%Z.

(** [getCachedTranslation(cacheKey)] at the time [now]: the translation
    or [None] for [null], and the caches afterwards. *)
Definition getCachedTranslation (now : Z) (cacheKey : jsstring) (api : TranslatorAPI)
  : option jsstring * TranslatorAPI :=
  let fromStorage (api : TranslatorAPI) :=
    match getOwn (persistentCache api) cacheKey with
    | Some cached =>
        if expired now cached then
          (None, mkTranslatorAPI (translationCache api)
                                 (deleteEntry (persistentCache api) cacheKey))
        else
          (Some (cachedTranslation cached),
           mkTranslatorAPI (setEntry (translationCache api) cacheKey cached)
                           (persistentCache api))
    | None => (None, api)
    end in
  match getOwn (translationCache api) cacheKey with
  | Some memCached =>
      if expired now memCached then
        fromStorage (mkTranslatorAPI (deleteEntry (translationCache api) cacheKey)
                                     (persistentCache api))
      else (Some (cachedTranslation memCached), api)
  | None => fromStorage api
  end.

(** [.sort((a, b) => a.timestamp - b.timestamp)], stable. *)
Fixpoint insertByTimestamp (e : jsstring * Z) (sorted : list (jsstring * Z))
  : list (jsstring * Z) :=
  match sorted with
  | [] => [e]
  | x :: rest =>
      if (snd e <=? snd x)%Z then e :: x :: rest
      else x :: insertByTimestamp e rest
  end.

Fixpoint sortByTimestamp (l : list (jsstring * Z)) : list (jsstring * Z) :=
  match l with
  | [] => []
  | e :: rest => insertByTimestamp e (sortByTimestamp rest)
  end.

(** The persistent cache cut back to [maxCacheSize] entries. *)
Definition limitPersistent (persistentCache : object CacheEntry) : object CacheEntry :=
  let cacheKeys := keys persistentCache in
  if maxCacheSize <? length cacheKeys then
    let sortedKeys :=
      sortByTimestamp (map (fun kv => (fst kv, timestamp (snd kv))) persistentCache) in
    let keysToRemove := take (length cacheKeys - maxCacheSize) sortedKeys in
    fold_left (fun persistentCache item => deleteEntry persistentCache (fst item))
              keysToRemove persistentCache
  else persistentCache.

(** [cacheTranslation(cacheKey, translation)] at the time [now]. *)
Definition cacheTranslation (now : Z) (cacheKey translation : jsstring)
    (api : TranslatorAPI) : TranslatorAPI :=
  let cacheEntry := mkCacheEntry translation now in
  let memory := setEntry (translationCache api) cacheKey cacheEntry in
  let memory :=
    if 1000 <? length memory then
      match memory with
      | (firstKey, _) :: _ => deleteEntry memory firstKey
      | [] => memory
      end
    else memory in
  mkTranslatorAPI memory
    (limitPersistent (setEntry (persistentCache api) cacheKey cacheEntry)).

(** [clearCache()] *)
Definition clearCache (api : TranslatorAPI) : TranslatorAPI := mkTranslatorAPI [] [].

(** A stretch [a, b) of the text between matches: it starts at 0 or
    where a match ends, it ends where a match starts or with the text,
    and no match reaches into it. *)
Definition matchGap (originalText : jsstring) (um : list Match) (t : jsstring) : Prop :=
  ∃ a b, t = slice originalText a b ∧ a ≤ b ∧ b ≤ length originalText ∧
         (a = 0 ∨ ∃ m, m ∈ um ∧ endIndex m = a) ∧
         (b = length originalText ∨ ∃ m, m ∈ um ∧ index m = b) ∧
         ∀ m, m ∈ um → endIndex m ≤ a ∨ b ≤ index m.

(** What the loops of [replaceTextNode] keep when every match is a word
    of the vocabulary: the text runs so far are gaps between matches,
    and the matches before [i] and the consumed ones end by [lastIndex]. *)
Definition gapInv (originalText : jsstring) (um : list Match) (i : nat) (st : builder)
  : Prop :=
  (∀ t, NewText t ∈ fragment st → matchGap originalText um t) ∧
  (lastIndex st = 0 ∨ ∃ m, m ∈ um ∧ endIndex m = lastIndex st) ∧
  (∀ j m, j < i → um !! j = Some m → endIndex m ≤ lastIndex st) ∧
  (∀ j m, j ∈ processedIndices st → um !! j = Some m → endIndex m ≤ lastIndex st).

(** Every match is a property of [knownWords] once lower-cased. *)
Definition allKnown (kw : object WordData) (um : list Match) : Prop :=
  Forall (fun m => getProperty kw (toLowerCase (text m)) ≠ Absent) um.

(** ** Sample data for the concrete runs of the further properties *)

(** A vocabulary with the empty key. *)
Definition blankKey : object WordData := [([], mkWord (js "x") None)].

Definition scriptNode : node :=
  ElementNode 1 (js "SCRIPT") []
    [TextNode 2 (js "hello"); ElementNode 3 (js "B") [] [TextNode 4 (js "world")]].

(** U+597D, and the longer U+4F60 U+597D *)
Definition shortWord : jsstring := [0x597D]%N.

Definition knownChinese : list jsstring := [shortWord; [0x4F60; 0x597D]%N].

(** U+4F60 U+597D U+4E16 U+754C U+597D *)
Definition chineseText : jsstring := [0x4F60; 0x597D; 0x4E16; 0x754C; 0x597D]%N.

Definition chineseBody : node :=
  ElementNode 1 (js "BODY") [] [ElementNode 2 (js "P") [] [TextNode 3 chineseText]].

Definition chineseStart : chineseState :=
  mkChineseState knownChinese (js "underline") ∅ 100.

Definition practicePage : page := mkPage pets true true ∅ freshCache 100.

Definition emptyAPI : TranslatorAPI := mkTranslatorAPI [] [].

(** ** Patterns, matches and their offsets *)

Lemma isRegexSpecial_backslash c : isRegexSpecial c = false → c ≠ 92%N.
Proof. intros H ->. vm_compute in H. discriminate. Qed.

Lemma unescape_escapeRegex s : unescape (escapeRegex s) = s.
Proof.
  induction s as [|c s IH]; [done|].
  change (escapeRegex (c :: s))
    with ((if isRegexSpecial c then [92%N; c] else [c]) ++ escapeRegex s).
  destruct (isRegexSpecial c) eqn:E.
  - change (unescape ([92%N; c] ++ escapeRegex s))
      with (c :: unescape (escapeRegex s)).
    by rewrite IH.
  - pose proof (isRegexSpecial_backslash c E) as Hc.
    apply N.eqb_neq in Hc. cbn [app unescape]. rewrite Hc. by rewrite IH.
Qed.

Lemma prefixMatch_length ic lit rest :
  prefixMatch ic lit rest = true → length lit ≤ length rest.
Proof.
  revert rest. induction lit as [|c lit IH]; intros [|d rest]; cbn; try lia; try done.
  intros [_ H]%andb_true_iff. apply IH in H. lia.
Qed.

Lemma tryAlternatives_Some r s p alts e :
  tryAlternatives r s p alts = Some e →
  ∃ alt, alt ∈ alts ∧ alternativeAt r s p alt = true ∧ e = p + length (unescape alt).
Proof.
  induction alts as [|a alts IH]; cbn; [done|].
  destruct (alternativeAt r s p a) eqn:E.
  - intros [= <-]. exists a. split; [left|done].
  - intros (alt & ? & ? & ?)%IH. exists alt. split; [by right|done].
Qed.

Lemma scanFrom_Some r s p n i e :
  scanFrom r s p n = Some (i, e) → p ≤ i ∧ i < p + n ∧ matchAt r s i = Some e.
Proof.
  revert p. induction n as [|n IH]; intros p; cbn; [done|].
  destruct (matchAt r s p) eqn:E.
  - intros [= <- <-]. repeat split; [lia..|done].
  - intros H%IH. destruct H as (? & ? & ?). repeat split; [lia..|done].
Qed.

Lemma exec_Some r s lastIdx i e :
  exec r s lastIdx = Some (i, e) →
  lastIdx ≤ i ∧ i ≤ e ∧ e ≤ length s ∧
  ∃ alt, alt ∈ group r ∧ alternativeAt r s i alt = true ∧ e = i + length (unescape alt).
Proof.
  unfold exec. intros (Hle & Hlt & Hm)%scanFrom_Some.
  apply tryAlternatives_Some in Hm as (alt & Hin & Halt & ->).
  assert (Hlen : i + length (unescape alt) ≤ length s).
  { unfold alternativeAt in Halt. apply andb_true_iff in Halt as [Hp _].
    apply prefixMatch_length in Hp. rewrite length_drop in Hp. lia. }
  repeat split; [done|lia|done|]. by exists alt.
Qed.

Lemma exec_nonEmpty r s lastIdx i e :
  nonEmptyAlternatives r → exec r s lastIdx = Some (i, e) → i < e.
Proof.
  intros Hne (_ & _ & _ & alt & Hin & _ & ->)%exec_Some.
  unfold nonEmptyAlternatives in Hne. rewrite Forall_forall in Hne.
  specialize (Hne alt Hin). destruct (unescape alt); [done|cbn; lia].
Qed.

(** Every match the loop pushes lies in the text, and the loop ends with
    the fuel [execAll] gives it. *)
Lemma execLoop_inText fuel r s lastIdx ms :
  execLoop fuel r s lastIdx = Some ms →
  Forall (fun m => inText s m ∧ lastIdx ≤ index m) ms.
Proof.
  revert lastIdx ms. induction fuel as [|fuel IH]; intros lastIdx ms; cbn; [done|].
  destruct (exec r s lastIdx) as [[i e]|] eqn:E; [|by intros [= <-]].
  destruct (e =? i) eqn:Eei; [done|].
  destruct (execLoop fuel r s e) as [ms'|] eqn:El; [|done].
  intros [= <-]. apply Nat.eqb_neq in Eei.
  apply exec_Some in E as (? & ? & ? & _).
  constructor.
  - unfold inText; cbn. repeat split; [lia|done..].
  - apply IH in El. eapply Forall_impl; [exact El|].
    cbn. intros m [? ?]. split; [done|lia].
Qed.

Lemma execLoop_fuel fuel r s lastIdx :
  nonEmptyAlternatives r → length s - lastIdx < fuel →
  ∃ ms, execLoop fuel r s lastIdx = Some ms.
Proof.
  intros Hne. revert lastIdx. induction fuel as [|fuel IH]; intros lastIdx Hf; [lia|].
  cbn. destruct (exec r s lastIdx) as [[i e]|] eqn:E; [|by eexists].
  pose proof (exec_nonEmpty _ _ _ _ _ Hne E) as Hlt.
  apply exec_Some in E as (? & ? & ? & _).
  destruct (Nat.eqb_spec e i); [lia|].
  destruct (IH e) as [ms Hms]; [lia|]. rewrite Hms. by eexists.
Qed.

(** The loop fails to end only on an empty match. *)
Lemma execAll_None r s :
  execAll r s = None → ¬ nonEmptyAlternatives r.
Proof.
  intros H Hne. destruct (execLoop_fuel (S (length s)) r s 0 Hne) as [ms Hms]; [lia|].
  unfold execAll in H. congruence.
Qed.

Lemma collectMatches_inText s patterns ms :
  collectMatches s patterns = Some ms → Forall (inText s) ms.
Proof.
  revert ms. induction patterns as [|p ps IH]; intros ms; cbn [collectMatches].
  - by intros [= <-].
  - destruct (execAll p s) as [m1|] eqn:E1; [|done].
    destruct (collectMatches s ps) as [m2|]; [|done].
    intros [= <-]. apply Forall_app. split; [|by apply IH].
    apply execLoop_inText in E1. eapply Forall_impl; [exact E1|]. by intros ? [? _].
Qed.

Lemma collectMatches_total s patterns :
  Forall nonEmptyAlternatives patterns → ∃ ms, collectMatches s patterns = Some ms.
Proof.
  induction 1 as [|p ps Hp _ [ms IH]]; cbn [collectMatches]; [by eexists|].
  destruct (execLoop_fuel (S (length s)) p s 0 Hp) as [m1 H1]; [lia|].
  unfold execAll. rewrite H1, IH. by eexists.
Qed.

(** ** Sorting and overlap resolution *)

Lemma insertByIndex_Permutation m l : insertByIndex m l ≡ₚ m :: l.
Proof.
  induction l as [|x l IH]; cbn; [done|].
  destruct (index m <=? index x); [done|].
  rewrite IH. apply Permutation_swap.
Qed.

Lemma sortByIndex_Permutation l : sortByIndex l ≡ₚ l.
Proof.
  induction l as [|m l IH]; cbn; [done|].
  by rewrite insertByIndex_Permutation, IH.
Qed.

Lemma insertByIndex_sorted m l :
  StronglySorted byIndex l → StronglySorted byIndex (insertByIndex m l).
Proof.
  induction 1 as [|x l Hl IH Hx]; cbn; [repeat constructor|].
  destruct (Nat.leb_spec (index m) (index x)) as [Hle|Hgt].
  - constructor; [by constructor|].
    constructor; [done|]. eapply Forall_impl; [exact Hx|].
    unfold byIndex. intros; lia.
  - constructor; [done|].
    rewrite insertByIndex_Permutation. constructor; [unfold byIndex; lia|done].
Qed.

Lemma sortByIndex_sorted l : StronglySorted byIndex (sortByIndex l).
Proof.
  induction l as [|m l IH]; cbn; [constructor|]. by apply insertByIndex_sorted.
Qed.

Lemma uniqueMatchesOf_keepFrom l acc :
  fold_left pushIfDisjoint l acc = acc ++ keepFrom (endIndex <$> last acc) l.
Proof.
  revert acc. induction l as [|m l IH]; intros acc; cbn [fold_left keepFrom].
  - by rewrite app_nil_r.
  - rewrite IH. unfold pushIfDisjoint.
    destruct (last acc) as [previous|] eqn:El; cbn [fmap option_fmap option_map].
    + destruct (endIndex previous <=? index m).
      * rewrite last_snoc. cbn. by rewrite <- app_assoc.
      * by rewrite El.
    + rewrite last_snoc. cbn. by rewrite <- app_assoc.
Qed.

Lemma uniqueMatchesOf_eq l : uniqueMatchesOf l = keepFrom None l.
Proof. unfold uniqueMatchesOf. by rewrite uniqueMatchesOf_keepFrom. Qed.

Lemma keepFrom_sublist bound l : sublist (keepFrom bound l) l.
Proof.
  revert bound. induction l as [|m l IH]; intros bound; cbn; [constructor|].
  destruct bound as [e|].
  - destruct (e <=? index m); [apply sublist_skip|apply sublist_cons]; apply IH.
  - apply sublist_skip, IH.
Qed.

Lemma keepFrom_before bound l :
  Forall (fun m => index m < endIndex m) l →
  StronglySorted before (keepFrom bound l) ∧
  ∀ e, bound = Some e → Forall (fun m => e ≤ index m) (keepFrom bound l).
Proof.
  intros Hne. revert bound.
  induction Hne as [|m l Hm _ IH]; intros bound; cbn [keepFrom].
  { split; [constructor|]. intros; constructor. }
  assert (Hkeep : StronglySorted before (m :: keepFrom (Some (endIndex m)) l)).
  { destruct (IH (Some (endIndex m))) as [Hs Hb]. constructor; [done|].
    eapply Forall_impl; [exact (Hb _ eq_refl)|]. unfold before. intros; lia. }
  destruct bound as [e|].
  - destruct (Nat.leb_spec e (index m)) as [Hle|Hgt].
    + split; [done|]. intros e' [= <-]. constructor; [done|].
      destruct (IH (Some (endIndex m))) as [_ Hb].
      eapply Forall_impl; [exact (Hb _ eq_refl)|]. cbn. intros; lia.
    + apply IH.
  - split; [done|]. intros ? [=].
Qed.

Lemma keepFrom_covers bound l m :
  StronglySorted byIndex l → m ∈ l →
  m ∈ keepFrom bound l ∨
  (∃ k, k ∈ keepFrom bound l ∧ index k ≤ index m ∧ index m < endIndex k) ∨
  (∃ e, bound = Some e ∧ index m < e).
Proof.
  intros Hs. revert bound. induction Hs as [|x l Hl IH Hx]; intros bound Hin.
  { by apply elem_of_nil in Hin. }
  assert (Hkept : m ∈ x :: keepFrom (Some (endIndex x)) l ∨
            ∃ k, k ∈ x :: keepFrom (Some (endIndex x)) l ∧
                 index k ≤ index m ∧ index m < endIndex k).
  { apply elem_of_cons in Hin as [->|Hin]; [left; left|].
    destruct (IH (Some (endIndex x)) Hin) as [H|[(k & Hk & ?)|(e & [= <-] & He)]].
    - left. by right.
    - right. exists k. split; [by right|done].
    - right. exists x. split; [left|].
      rewrite Forall_forall in Hx. specialize (Hx m Hin). unfold byIndex in Hx. lia. }
  cbn [keepFrom]. destruct bound as [e|].
  - destruct (Nat.leb_spec e (index x)) as [Hle|Hgt].
    + destruct Hkept as [?|?]; [by left|right; by left].
    + apply elem_of_cons in Hin as [->|Hin].
      * right; right. by exists e.
      * apply IH, Hin.
  - destruct Hkept as [?|?]; [by left|right; by left].
Qed.

Lemma keepFrom_head l : head (keepFrom None l) = head l.
Proof. by destruct l. Qed.

Lemma Forall_of_sublist {A} (P : A → Prop) (l k : list A) :
  sublist k l → Forall P l → Forall P k.
Proof.
  intros Hs%sublist_subseteq. rewrite !Forall_forall. intros H x Hx. apply H, Hs, Hx.
Qed.

(** The resolved matches of a text: in the text, in order, disjoint. *)
Lemma resolveMatches_spec originalText patterns um :
  resolveMatches originalText patterns = Some um →
  Forall (inText originalText) um ∧ StronglySorted before um.
Proof.
  unfold resolveMatches.
  destruct (collectMatches originalText patterns) as [ms|] eqn:E; [|done].
  intros [= <-]. apply collectMatches_inText in E.
  rewrite uniqueMatchesOf_eq.
  assert (Hs : Forall (inText originalText) (sortByIndex ms)).
  { by rewrite sortByIndex_Permutation. }
  split.
  - eapply Forall_of_sublist; [|exact Hs]. apply keepFrom_sublist.
  - apply keepFrom_before. eapply Forall_impl; [exact Hs|]. by intros ? [? _].
Qed.

Lemma resolveMatches_total originalText patterns :
  Forall nonEmptyAlternatives patterns →
  ∃ um, resolveMatches originalText patterns = Some um.
Proof.
  intros Hne. destruct (collectMatches_total originalText patterns Hne) as [ms Hms].
  unfold resolveMatches. rewrite Hms. by eexists.
Qed.

(** C1. For every text and every list of patterns without an empty
    alternative, the matches are collected, and the list kept after the
    sort and the overlap filter is in order of start offset and free of
    overlaps; its members are matches as collected, none trimmed; it
    starts with the first match of the sorted list; and every collected
    match is either kept or starts inside a kept match that starts no
    later. *)
Theorem resolved_spans_sorted_disjoint originalText patterns :
  Forall nonEmptyAlternatives patterns →
  ∃ matches,
    collectMatches originalText patterns = Some matches ∧
    resolveMatches originalText patterns = Some (uniqueMatchesOf (sortByIndex matches)) ∧
    StronglySorted before (uniqueMatchesOf (sortByIndex matches)) ∧
    sublist (uniqueMatchesOf (sortByIndex matches)) (sortByIndex matches) ∧
    sortByIndex matches ≡ₚ matches ∧
    StronglySorted byIndex (sortByIndex matches) ∧
    head (uniqueMatchesOf (sortByIndex matches)) = head (sortByIndex matches) ∧
    ∀ m, m ∈ matches →
      m ∈ uniqueMatchesOf (sortByIndex matches) ∨
      ∃ k, k ∈ uniqueMatchesOf (sortByIndex matches) ∧
           index k ≤ index m ∧ index m < endIndex k.
Proof.
  intros Hne. destruct (collectMatches_total originalText patterns Hne) as [ms Hms].
  exists ms. split; [done|].
  assert (Hres : resolveMatches originalText patterns
                 = Some (uniqueMatchesOf (sortByIndex ms))).
  { unfold resolveMatches. by rewrite Hms. }
  split; [done|].
  split; [by apply resolveMatches_spec in Hres as [_ ?]|].
  rewrite uniqueMatchesOf_eq.
  split; [apply keepFrom_sublist|].
  split; [apply sortByIndex_Permutation|].
  split; [apply sortByIndex_sorted|].
  split; [apply keepFrom_head|].
  intros m Hm.
  destruct (keepFrom_covers None (sortByIndex ms) m) as [?|[?|(e & [=] & _)]]; auto.
  - apply sortByIndex_sorted.
  - by rewrite sortByIndex_Permutation.
Qed.

(** ** The fragment as a weave of text runs and units *)

Lemma weaveUnits_snoc originalText last units s e span :
  weaveUnits originalText last (units ++ [(s, e, span)]) =
  appendTextBefore originalText (weaveUnits originalText last units)
                   (endOfUnits last units) s ++ [span].
Proof.
  revert last. induction units as [|[[s' e'] span'] units IH]; intros last.
  - unfold appendTextBefore. cbn. by destruct (last <? s).
  - cbn [app weaveUnits endOfUnits]. rewrite IH. unfold appendTextBefore.
    destruct (endOfUnits e' units <? s); by rewrite <- ?app_assoc.
Qed.

Lemma endOfUnits_snoc last units s e span :
  endOfUnits last (units ++ [(s, e, span)]) = e.
Proof.
  revert last. induction units as [|[[s' e'] span'] units IH]; intros last; [done|].
  cbn. apply IH.
Qed.

Lemma orderedUnits_snoc last units s e span :
  orderedUnits last units → endOfUnits last units ≤ s → s < e →
  orderedUnits last (units ++ [(s, e, span)]).
Proof.
  revert last. induction units as [|[[s' e'] span'] units IH]; intros last; cbn.
  - intros; lia.
  - intros (? & ? & ?) ? ?. repeat split; [done..|]. by apply IH.
Qed.

Lemma StronglySorted_lookup_lt {A} (R : relation A) (l : list A) i j a b :
  StronglySorted R l → i < j → l !! i = Some a → l !! j = Some b → R a b.
Proof.
  intros Hs. revert i j. induction Hs as [|x l Hl IH Hx]; intros i j Hij Hi Hj.
  { by rewrite lookup_nil in Hi. }
  destruct j as [|j]; [lia|]. cbn in Hj. destruct i as [|i].
  - cbn in Hi. injection Hi as ->. rewrite Forall_forall in Hx.
    apply Hx. by eapply list_elem_of_lookup_2.
  - cbn in Hi. eapply (IH i j); [lia|done..].
Qed.

Lemma builderInv_empty originalText um : builderInv originalText um emptyBuilder [].
Proof. by repeat split. Qed.

Lemma builderInv_push originalText um st units first final span seen :
  builderInv originalText um st units →
  first ∈ um → final ∈ um → index first ≤ index final →
  index final < endIndex final → lastIndex st ≤ index first → isSpan span →
  builderInv originalText um
    (mkBuilder (appendTextBefore originalText (fragment st) (lastIndex st) (index first)
                  ++ [span])
               (endIndex final) seen)
    (units ++ [(index first, endIndex final, span)]).
Proof.
  intros (Hf & Hl & Ho & Hu) H1 H2 Hle Hne Hlast Hspan. repeat split; cbn.
  - by rewrite weaveUnits_snoc, <- Hf, <- Hl.
  - by rewrite endOfUnits_snoc.
  - apply orderedUnits_snoc; [done|lia|lia].
  - apply Forall_app. split; [done|]. constructor; [|constructor].
    split; [done|]. by exists first, final.
Qed.

Lemma findCompoundLoop_Some words s len c :
  findCompoundLoop words s len = Some c →
  ∃ l, 1 ≤ l ∧ l ≤ len ∧ s + l < length words ∧ compoundLength c = l + 1.
Proof.
  induction len as [|len IH]; cbn [findCompoundLoop]; [done|].
  assert (Hrec : findCompoundLoop words s len = Some c →
            ∃ l, 1 ≤ l ∧ l ≤ S len ∧ s + l < length words ∧ compoundLength c = l + 1).
  { intros (l & ? & ? & ? & ?)%IH. exists l. repeat split; [done|lia|done..]. }
  destruct (Nat.ltb_spec (s + S len) (length words)); [|done].
  destruct (truthy _); [|done].
  intros [= <-]. exists (S len). cbn. repeat split; lia.
Qed.

Lemma lookaheadWords_length kw um i :
  length (lookaheadWords kw um i) ≤ length um - (i + 1).
Proof.
  unfold lookaheadWords. cbn [flat_map]. rewrite !length_app. cbn [length].
  destruct (um !! (i + 1)) as [a|] eqn:E1; destruct (um !! (i + 2)) as [b|] eqn:E2;
    try apply lookup_lt_Some in E1; try apply lookup_lt_Some in E2;
    try apply lookup_ge_None in E1; try apply lookup_ge_None in E2;
    repeat match goal with
           | |- context [getProperty ?k ?w] => destruct (getProperty k w)
           end; cbn [length]; lia.
Qed.

Lemma pendingAfter_S um i st : pendingAfter um i st → pendingAfter um (S i) st.
Proof. intros H j m ?. apply H. lia. Qed.

Lemma compoundSome_range kw um i wordData c :
  (if 1 <? length (translationOf wordData :: lookaheadWords kw um i)
   then findCompound (translationOf wordData :: lookaheadWords kw um i) 0 2
   else None) = Some c →
  2 ≤ compoundLength c ∧ i + compoundLength c - 1 < length um.
Proof.
  destruct (1 <? _); [|done]. unfold findCompound.
  intros (l & ? & ? & Hl & ->)%findCompoundLoop_Some.
  cbn [length] in Hl. pose proof (lookaheadWords_length kw um i). lia.
Qed.

Lemma consumedIndices_elem um i len j :
  j ∈ consumedIndices um i len ↔ i ≤ j ∧ j < i + len ∧ j < length um.
Proof.
  unfold consumedIndices. rewrite list_elem_of_filter, elem_of_seq. lia.
Qed.

(** The unit of a compound: from the start of the current match to the
    end of the last match consumed. *)
Lemma compoundUnit_inv originalText um st units i cur final len span :
  Forall (inText originalText) um → StronglySorted before um →
  builderInv originalText um st units → pendingAfter um i st →
  i ∉ processedIndices st →
  um !! i = Some cur → um !! (i + len - 1) = Some final → 1 ≤ len → isSpan span →
  let st' := mkBuilder
               (appendTextBefore originalText (fragment st) (lastIndex st) (index cur)
                  ++ [span])
               (endIndex final)
               (processedIndices st ∪ list_to_set (consumedIndices um i len)) in
  builderInv originalText um st' (units ++ [(index cur, endIndex final, span)]) ∧
  pendingAfter um (S i) st'.
Proof.
  intros Hin Hs Hinv Hp Hi Hcur Hfinal Hlen Hspan st'.
  assert (Hfin : inText originalText final).
  { rewrite Forall_forall in Hin. apply Hin. by eapply list_elem_of_lookup_2. }
  assert (Hle : index cur ≤ index final).
  { destruct (decide (len = 1)) as [->|].
    - replace (i + 1 - 1) with i in Hfinal by lia. by simplify_eq.
    - assert (before cur final) as [? _]; [|lia].
      eapply (StronglySorted_lookup_lt before um i (i + len - 1)); [done|lia|done..]. }
  split.
  - apply builderInv_push; [done|by eapply list_elem_of_lookup_2..|done| |by eapply Hp|done].
    by destruct Hfin.
  - intros j m Hj Hnot Hm. cbn in *.
    rewrite elem_of_union, elem_of_list_to_set, consumedIndices_elem in Hnot.
    apply lookup_lt_Some in Hm as Hlt.
    assert (i + len - 1 < j) by (destruct (decide (j < i + len)); [|lia]; exfalso;
      apply Hnot; right; lia).
    assert (before final m) as [_ ?]; [|done].
    eapply (StronglySorted_lookup_lt before um (i + len - 1) j); done.
Qed.

Lemma compoundStep_inv kw originalText um st units i :
  Forall (inText originalText) um → StronglySorted before um →
  builderInv originalText um st units → pendingAfter um i st →
  ∃ st' units',
    compoundStep kw originalText um (Returns st) i = Returns st' ∧
    builderInv originalText um st' units' ∧ pendingAfter um (S i) st'.
Proof.
  intros Hin Hs Hinv Hp.
  assert (Hsame : ∃ st' units', Returns st = Returns st' ∧
            builderInv originalText um st' units' ∧ pendingAfter um (S i) st').
  { exists st, units. split; [done|]. split; [done|]. by apply pendingAfter_S. }
  unfold compoundStep. case_bool_decide as Hi; [done|].
  destruct (um !! i) as [cur|] eqn:Hcur; [|done].
  assert (Hbody : ∀ wordData,
    ∃ st' units',
      match
        (if 1 <? length (translationOf wordData :: lookaheadWords kw um i)
         then findCompound (translationOf wordData :: lookaheadWords kw um i) 0 2
         else None)
      with
      | Some c =>
          match um !! (i + compoundLength c - 1) with
          | Some lastConsumed =>
              Returns (mkBuilder
                (appendTextBefore originalText (fragment st) (lastIndex st) (index cur)
                   ++ [compoundSpan c
                         (omap (fun j => text <$> um !! j)
                               (consumedIndices um i (compoundLength c)))])
                (endIndex lastConsumed)
                (processedIndices st ∪ list_to_set (consumedIndices um i (compoundLength c))))
          | None => Throws
          end
      | None =>
          Returns (mkBuilder
            (appendTextBefore originalText (fragment st) (lastIndex st) (index cur)
               ++ [singleSpan (text cur) wordData])
            (endIndex cur) (processedIndices st ∪ {[ i ]}))
      end = Returns st' ∧
      builderInv originalText um st' units' ∧ pendingAfter um (S i) st').
  { intros wordData.
    destruct (if 1 <? _ then _ else _) as [c|] eqn:Ec.
    - apply compoundSome_range in Ec as [Hc2 Hrange].
      destruct (lookup_lt_is_Some_2 um (i + compoundLength c - 1) Hrange) as [final Hfinal].
      rewrite Hfinal. eexists _, _. split; [done|].
      eapply compoundUnit_inv; [done..|lia|done].
    - eexists _, _. split; [done|].
      pose proof (compoundUnit_inv originalText um st units i cur cur 1
                    (singleSpan (text cur) wordData) Hin Hs Hinv Hp Hi Hcur) as H.
      replace (i + 1 - 1) with i in H by lia.
      specialize (H Hcur (le_n 1) I). cbn zeta in H.
      replace (list_to_set (consumedIndices um i 1)) with ({[ i ]} : gset nat) in H; [done|].
      apply set_eq. intros j.
      rewrite elem_of_list_to_set, consumedIndices_elem, elem_of_singleton.
      apply lookup_lt_Some in Hcur. lia. }
  destruct (getProperty kw (toLowerCase (text cur))) as [w|name|]; [apply Hbody..|done].
Qed.

Lemma compoundLoop_inv kw originalText um k i st units :
  Forall (inText originalText) um → StronglySorted before um →
  builderInv originalText um st units → pendingAfter um i st →
  ∃ st' units',
    fold_left (compoundStep kw originalText um) (seq i k) (Returns st) = Returns st' ∧
    builderInv originalText um st' units'.
Proof.
  intros Hin Hs. revert i st units. induction k as [|k IH]; intros i st units Hinv Hp.
  - by exists st, units.
  - cbn [seq fold_left].
    destruct (compoundStep_inv kw originalText um st units i Hin Hs Hinv Hp)
      as (st1 & units1 & -> & Hinv1 & Hp1).
    by apply (IH (S i) st1 units1).
Qed.

Lemma simpleLoop_inv kw originalText um l st units :
  Forall (fun m => inText originalText m ∧ m ∈ um) l → StronglySorted before l →
  builderInv originalText um st units →
  Forall (fun m => lastIndex st ≤ index m) l →
  ∃ units', builderInv originalText um
              (fold_left (simpleStep kw originalText) l st) units'.
Proof.
  intros Hin Hs. revert st units.
  induction Hs as [|m l Hl IH Hm]; intros st units Hinv Hlast; cbn [fold_left].
  { by exists units. }
  apply Forall_cons in Hin as [[Hm1 Hm2] Hin]. apply Forall_cons in Hlast as [Hl1 Hl2].
  assert (Hpush : ∀ wordData, ∃ units',
    builderInv originalText um
      (fold_left (simpleStep kw originalText) l
         (mkBuilder (appendTextBefore originalText (fragment st) (lastIndex st) (index m)
                       ++ [singleSpan (text m) wordData])
                    (endIndex m) (processedIndices st))) units').
  { intros wordData. eapply IH; [done| |].
    - apply builderInv_push; [done..|lia| |done|done]. by destruct Hm1.
    - cbn. eapply Forall_impl; [exact Hm|]. by intros ? [_ ?]. }
  unfold simpleStep at 2.
  destruct (getProperty kw (toLowerCase (text m))) as [w|name|]; [apply Hpush..|].
  by eapply IH.
Qed.

Lemma weave_appendRemaining originalText um st units :
  builderInv originalText um st units →
  appendRemaining originalText st = weave originalText units.
Proof.
  intros (Hf & Hl & _). unfold appendRemaining, weave. rewrite Hf, Hl.
  destruct (endOfUnits 0 units <? length originalText); [done|by rewrite app_nil_r].
Qed.

Lemma endOfUnits_le originalText um last units :
  Forall (inText originalText) um → Forall (unitOfMatches um) units →
  last ≤ length originalText → endOfUnits last units ≤ length originalText.
Proof.
  intros Hin Hu. revert last. induction Hu as [|[[s e] span] units Hu _ IH]; intros last Hl.
  - done.
  - cbn. apply IH. destruct Hu as (_ & first & final & _ & Hf & _ & He & _).
    cbn in He. subst e. rewrite Forall_forall in Hin. by destruct (Hin final Hf) as (_ & ? & _).
Qed.

(** The loops of [replaceTextNode] return, and what they return is the
    weave of the text with the units they generate. *)
Lemma fragmentOf_weave fcl kw originalText um :
  Forall (inText originalText) um → StronglySorted before um →
  ∃ units,
    fragmentOf fcl kw originalText um = Returns (weave originalText units) ∧
    orderedUnits 0 units ∧
    endOfUnits 0 units ≤ length originalText ∧
    Forall (unitOfMatches um) units.
Proof.
  intros Hin Hs. unfold fragmentOf.
  destruct (fcl && (0 <? length um)).
  - destruct (compoundLoop_inv kw originalText um (length um) 0 emptyBuilder []
                Hin Hs (builderInv_empty _ _)) as (st & units & -> & Hinv).
    { intros j m _ _ _. cbn. lia. }
    exists units. rewrite (weave_appendRemaining _ _ _ _ Hinv).
    destruct Hinv as (_ & _ & ? & Hu). repeat split; [done| |done].
    eapply endOfUnits_le; [done..|lia].
  - destruct (simpleLoop_inv kw originalText um um emptyBuilder []) as [units Hinv].
    + rewrite Forall_forall in Hin. apply Forall_forall. intros m Hm. by split; [apply Hin|].
    + done.
    + apply builderInv_empty.
    + apply Forall_forall. intros; cbn; lia.
    + exists units. rewrite (weave_appendRemaining _ _ _ _ Hinv).
      destruct Hinv as (_ & _ & ? & Hu). repeat split; [done| |done].
      eapply endOfUnits_le; [done..|lia].
Qed.

(** Every span of a fragment of [replaceTextNode] carries [data-translated]. *)
Lemma appendTextBefore_marks originalText frag last s :
  Forall marksTranslated frag →
  Forall marksTranslated (appendTextBefore originalText frag last s).
Proof.
  intros H. unfold appendTextBefore. destruct (last <? s); [|done].
  apply Forall_app. split; [done|]. by repeat constructor.
Qed.

Lemma compoundStep_marks kw originalText um st i st' :
  Forall marksTranslated (fragment st) →
  compoundStep kw originalText um (Returns st) i = Returns st' →
  Forall marksTranslated (fragment st').
Proof.
  intros Hm. unfold compoundStep. case_bool_decide; [by intros [= <-]|].
  destruct (um !! i) as [cur|]; [|by intros [= <-]].
  assert (Hpush : ∀ span, marksTranslated span →
    Forall marksTranslated
      (appendTextBefore originalText (fragment st) (lastIndex st) (index cur) ++ [span])).
  { intros span Hspan. apply Forall_app. split; [by apply appendTextBefore_marks|].
    by repeat constructor. }
  destruct (getProperty kw (toLowerCase (text cur))) as [w|name|]; [..|by intros [= <-]].
  all: destruct (if 1 <? _ then _ else _) as [c|];
    [destruct (um !! (i + compoundLength c - 1)); [|done]|];
    intros [= <-]; cbn [fragment]; apply Hpush; reflexivity.
Qed.

Lemma compoundLoop_Throws kw originalText um l :
  fold_left (compoundStep kw originalText um) l Throws = Throws.
Proof. induction l; [done|by cbn]. Qed.

Lemma compoundLoop_Diverges kw originalText um l :
  fold_left (compoundStep kw originalText um) l Diverges = Diverges.
Proof. induction l; [done|by cbn]. Qed.

Lemma compoundLoop_marks kw originalText um l st st' :
  Forall marksTranslated (fragment st) →
  fold_left (compoundStep kw originalText um) l (Returns st) = Returns st' →
  Forall marksTranslated (fragment st').
Proof.
  revert st. induction l as [|i l IH]; intros st Hm; cbn [fold_left].
  - by intros [= <-].
  - destruct (compoundStep kw originalText um (Returns st) i) as [st1| |] eqn:E.
    + apply IH. by eapply compoundStep_marks.
    + by rewrite compoundLoop_Throws.
    + by rewrite compoundLoop_Diverges.
Qed.

Lemma simpleLoop_marks kw originalText l st :
  Forall marksTranslated (fragment st) →
  Forall marksTranslated (fragment (fold_left (simpleStep kw originalText) l st)).
Proof.
  revert st. induction l as [|m l IH]; intros st Hm; cbn [fold_left]; [done|].
  apply IH. unfold simpleStep.
  destruct (getProperty kw (toLowerCase (text m))) as [w|name|]; [..|done];
    cbn [fragment]; (apply Forall_app; split; [by apply appendTextBefore_marks|]);
    by repeat constructor.
Qed.

Lemma appendRemaining_marks originalText st :
  Forall marksTranslated (fragment st) →
  Forall marksTranslated (appendRemaining originalText st).
Proof.
  intros H. unfold appendRemaining. destruct (lastIndex st <? length originalText); [|done].
  apply Forall_app. split; [done|]. by repeat constructor.
Qed.

Lemma buildFragment_marks fcl kw originalText patterns frag :
  buildFragment fcl kw originalText patterns = Returns frag →
  Forall marksTranslated frag.
Proof.
  unfold buildFragment. destruct (resolveMatches originalText patterns) as [um|]; [|done].
  unfold fragmentOf. destruct (fcl && (0 <? length um)).
  - destruct (fold_left _ _ _) as [st| |] eqn:E; [|done..].
    intros [= <-]. apply appendRemaining_marks.
    eapply compoundLoop_marks; [|exact E]. constructor.
  - intros [= <-]. apply appendRemaining_marks, simpleLoop_marks. constructor.
Qed.

(** The shape of every fragment: for a list of patterns without an
    empty alternative, the fragment built for a text node is the weave
    of the text with its units. Each unit is a span that reaches from the
    start of a resolved match to the end of the same or of a later
    resolved match, the units are in order and disjoint, and the text
    before, between and after the units makes the text runs. The text
    between two matches consumed as one compound lies inside the unit
    and is in no text run. *)
Lemma fragment_is_weave_of_units fcl kw originalText patterns :
  Forall nonEmptyAlternatives patterns →
  ∃ um units,
    resolveMatches originalText patterns = Some um ∧
    buildFragment fcl kw originalText patterns = Returns (weave originalText units) ∧
    orderedUnits 0 units ∧
    endOfUnits 0 units ≤ length originalText ∧
    Forall (unitOfMatches um) units.
Proof.
  intros Hne.
  destruct (resolveMatches_total originalText patterns Hne) as [um Hum].
  exists um. destruct (resolveMatches_spec _ _ _ Hum) as [Hin Hs].
  destruct (fragmentOf_weave fcl kw originalText um Hin Hs) as (units & Hf & ? & ? & ?).
  exists units. split; [done|]. split; [|done].
  unfold buildFragment. by rewrite Hum.
Qed.

(** ** The signature of the vocabulary and the pattern cache *)

Lemma lexLeb_total a b : lexLeb a b = true ∨ lexLeb b a = true.
Proof.
  revert b. induction a as [|x a IH]; intros [|y b]; cbn; auto.
  destruct (N.ltb_spec x y), (N.ltb_spec y x); auto; lia.
Qed.

Lemma lexLeb_antisym a b : lexLeb a b = true → lexLeb b a = true → a = b.
Proof.
  revert b. induction a as [|x a IH]; intros [|y b]; cbn; try done.
  destruct (N.ltb_spec x y), (N.ltb_spec y x); try done; try lia.
  intros Ha Hb. f_equal; [lia|by apply IH].
Qed.

Lemma lexLeb_trans a b c : lexLeb a b = true → lexLeb b c = true → lexLeb a c = true.
Proof.
  revert b c. induction a as [|x a IH]; intros [|y b] [|z c]; cbn; try done.
  destruct (N.ltb_spec x y), (N.ltb_spec y x), (N.ltb_spec y z), (N.ltb_spec z y),
    (N.ltb_spec x z), (N.ltb_spec z x); try done; try lia.
  apply IH.
Qed.

#[local] Instance lexLe_Total : Total lexLe.
Proof. intros a b. apply lexLeb_total. Qed.

#[local] Instance lexLe_AntiSymm : AntiSymm (=) lexLe.
Proof. intros a b. apply lexLeb_antisym. Qed.

#[local] Instance lexLe_Transitive : Transitive lexLe.
Proof. intros a b c. apply lexLeb_trans. Qed.

Lemma sortStrings_Permutation l1 l2 : l1 ≡ₚ l2 → sortStrings l1 = sortStrings l2.
Proof.
  intros Hp. unfold sortStrings.
  apply (Sorted_unique lexLe); [apply Sorted_merge_sort, _..|].
  by rewrite !merge_sort_Permutation.
Qed.

Lemma compileChunks_fuel fuel1 fuel2 escapedWords i :
  length escapedWords - i ≤ fuel1 → length escapedWords - i ≤ fuel2 →
  compileChunks fuel1 escapedWords i = compileChunks fuel2 escapedWords i.
Proof.
  revert fuel2 i.
  induction fuel1 as [|fuel1 IH]; intros [|fuel2] i H1 H2; cbn [compileChunks];
    destruct (Nat.ltb_spec i (length escapedWords)); try done; try lia.
  f_equal. apply IH; unfold CHUNK_SIZE; lia.
Qed.

Lemma getCompiledPatterns_cached kw c :
  let '(patterns, c') := getCompiledPatterns kw c in
  cachedPatterns c' = Some patterns ∧ cachedKnownWordsHash c' = Some (knownWordsHash kw).
Proof.
  unfold getCompiledPatterns, knownWordsHash.
  destruct (cachedPatterns c) as [ps|] eqn:E; [|done].
  case_bool_decide; done.
Qed.

(** C7. For vocabularies with the same keys in different orders, the
    signature is the same; a rebuild against a cache whose signature
    equals the current one returns the cached list and leaves the cache
    as it is; a rebuild from one order followed by a rebuild from the
    other returns the same list without compiling again; and from any
    cache the two rebuilds give lists that resolve every text to the
    same spans. *)
Theorem signature_ignores_insertion_order kw1 kw2 :
  keys kw1 ≡ₚ keys kw2 →
  knownWordsHash kw1 = knownWordsHash kw2 ∧
  (∀ c patterns,
     cachedPatterns c = Some patterns →
     cachedKnownWordsHash c = Some (knownWordsHash kw1) →
     getCompiledPatterns kw2 c = (patterns, c)) ∧
  (∀ c, getCompiledPatterns kw2 (snd (getCompiledPatterns kw1 c))
        = (fst (getCompiledPatterns kw1 c), snd (getCompiledPatterns kw1 c))) ∧
  (∀ c originalText,
     resolveMatches originalText (fst (getCompiledPatterns kw1 c))
     = resolveMatches originalText (fst (getCompiledPatterns kw2 c))).
Proof.
  intros Hp. apply sortStrings_Permutation in Hp as Hs.
  assert (Hhash : knownWordsHash kw1 = knownWordsHash kw2).
  { unfold knownWordsHash. by rewrite Hs. }
  assert (Hsame : ∀ c, getCompiledPatterns kw1 c = getCompiledPatterns kw2 c).
  { intros c. unfold getCompiledPatterns. by rewrite Hs. }
  assert (Hhit : ∀ c patterns,
     cachedPatterns c = Some patterns →
     cachedKnownWordsHash c = Some (knownWordsHash kw1) →
     getCompiledPatterns kw2 c = (patterns, c)).
  { intros c patterns H1 H2. unfold getCompiledPatterns. rewrite H1.
    rewrite Hhash in H2. unfold knownWordsHash in H2. by rewrite bool_decide_true. }
  split; [done|]. split; [done|]. split.
  - intros c. pose proof (getCompiledPatterns_cached kw1 c) as H.
    destruct (getCompiledPatterns kw1 c) as [ps c']. destruct H as [H1 H2].
    by apply Hhit.
  - intros c originalText. by rewrite Hsame.
Qed.

(** ** The order of the chunks *)

Lemma collectMatches_Permutation originalText ps1 ps2 ms1 :
  ps1 ≡ₚ ps2 → collectMatches originalText ps1 = Some ms1 →
  ∃ ms2, collectMatches originalText ps2 = Some ms2 ∧ ms1 ≡ₚ ms2.
Proof.
  intros Hp. revert ms1.
  induction Hp as [|p ps ps' _ IH|p q ps|ps ps' ps'' _ IH1 _ IH2]; intros ms1;
    cbn [collectMatches].
  - intros [= <-]. by exists [].
  - destruct (execAll p originalText) as [a|]; [|done].
    destruct (collectMatches originalText ps) as [b|]; [|done].
    intros [= <-]. destruct (IH b eq_refl) as (b' & -> & Hb).
    exists (a ++ b'). split; [done|]. by rewrite Hb.
  - destruct (execAll q originalText) as [a|]; [|done].
    destruct (execAll p originalText) as [b|]; [|done].
    destruct (collectMatches originalText ps) as [c|]; [|done].
    intros [= <-]. exists (b ++ a ++ c). split; [done|].
    apply Permutation_app_swap_app.
  - intros H1. destruct (IH1 _ H1) as (ms2 & H2 & Hp2).
    destruct (IH2 _ H2) as (ms3 & H3 & Hp3).
    exists ms3. split; [done|]. by rewrite Hp2.
Qed.

Lemma NoDup_fmap_eq {A B} (f : A → B) (l : list A) x y :
  NoDup (f <$> l) → x ∈ l → y ∈ l → f x = f y → x = y.
Proof.
  induction l as [|a l IH]; cbn.
  { intros _ H. by apply elem_of_nil in H. }
  rewrite NoDup_cons. intros [Ha Hl] Hx Hy Hf.
  apply elem_of_cons in Hx as [->|Hx]; apply elem_of_cons in Hy as [->|Hy].
  - done.
  - exfalso. apply Ha. rewrite Hf. by apply list_elem_of_fmap_2.
  - exfalso. apply Ha. rewrite <- Hf. by apply list_elem_of_fmap_2.
  - by apply IH.
Qed.

Lemma sortByIndex_unique ms1 ms2 :
  ms1 ≡ₚ ms2 → NoDup (index <$> ms1) → sortByIndex ms1 = sortByIndex ms2.
Proof.
  intros Hp Hnd.
  apply (StronglySorted_unique_strong byIndex); [|apply sortByIndex_sorted..|].
  - intros x y Hx Hy Hxy Hyx. unfold byIndex in *.
    rewrite sortByIndex_Permutation in Hx. rewrite sortByIndex_Permutation, <- Hp in Hy.
    apply (NoDup_fmap_eq index ms1); [done..|lia].
  - by rewrite !sortByIndex_Permutation.
Qed.

(** Matches that start at offset [i], in the order of the list. *)
Lemma insertByIndex_stable i m l :
  filter (fun x => index x = i) (insertByIndex m l)
  = filter (fun x => index x = i) (m :: l).
Proof.
  induction l as [|x l IH]; cbn [insertByIndex]; [done|].
  destruct (Nat.leb_spec (index m) (index x)) as [Hle|Hgt]; [done|].
  rewrite (filter_cons _ x), IH, !filter_cons.
  repeat case_decide; try done; lia.
Qed.

Lemma sortByIndex_stable i l :
  filter (fun x => index x = i) (sortByIndex l) = filter (fun x => index x = i) l.
Proof.
  induction l as [|m l IH]; cbn [sortByIndex]; [done|].
  by rewrite insertByIndex_stable, !filter_cons, IH.
Qed.

Lemma keepFrom_first_of_start bound l k :
  Forall (fun m => index m < endIndex m) l → k ∈ keepFrom bound l →
  head (filter (fun m => index m = index k) l) = Some k.
Proof.
  intros Hne. revert bound. induction Hne as [|x l Hx Hl IH]; intros bound; cbn [keepFrom].
  { intros H. by apply elem_of_nil in H. }
  assert (Hlater : ∀ e, index x < e → k ∈ keepFrom (Some e) l →
            head (filter (fun m => index m = index k) (x :: l)) = Some k).
  { intros e He Hk. rewrite filter_cons.
    destruct (keepFrom_before (Some e) l Hl) as [_ Hb].
    specialize (Hb e eq_refl). rewrite Forall_forall in Hb. specialize (Hb k Hk).
    case_decide; [lia|]. by eapply IH. }
  assert (Hkept : k ∈ x :: keepFrom (Some (endIndex x)) l →
            head (filter (fun m => index m = index k) (x :: l)) = Some k).
  { intros [->|Hk]%elem_of_cons.
    - rewrite filter_cons. by case_decide.
    - by eapply Hlater. }
  destruct bound as [e|]; [|done].
  destruct (Nat.leb_spec e (index x)); [done|]. by apply Hlater.
Qed.

(** C8 (amended). A match that survives is the first, in the order of
    collection, of the collected matches that start at its offset: on a
    shared start the earlier chunk, and inside a chunk the earlier
    alternative, decides, not the length. When no two collected matches
    start at the same offset, the order of the chunks has no effect on
    the resolved list. *)
Theorem chunk_order_irrelevant_without_ties originalText ps1 ps2 ms1 :
  ps1 ≡ₚ ps2 →
  collectMatches originalText ps1 = Some ms1 →
  resolveMatches originalText ps1 = Some (uniqueMatchesOf (sortByIndex ms1)) ∧
  (∀ k, k ∈ uniqueMatchesOf (sortByIndex ms1) →
        head (filter (fun m => index m = index k) ms1) = Some k) ∧
  (NoDup (index <$> ms1) →
   resolveMatches originalText ps2 = resolveMatches originalText ps1).
Proof.
  intros Hp H1. split; [unfold resolveMatches; by rewrite H1|]. split.
  - intros k Hk. rewrite uniqueMatchesOf_eq in Hk.
    rewrite <- (sortByIndex_stable (index k) ms1).
    eapply keepFrom_first_of_start; [|exact Hk].
    apply collectMatches_inText in H1. rewrite sortByIndex_Permutation.
    eapply Forall_impl; [exact H1|]. by intros ? [? _].
  - intros Hnd.
    destruct (collectMatches_Permutation _ _ _ _ Hp H1) as (ms2 & H2 & Hms).
    unfold resolveMatches. rewrite H1, H2. do 2 f_equal.
    symmetry. by apply sortByIndex_unique.
Qed.

(** ** Replacing a node in its parent *)

Lemma replaceChild_middle frag child before c after :
  nodeId c = child → Forall (fun n => nodeId n ≠ child) before →
  replaceChild frag child (before ++ c :: after) = before ++ frag ++ after.
Proof.
  intros Hc. induction 1 as [|b before Hb _ IH]; cbn.
  - by rewrite Hc, Nat.eqb_refl.
  - apply Nat.eqb_neq in Hb. by rewrite Hb, IH.
Qed.

Lemma buildFragment_total fcl kw originalText patterns :
  Forall nonEmptyAlternatives patterns →
  ∃ frag, buildFragment fcl kw originalText patterns = Returns frag.
Proof.
  intros Hne. destruct (resolveMatches_total originalText patterns Hne) as [um Hum].
  destruct (resolveMatches_spec _ _ _ Hum) as [Hin Hs].
  destruct (fragmentOf_weave fcl kw originalText um Hin Hs) as (units & Hf & _).
  unfold buildFragment. rewrite Hum, Hf. by eexists.
Qed.

Lemma highlightFragment_total originalText pattern :
  nonEmptyAlternatives pattern →
  ∃ frag, highlightFragment originalText pattern = Returns frag.
Proof.
  intros Hne.
  destruct (execLoop_fuel (S (length originalText)) pattern originalText 0 Hne)
    as [ms Hms]; [lia|].
  unfold highlightFragment, execAll. rewrite Hms. by eexists.
Qed.

(** C9 (amended). Neither [replaceTextNode] nor [highlightKnownWords]
    looks at the parent before replacing. For patterns without an empty
    alternative each builds its fragment; on a node without a parent the
    call then throws; on a node with a parent it returns, and the parent
    holds the whole fragment in the place of the node, its other
    children untouched. *)
Theorem replacement_goes_through_parent textNode originalText patterns pattern st :
  Forall nonEmptyAlternatives patterns → nonEmptyAlternatives pattern →
  ∃ frag known,
    buildFragment (findCompoundLoaded st) (knownWords st) originalText patterns
      = Returns frag ∧
    highlightFragment originalText pattern = Returns known ∧
    replaceTextNode None textNode originalText patterns st = Throws ∧
    highlightKnownWords None textNode originalText pattern st = Throws ∧
    ∀ id tag a before after,
      Forall (fun n => nodeId n ≠ textNode) before →
      replaceTextNode
        (Some (ElementNode id tag a (before ++ TextNode textNode originalText :: after)))
        textNode originalText patterns st
      = Returns (ElementNode id tag a
                   (before ++ fst (attachAll (nextNode st) frag) ++ after),
                 withNextNode st (snd (attachAll (nextNode st) frag))) ∧
      highlightKnownWords
        (Some (ElementNode id tag a (before ++ TextNode textNode originalText :: after)))
        textNode originalText pattern st
      = Returns (ElementNode id tag a
                   (before ++ fst (attachAll (nextNode st) known) ++ after),
                 withNextNode st (snd (attachAll (nextNode st) known))).
Proof.
  intros Hps Hp.
  destruct (buildFragment_total (findCompoundLoaded st) (knownWords st)
              originalText patterns Hps) as [frag Hfrag].
  destruct (highlightFragment_total originalText pattern Hp) as [known Hknown].
  exists frag, known. unfold replaceTextNode, highlightKnownWords.
  rewrite Hfrag, Hknown. repeat split; cbn [replaceInParent].
  - destruct (attachAll (nextNode st) frag) as [nodes next] eqn:E. cbn.
    by rewrite replaceChild_middle.
  - destruct (attachAll (nextNode st) known) as [nodes next] eqn:E. cbn.
    by rewrite replaceChild_middle.
Qed.

(** ** Which nodes a scan marks *)

Lemma node_induction (P : node → Prop) :
  (∀ id textContent, P (TextNode id textContent)) →
  (∀ id tag a children, Forall P children → P (ElementNode id tag a children)) →
  ∀ n, P n.
Proof.
  intros Htext Helem. fix IH 1. intros [id t|id tag a children]; [apply Htext|].
  apply Helem. induction children as [|c cs IHcs]; constructor; [apply IH|exact IHcs].
Qed.

Lemma replaceInParent_processed parentNode textNode frag st parent' st' :
  replaceInParent parentNode textNode frag st = Returns (parent', st') →
  processedNodes st' = processedNodes st.
Proof.
  unfold replaceInParent. destruct parentNode as [[|id tag a children]|]; [done| |done].
  destruct (attachAll (nextNode st) frag). by intros [= _ <-].
Qed.

Lemma learnCallback_processed patterns parentNode textNode originalText st r st' :
  learnCallback patterns parentNode textNode originalText st = Returns (r, st') →
  ∀ j, j ∈ processedNodes st' →
    j ∈ processedNodes st ∨ (j = textNode ∧ hasMatches patterns originalText = true).
Proof.
  unfold learnCallback. case_bool_decide; [by intros [= _ <-]; auto|].
  destruct (hasMatches patterns originalText); cbn [negb]; [|by intros [= _ <-]; auto].
  unfold replaceTextNode. destruct (buildFragment _ _ _ _) as [frag| |]; [|done..].
  destruct (replaceInParent _ _ _ _) as [[parent' st1]| |] eqn:E; [|done..].
  apply replaceInParent_processed in E. intros [= _ <-] j. cbn. rewrite E.
  rewrite elem_of_union, elem_of_singleton. intros [->|?]; auto.
Qed.

Lemma walkChildren_Throws below f ancestors todo :
  walkChildren below f ancestors todo Throws = Throws.
Proof. by destruct todo. Qed.

Lemma walkChildren_Diverges below f ancestors todo :
  walkChildren below f ancestors todo Diverges = Diverges.
Proof. by destruct todo. Qed.

Lemma walkChildren_processed patterns ancestors below todo :
  Forall (fun c => ∀ w c' w', below c w = Returns (c', w') →
            marksOnlyMatched patterns (acceptedBelow ancestors c)
              (walkerPage w) (walkerPage w')) todo →
  ∀ current w n' w',
    walkChildren below (learnCallback patterns) ancestors todo (Returns (current, w))
      = Returns (n', w') →
    marksOnlyMatched patterns (acceptedChildren ancestors todo)
      (walkerPage w) (walkerPage w').
Proof.
  induction 1 as [|c todo Hc _ IH]; intros current w n' w'; cbn [walkChildren].
  { intros [= _ <-] j Hj. by left. }
  destruct (walkerAlive w); [|intros [= _ <-] j Hj; by left].
  assert (Hstep : ∀ current1 w1,
    marksOnlyMatched patterns
      (match c with
       | TextNode id textContent =>
           if acceptNode ancestors textContent then [(id, textContent)] else []
       | ElementNode _ _ _ _ => acceptedBelow ancestors c
       end) (walkerPage w) (walkerPage w1) →
    walkChildren below (learnCallback patterns) ancestors todo (Returns (current1, w1))
      = Returns (n', w') →
    marksOnlyMatched patterns (acceptedChildren ancestors (c :: todo))
      (walkerPage w) (walkerPage w')).
  { intros current1 w1 H1 Hrest j Hj. unfold acceptedChildren. cbn [flat_map].
    destruct (IH _ _ _ _ Hrest j Hj) as [Hj1|(t & Ht & Hm)].
    - destruct (H1 j Hj1) as [?|(t & Ht & Hm)]; [by left|].
      right. exists t. split; [|done]. apply elem_of_app. by left.
    - right. exists t. split; [|done]. apply elem_of_app. by right. }
  destruct c as [id textContent|id tag a children].
  - unfold visitText. destruct (acceptNode ancestors textContent) eqn:Eacc.
    + destruct (learnCallback patterns (Some current) id textContent (walkerPage w))
        as [[[parent'|] st1]| |] eqn:Ecb.
      * apply Hstep. intros j Hj. cbn in Hj.
        destruct (learnCallback_processed _ _ _ _ _ _ _ Ecb j Hj) as [?|[-> ?]]; [by left|].
        right. exists textContent. split; [by apply list_elem_of_singleton|done].
      * apply Hstep. intros j Hj. cbn in Hj.
        destruct (learnCallback_processed _ _ _ _ _ _ _ Ecb j Hj) as [?|[-> ?]]; [by left|].
        right. exists textContent. split; [by apply list_elem_of_singleton|done].
      * by rewrite walkChildren_Throws.
      * by rewrite walkChildren_Diverges.
    + apply Hstep. intros j Hj. by left.
  - destruct (below (ElementNode id tag a children) w) as [[c' w1]| |] eqn:Eb; [|done..].
    apply Hstep. by eapply Hc.
Qed.

Lemma walkBelow_processed patterns n :
  ∀ ancestors w n' w',
    walkBelow (learnCallback patterns) ancestors n w = Returns (n', w') →
    marksOnlyMatched patterns (acceptedBelow ancestors n) (walkerPage w) (walkerPage w').
Proof.
  induction n as [id textContent|id tag a children IH] using node_induction;
    intros ancestors w n' w'; cbn [walkBelow].
  - intros [= _ <-] j Hj. by left.
  - intros Hw. cbn [acceptedBelow].
    apply (walkChildren_processed patterns ((tag, a) :: ancestors) _ children) in Hw; [done|].
    eapply Forall_impl; [exact IH|]. intros c Hc w0 c' w0'. apply Hc.
Qed.

Lemma learnCallback_marks patterns parentNode textNode originalText st parent' st' :
  learnCallback patterns parentNode textNode originalText st = Returns (Some parent', st') →
  textNode ∈ processedNodes st' ∧ (textNode ∉ processedNodes st) ∧
  hasMatches patterns originalText = true.
Proof.
  unfold learnCallback. case_bool_decide as Hp; [done|].
  destruct (hasMatches patterns originalText); cbn [negb]; [|done].
  destruct (replaceTextNode _ _ _ _ _) as [[p st1]| |]; [|done..].
  intros [= _ <-]. split_and!; [|done..]. cbn. by apply elem_of_union_l, elem_of_singleton.
Qed.

Lemma learnCallback_grows patterns parentNode textNode originalText st r st' :
  learnCallback patterns parentNode textNode originalText st = Returns (r, st') →
  processedNodes st ⊆ processedNodes st' ∧
  (hasMatches patterns originalText = true → textNode ∈ processedNodes st').
Proof.
  unfold learnCallback. case_bool_decide as Hp; [by intros [= _ <-]|].
  destruct (hasMatches patterns originalText); cbn [negb]; [|by intros [= _ <-]].
  unfold replaceTextNode. destruct (buildFragment _ _ _ _) as [frag| |]; [|done..].
  destruct (replaceInParent _ _ _ _) as [[p st1]| |] eqn:E; [|done..].
  apply replaceInParent_processed in E. intros [= _ <-]. cbn. rewrite E. split.
  - apply union_subseteq_r.
  - intros _. by apply elem_of_union_l, elem_of_singleton.
Qed.

Lemma marksAllMatched_refl patterns w : marksAllMatched patterns [] w w.
Proof.
  split; [done|]. intros _ Ha. split; [done|]. intros j t Hj. by apply elem_of_nil in Hj.
Qed.

Lemma marksAllMatched_app patterns found1 found2 w w1 w2 :
  marksAllMatched patterns found1 w w1 → marksAllMatched patterns found2 w1 w2 →
  marksAllMatched patterns (found1 ++ found2) w w2.
Proof.
  intros [Hs1 H1] [Hs2 H2]. split; [by etrans|]. intros Hres Ha.
  destruct (H1 Hres Ha) as [Ha1 Hm1]. destruct (H2 Hres Ha1) as [Ha2 Hm2].
  split; [done|]. intros j t [Hj|Hj]%elem_of_app Hm.
  - apply Hs2. by eapply Hm1.
  - by eapply Hm2.
Qed.

Lemma walkChildren_marks patterns ancestors below todo :
  Forall (fun c => ∀ w c' w', below c w = Returns (c', w') →
            marksAllMatched patterns (acceptedBelow ancestors c) w w') todo →
  ∀ current w n' w',
    walkChildren below (learnCallback patterns) ancestors todo (Returns (current, w))
      = Returns (n', w') →
    marksAllMatched patterns (acceptedChildren ancestors todo) w w'.
Proof.
  induction 1 as [|c todo Hc _ IH]; intros current w n' w'; cbn [walkChildren].
  { intros [= _ <-]. apply marksAllMatched_refl. }
  destruct (walkerAlive w) eqn:Ealive.
  2:{ intros [= _ <-]. split; [done|]. intros _ Ha. congruence. }
  assert (Hstep : ∀ current1 w1,
    marksAllMatched patterns
      (match c with
       | TextNode id textContent =>
           if acceptNode ancestors textContent then [(id, textContent)] else []
       | ElementNode _ _ _ _ => acceptedBelow ancestors c
       end) w w1 →
    walkChildren below (learnCallback patterns) ancestors todo (Returns (current1, w1))
      = Returns (n', w') →
    marksAllMatched patterns (acceptedChildren ancestors (c :: todo)) w w').
  { intros current1 w1 H1 Hrest. unfold acceptedChildren. cbn [flat_map].
    eapply marksAllMatched_app; [exact H1|]. by eapply IH. }
  destruct c as [id textContent|id tag a children].
  - unfold visitText. destruct (acceptNode ancestors textContent) eqn:Eacc.
    + destruct (learnCallback patterns (Some current) id textContent (walkerPage w))
        as [[[parent'|] st1]| |] eqn:Ecb.
      * apply Hstep. destruct (learnCallback_grows _ _ _ _ _ _ _ Ecb) as [Hs Hm].
        split; [done|]. intros Hres _. cbn [walkerAlive walkerPage]. split; [done|].
        intros j t Hj%list_elem_of_singleton Ht. injection Hj as -> ->. by apply Hm.
      * apply Hstep. destruct (learnCallback_grows _ _ _ _ _ _ _ Ecb) as [Hs Hm].
        split; [done|]. intros Hres _. cbn [walkerAlive walkerPage]. split; [done|].
        intros j t Hj%list_elem_of_singleton Ht. injection Hj as -> ->. by apply Hm.
      * by rewrite walkChildren_Throws.
      * by rewrite walkChildren_Diverges.
    + apply Hstep. apply marksAllMatched_refl.
  - destruct (below (ElementNode id tag a children) w) as [[c' w1]| |] eqn:Eb; [|done..].
    apply Hstep. by eapply Hc.
Qed.

Lemma walkBelow_marks patterns n :
  ∀ ancestors w n' w',
    walkBelow (learnCallback patterns) ancestors n w = Returns (n', w') →
    marksAllMatched patterns (acceptedBelow ancestors n) w w'.
Proof.
  induction n as [id textContent|id tag a children IH] using node_induction;
    intros ancestors w n' w'; cbn [walkBelow].
  - intros [= _ <-]. apply marksAllMatched_refl.
  - intros Hw. cbn [acceptedBelow].
    apply (walkChildren_marks patterns ((tag, a) :: ancestors) _ children) in Hw; [done|].
    eapply Forall_impl; [exact IH|]. intros c Hc w0 c' w0'. apply Hc.
Qed.

(** C4 (amended). The callback of a scan returns a text node without a
    match as it is, parent and page state unchanged, so the node is not
    marked and the next scan tests it again; a text node that the
    callback rewrites had a match, was not marked before and is marked
    after, and a marked node is returned as it is. After a completed scan of a subtree in learn mode the
    processed set holds all it held before; a text node is in it only
    if it was there before or it is an accepted text node of the
    subtree whose text matched a pattern; and when auto-translate is on
    and the walker keeps its place after a replacement, every accepted
    text node of the subtree whose text matched a pattern is in it. *)
Theorem scan_marks_only_rewritten_nodes root rootAncestors st root' st' :
  processSubtree root rootAncestors Learn st = Returns (root', st') →
  (∀ patterns parentNode textNode originalText page,
     hasMatches patterns originalText = false →
     learnCallback patterns parentNode textNode originalText page = Returns (None, page)) ∧
  (∀ patterns parentNode textNode originalText page parent' page',
     learnCallback patterns parentNode textNode originalText page
       = Returns (Some parent', page') →
     textNode ∈ processedNodes page' ∧ (textNode ∉ processedNodes page) ∧
     hasMatches patterns originalText = true) ∧
  (∀ patterns parentNode textNode originalText page,
     textNode ∈ processedNodes page →
     learnCallback patterns parentNode textNode originalText page = Returns (None, page)) ∧
  (∀ j, j ∈ processedNodes st' →
     j ∈ processedNodes st ∨
     ∃ textContent,
       (j, textContent) ∈ acceptedBelow rootAncestors root ∧
       hasMatches (fst (getCompiledPatterns (knownWords st) (cache st))) textContent = true) ∧
  processedNodes st ⊆ processedNodes st' ∧
  (autoTranslate st = true → walkerResumes = true →
   ∀ j textContent,
     (j, textContent) ∈ acceptedBelow rootAncestors root →
     hasMatches (fst (getCompiledPatterns (knownWords st) (cache st))) textContent = true →
     j ∈ processedNodes st').
Proof.
  intros Hrun. split.
  { intros patterns parentNode textNode originalText page Hno.
    unfold learnCallback. rewrite Hno. by case_bool_decide. }
  split; [intros *; apply learnCallback_marks|].
  split.
  { intros patterns parentNode textNode originalText page Hin.
    unfold learnCallback. by rewrite bool_decide_eq_true_2. }
  revert Hrun. unfold processSubtree. destruct (autoTranslate st); cbn [negb].
  2:{ intros [= _ <-]. split_and!; [auto|done|done]. }
  destruct (getCompiledPatterns (knownWords st) (cache st)) as [patterns cache'].
  cbn [fst]. destruct (length patterns =? 0) eqn:Elen.
  { intros [= _ <-]. split_and!; [auto|done|]. intros _ _ j t _.
    apply Nat.eqb_eq, nil_length_inv in Elen. by rewrite Elen. }
  unfold walkTextNodes.
  destruct (walkBelow _ _ _ _) as [[r w]| |] eqn:E; [|done..].
  intros [= _ <-]. pose proof (walkBelow_marks _ _ _ _ _ _ E) as [Hs Hall].
  apply walkBelow_processed in E. split_and!; [exact E|exact Hs|].
  intros _ Hres. by destruct (Hall Hres eq_refl).
Qed.

(** ** Generated units under the observer *)

Lemma skipsText_translated tag k v a :
  hasAttribute a (js "data-translated") = true → skipsText (tag, (k, v) :: a) = true.
Proof.
  intros Ha. unfold skipsText.
  change SKIP_ATTRIBUTES with [js "data-translated"; js "contenteditable"].
  cbn [existsb snd].
  change (hasAttribute ((k, v) :: a) (js "data-translated"))
    with (bool_decide (k = js "data-translated") || hasAttribute a (js "data-translated")).
  rewrite Ha. by rewrite !orb_true_r.
Qed.

Lemma attachNode_generated next c :
  marksTranslated c → generatedNode (fst (attachNode next c)).
Proof.
  destruct c as [data|className content a]; cbn [marksTranslated]; [done|].
  intros Ha. cbn [attachNode fst generatedNode]. split.
  - by apply skipsText_translated.
  - case_bool_decide; by repeat constructor.
Qed.

Lemma attachAll_generated next frag :
  Forall marksTranslated frag → Forall generatedNode (fst (attachAll next frag)).
Proof.
  intros H. revert next. induction H as [|c frag Hc _ IH]; intros next; cbn; [constructor|].
  pose proof (attachNode_generated next c Hc) as Hn.
  destruct (attachNode next c) as [n next']. specialize (IH next').
  destruct (attachAll next' frag) as [ns next'']. by constructor.
Qed.

Lemma walkChildren_skipped below f ancestors todo current w :
  existsb skipsText ancestors = true →
  Forall (fun c => isElement c = false) todo →
  walkChildren below f ancestors todo (Returns (current, w)) = Returns (current, w).
Proof.
  intros Hskip. induction 1 as [|c todo Hc _ IH]; cbn [walkChildren]; [done|].
  destruct (walkerAlive w); [|done].
  destruct c as [id textContent|]; [|done].
  unfold visitText, acceptNode. rewrite Hskip.
  destruct (trimIsEmpty textContent); exact IH.
Qed.

Lemma processSubtree_generated root chain mode st :
  isElement root = true → generatedNode root →
  ∃ cache', processSubtree root chain mode st = Returns (root, withCache st cache').
Proof.
  intros He Hg.
  assert (Hsame : ∃ cache', Returns (root, st) = Returns (root, withCache st cache')).
  { exists (cache st). by destruct st. }
  unfold processSubtree. destruct (autoTranslate st); cbn [negb]; [|done].
  destruct mode; [|done].
  destruct (getCompiledPatterns (knownWords st) (cache st)) as [patterns cache'].
  exists cache'. destruct (length patterns =? 0); [done|].
  destruct root as [|id tag a children]; [done|]. destruct Hg as [Hskip Hchildren].
  unfold walkTextNodes. cbn [walkBelow].
  rewrite walkChildren_skipped; [done| |done].
  cbn [existsb]. by rewrite Hskip.
Qed.

Lemma collectRoots_from (processed : gset nat) chain nodes roots r :
  r ∈ fold_left (fun roots n =>
                   if isElement n && negb (bool_decide (nodeId n ∈ processed))
                   then addRoot roots (n, chain) else roots) nodes roots →
  r ∈ roots ∨ (fst r ∈ nodes ∧ isElement (fst r) = true).
Proof.
  revert roots. induction nodes as [|n nodes IH]; intros roots; cbn [fold_left]; [by left|].
  intros [Hr|[Hr ?]]%IH; [|right; split; [by right|done]].
  destruct (isElement n) eqn:En; cbn [andb] in Hr; [|by left].
  destruct (negb _); [|by left].
  unfold addRoot in Hr.
  match type of Hr with context [existsb ?g roots] => destruct (existsb g roots) end;
    [by left|].
  apply elem_of_app in Hr as [?|Hr%list_elem_of_singleton]; [by left|].
  subst r. right. split; [left|done].
Qed.

(** C5. For every fragment that [replaceTextNode] builds and attaches,
    every root that the observer captures from the resulting child-list
    record is a generated span, never a text run; processing such a root,
    in either mode, returns it as it is and leaves the page state as it
    was up to the pattern cache: no node is replaced, none is marked. *)
Theorem generated_units_not_reprocessed
    fcl kw originalText patterns frag next chain observed mode st r :
  buildFragment fcl kw originalText patterns = Returns frag →
  r ∈ mutatedRootsOf observed [mkMutation childList chain (fst (attachAll next frag))] →
  isElement (fst r) = true ∧
  acceptedBelow (snd r) (fst r) = [] ∧
  ∃ cache', processSubtree (fst r) (snd r) mode st = Returns (fst r, withCache st cache').
Proof.
  intros Hfrag Hr. apply buildFragment_marks in Hfrag.
  apply (attachAll_generated next) in Hfrag.
  unfold mutatedRootsOf in Hr. cbn [fold_left collectRoots mutationKind addedNodes targetChain] in Hr.
  apply collectRoots_from in Hr as [Hr|[Hin He]]; [by apply elem_of_nil in Hr|].
  rewrite Forall_forall in Hfrag. specialize (Hfrag _ Hin).
  split; [done|]. split; [|by apply processSubtree_generated].
  destruct (fst r) as [|id tag a children]; [done|]. destruct Hfrag as [Hskip Hchildren].
  cbn [acceptedBelow]. clear Hin He.
  induction Hchildren as [|c cs Hc _ IH]; [done|].
  cbn [flat_map]. rewrite IH. destruct c as [cid t|]; [|done].
  unfold acceptNode. cbn [existsb]. rewrite Hskip. cbn. by destruct (trimIsEmpty t).
Qed.

(** ** What a match of each kind of pattern is *)

Lemma execLoop_alternative fuel r s lastIdx ms :
  execLoop fuel r s lastIdx = Some ms →
  Forall (fun m => ∃ alt, alt ∈ group r ∧ alternativeAt r s (index m) alt = true ∧
                          endIndex m = index m + length (unescape alt) ∧
                          text m = slice s (index m) (endIndex m)) ms.
Proof.
  revert lastIdx ms. induction fuel as [|fuel IH]; intros lastIdx ms; cbn; [done|].
  destruct (exec r s lastIdx) as [[i e]|] eqn:E; [|by intros [= <-]].
  destruct (e =? i); [done|].
  destruct (execLoop fuel r s e) as [ms'|] eqn:El; [|done].
  intros [= <-]. constructor; [|by eapply IH].
  apply exec_Some in E as (_ & _ & _ & alt & ? & ? & ?). by exists alt.
Qed.

Lemma prefixMatch_exact lit rest :
  prefixMatch false lit rest = true → take (length lit) rest = lit.
Proof.
  revert rest. induction lit as [|c lit IH]; intros [|d rest]; cbn; try done.
  intros [Hc H]%andb_true_iff. apply N.eqb_eq in Hc as ->. by rewrite IH.
Qed.

Lemma prefixMatch_canonical lit rest :
  prefixMatch true lit rest = true →
  canonicalize <$> take (length lit) rest = canonicalize <$> lit.
Proof.
  revert rest. induction lit as [|c lit IH]; intros [|d rest]; cbn; try done.
  intros [Hc H]%andb_true_iff. apply N.eqb_eq in Hc. by rewrite IH, Hc.
Qed.

Lemma slice_plus {A} (s : list A) i n : slice s i (i + n) = take n (drop i s).
Proof. unfold slice. f_equal. lia. Qed.

(** A match of a pattern without flag [i] is, code unit for code unit,
    one of the alternatives. *)
Lemma caseSensitive_match r s ms m :
  ignoreCase r = false → execAll r s = Some ms → m ∈ ms →
  ∃ alt, alt ∈ group r ∧ text m = unescape alt.
Proof.
  intros Hic Hex Hm. apply execLoop_alternative in Hex.
  rewrite Forall_forall in Hex. destruct (Hex m Hm) as (alt & Hin & Halt & He & Ht).
  exists alt. split; [done|]. rewrite Ht, He, slice_plus.
  unfold alternativeAt in Halt. apply andb_true_iff in Halt as [Hp _].
  rewrite Hic in Hp. by apply prefixMatch_exact.
Qed.

(** A match of a pattern with flag [i] between two [\b] stands between
    word boundaries and equals an alternative up to [canonicalize]. *)
Lemma anchored_match r s ms m :
  ignoreCase r = true → wordBoundary r = true → execAll r s = Some ms → m ∈ ms →
  isBoundary s (index m) = true ∧ isBoundary s (endIndex m) = true ∧
  ∃ alt, alt ∈ group r ∧ canonicalize <$> text m = canonicalize <$> unescape alt.
Proof.
  intros Hic Hwb Hex Hm. apply execLoop_alternative in Hex.
  rewrite Forall_forall in Hex. destruct (Hex m Hm) as (alt & Hin & Halt & He & Ht).
  unfold alternativeAt in Halt. rewrite Hic, Hwb in Halt. cbn [negb orb] in Halt.
  apply andb_true_iff in Halt as [Hp [Hb1 Hb2]%andb_true_iff].
  split; [done|]. split; [by rewrite He|].
  exists alt. split; [done|]. rewrite Ht, He, slice_plus. by apply prefixMatch_canonical.
Qed.

Lemma compileChunks_elem fuel escapedWords i p :
  p ∈ compileChunks fuel escapedWords i →
  wordBoundary p = true ∧ ignoreCase p = true ∧ group p ⊆ escapedWords.
Proof.
  revert i. induction fuel as [|fuel IH]; intros i; cbn [compileChunks].
  { intros H. by apply elem_of_nil in H. }
  destruct (i <? length escapedWords); [|intros H; by apply elem_of_nil in H].
  intros [->|H]%elem_of_cons; [|by eapply IH].
  cbn. repeat split. apply sublist_subseteq. unfold slice.
  etrans; [apply sublist_take|apply sublist_drop].
Qed.

(** Learn mode: every pattern compiled from the vocabulary has flag [i]
    and both [\b], and a match of it is a key up to [canonicalize],
    between word boundaries. *)
Lemma learn_match kw p s ms m :
  p ∈ fst (getCompiledPatterns kw (mkCache None None)) →
  execAll p s = Some ms → m ∈ ms →
  ignoreCase p = true ∧ wordBoundary p = true ∧
  isBoundary s (index m) = true ∧ isBoundary s (endIndex m) = true ∧
  ∃ key, key ∈ keys kw ∧ canonicalize <$> text m = canonicalize <$> key.
Proof.
  cbn [getCompiledPatterns cachedPatterns fst].
  intros (Hwb & Hic & Hsub)%compileChunks_elem Hex Hm.
  destruct (anchored_match p s ms m Hic Hwb Hex Hm) as (? & ? & alt & Halt & Hc).
  repeat split; [done..|].
  apply Hsub, list_elem_of_fmap in Halt as (key & -> & Hkey).
  rewrite unescape_escapeRegex in Hc. exists key. split; [|done].
  unfold sortStrings in Hkey. by rewrite merge_sort_Permutation in Hkey.
Qed.

(** Practice mode: the pattern has neither flag [i] nor [\b], and a
    match of it is a translation, code unit for code unit, wherever it
    stands. *)
Lemma practice_match kw s ms m :
  execAll (practicePattern kw) s = Some ms → m ∈ ms →
  ∃ entry, entry ∈ kw ∧ text m = translation (snd entry).
Proof.
  intros Hex Hm.
  destruct (caseSensitive_match (practicePattern kw) s ms m eq_refl Hex Hm)
    as (alt & Halt & Ht).
  cbn [practicePattern group] in Halt.
  apply list_elem_of_fmap in Halt as (w & -> & Hw).
  apply list_elem_of_fmap in Hw as (entry & -> & Hentry).
  exists entry. split; [done|]. by rewrite Ht, unescape_escapeRegex.
Qed.

(** ** The compound lookup *)

(** The three-word concatenation is tried first. *)
Lemma findCompound_prefers_three words i :
  i + 2 < length words →
  truthy (compoundValue (join [] (toJoinString <$> slice words i (i + 3)))) = true →
  findCompound words i 2 =
  Some (mkCompound (join [] (toJoinString <$> slice words i (i + 3)))
                   (compoundValue (join [] (toJoinString <$> slice words i (i + 3)))) 3).
Proof.
  intros Hlen Ht. unfold findCompound. cbn [findCompoundLoop].
  apply Nat.ltb_lt in Hlen. rewrite Hlen.
  replace (i + 2 + 1) with (i + 3) by lia.
  change (map toJoinString) with (fmap (M:=list) toJoinString). by rewrite Ht.
Qed.

(** No concatenation that is a property of the dictionary object, own
    or inherited: no compound. *)
Lemma findCompound_none words i :
  (∀ len, 1 ≤ len ≤ 2 →
     compoundValue (join [] (toJoinString <$> slice words i (i + len + 1))) = Undefined) →
  findCompound words i 2 = None.
Proof.
  intros H. unfold findCompound. cbn [findCompoundLoop].
  change (map toJoinString) with (fmap (M:=list) toJoinString).
  rewrite (H 2), (H 1) by lia. cbn [truthy]. by repeat destruct (_ <? _).
Qed.

(** ** The debounce timer *)

(** A batch with at least one root replaces the pending timer: the roots
    the cleared timer had captured are in no set any more. *)
Lemma observerCallback_replaces_pending st pending mutations :
  mutatedRootsOf st mutations ≠ [] →
  observerCallback st pending mutations = Some (mutatedRootsOf st mutations).
Proof.
  unfold observerCallback, mutatedRootsOf. intros Hne.
  destruct (fold_left _ mutations []) as [|r roots]; [done|]. done.
Qed.

(** A batch without roots leaves the pending timer as it is. *)
Lemma observerCallback_keeps_pending st pending mutations :
  mutatedRootsOf st mutations = [] →
  observerCallback st pending mutations = pending.
Proof. unfold observerCallback, mutatedRootsOf. by intros ->. Qed.

(** In practice mode [processSubtree] does nothing. *)
Lemma processSubtree_practice root chain st :
  processSubtree root chain Practice st = Returns (root, st).
Proof. unfold processSubtree. by destruct (autoTranslate st). Qed.

(** ** Literal matching of escaped words *)

Lemma prefixMatch_refl w rest : prefixMatch false w (w ++ rest) = true.
Proof. induction w as [|c w IH]; cbn; [done|]. by rewrite N.eqb_refl, IH. Qed.

Lemma scanFrom_first r s p n e :
  matchAt r s p = Some e → scanFrom r s p (S n) = Some (p, e).
Proof. intros H. cbn. by rewrite H. Qed.


(** ** The early exit and the full scan *)

Lemma execAll_nil r s ms :
  execAll r s = Some ms → (ms = [] ↔ test r s = false).
Proof.
  unfold execAll, test. cbn [execLoop].
  destruct (exec r s 0) as [[i e]|]; [|intros [= <-]; done].
  destruct (e =? i); [done|]. destruct (execLoop _ _ _ _); [|done].
  intros [= <-]. done.
Qed.

Lemma collectMatches_nil s patterns ms :
  collectMatches s patterns = Some ms → (ms = [] ↔ hasMatches patterns s = false).
Proof.
  revert ms. induction patterns as [|p ps IH]; intros ms; cbn [collectMatches].
  { intros [= <-]. done. }
  destruct (execAll p s) as [a|] eqn:Ea; [|done].
  destruct (collectMatches s ps) as [b|]; [|done].
  intros [= <-]. unfold hasMatches in *. cbn [existsb].
  rewrite orb_false_iff, <- (IH b eq_refl), <- (execAll_nil _ _ _ Ea).
  split; [by intros [-> ->]%app_eq_nil|by intros [-> ->]].
Qed.

Lemma collectMatches_none_found s patterns :
  hasMatches patterns s = false → collectMatches s patterns = Some [].
Proof.
  induction patterns as [|p ps IH]; [done|]. unfold hasMatches. cbn [existsb collectMatches].
  intros [Hp Hps]%orb_false_iff. rewrite (IH Hps).
  unfold test in Hp. unfold execAll. cbn [execLoop].
  by destruct (exec p s 0) as [[i e]|].
Qed.

Lemma uniqueMatchesOf_nil ms : uniqueMatchesOf (sortByIndex ms) = [] ↔ ms = [].
Proof.
  rewrite uniqueMatchesOf_eq. split; [|by intros ->].
  destruct (sortByIndex ms) as [|x l] eqn:E; [|done].
  intros _. apply Permutation_nil. by rewrite <- E, sortByIndex_Permutation.
Qed.

(** X2. The test that lets a scan leave a node alone and the scan that
    rewrites it agree. When no pattern matches the text the full scan
    returns, with no span, and the fragment it would build is the text
    in one run; whenever the full scan returns, its list of spans is
    empty exactly when the test says that nothing matches. *)
Theorem early_exit_agrees_with_scan fcl kw originalText patterns :
  (hasMatches patterns originalText = false →
   resolveMatches originalText patterns = Some [] ∧
   buildFragment fcl kw originalText patterns
   = Returns (if 0 <? length originalText then [NewText originalText] else [])) ∧
  (∀ um, resolveMatches originalText patterns = Some um →
         (um = [] ↔ hasMatches patterns originalText = false)).
Proof.
  split.
  - intros Hno. assert (Hres : resolveMatches originalText patterns = Some []).
    { unfold resolveMatches. by rewrite (collectMatches_none_found _ _ Hno). }
    split; [done|]. unfold buildFragment. rewrite Hres. unfold fragmentOf.
    cbn [length]. rewrite andb_false_r. cbn [fold_left]. unfold appendRemaining.
    cbn [lastIndex emptyBuilder fragment]. unfold sliceFrom. by rewrite drop_0.
  - intros um. unfold resolveMatches.
    destruct (collectMatches originalText patterns) as [ms|] eqn:E; [|done].
    intros [= <-]. by rewrite uniqueMatchesOf_nil, (collectMatches_nil _ _ _ E).
Qed.

(** ** An empty key *)

Lemma sortStrings_head_nil l : [] ∈ l → ∃ rest, sortStrings l = [] :: rest.
Proof.
  intros Hin. unfold sortStrings.
  pose proof (StronglySorted_merge_sort lexLe l) as Hs.
  pose proof (merge_sort_Permutation lexLe l) as Hp.
  destruct (merge_sort lexLe l) as [|x rest].
  { rewrite <- Hp in Hin. by apply elem_of_nil in Hin. }
  rewrite <- Hp in Hin. apply StronglySorted_cons in Hs as [Hx _].
  apply elem_of_cons in Hin as [<-|Hin]; [by eexists|].
  rewrite Forall_forall in Hx. specialize (Hx _ Hin). unfold lexLe in Hx.
  destruct x; [by eexists|done].
Qed.

Lemma tryAlternatives_no_boundary r s p alts :
  wordBoundary r = true → isBoundary s p = false → tryAlternatives r s p alts = None.
Proof.
  intros Hwb Hb. induction alts as [|alt alts IH]; cbn [tryAlternatives]; [done|].
  unfold alternativeAt. rewrite Hwb, Hb. cbn [negb orb andb]. by rewrite andb_false_r.
Qed.

(** With an empty first alternative between two [\b], the pattern
    matches exactly at the word boundaries, and every match is empty. *)
Lemma matchAt_empty_first r s p alts :
  wordBoundary r = true → group r = [] :: alts →
  matchAt r s p = if isBoundary s p then Some p else None.
Proof.
  intros Hwb Hg. unfold matchAt. rewrite Hg.
  destruct (isBoundary s p) eqn:Hb; [|by apply tryAlternatives_no_boundary].
  cbn [tryAlternatives]. unfold alternativeAt. rewrite Hwb. cbn [unescape prefixMatch length].
  rewrite Nat.add_0_r, Hb. done.
Qed.

Lemma scanFrom_finds r s p0 n p e :
  p0 ≤ p → p < p0 + n → matchAt r s p = Some e →
  ∃ i e', scanFrom r s p0 n = Some (i, e').
Proof.
  revert p0. induction n as [|n IH]; intros p0 Hle Hlt Hm; [lia|]. cbn [scanFrom].
  destruct (matchAt r s p0) as [e0|] eqn:E0; [by eexists _, _|].
  apply IH; [|lia|done]. destruct (decide (p = p0)) as [->|]; [congruence|lia].
Qed.

Lemma execAll_empty_first r s alts p :
  wordBoundary r = true → group r = [] :: alts →
  p ≤ length s → isBoundary s p = true →
  execAll r s = None ∧ test r s = true.
Proof.
  intros Hwb Hg Hp Hb.
  assert (Hm : matchAt r s p = Some p) by (by rewrite (matchAt_empty_first r s p alts), Hb).
  destruct (scanFrom_finds r s 0 (S (length s)) p p) as (i & e & Hscan); [lia..|done|].
  assert (He : e = i).
  { apply scanFrom_Some in Hscan as (_ & _ & Hi).
    rewrite (matchAt_empty_first r s i alts) in Hi by done.
    destruct (isBoundary s i); congruence. }
  subst e. unfold execAll, test, exec. cbn [execLoop]. unfold exec.
  rewrite Nat.sub_0_r, Hscan, Nat.eqb_refl. done.
Qed.

Lemma word_char_boundary s c :
  c ∈ s → isWordChar c = true → ∃ p, p ≤ length s ∧ isBoundary s p = true.
Proof.
  induction s as [|d s IH]; intros Hin Hc.
  { by apply elem_of_nil in Hin. }
  destruct (isWordChar d) eqn:Hd.
  { exists 0. split; [lia|]. unfold isBoundary, wordAt. cbn. by rewrite Hd. }
  apply elem_of_cons in Hin as [->|Hin]; [congruence|].
  destruct (IH Hin Hc) as (p & Hp & Hb). exists (S p). split; [cbn; lia|].
  unfold isBoundary, wordAt in *. destruct p as [|p]; cbn in *; [by rewrite Hd|done].
Qed.

Lemma patternsOf_empty_key kw :
  [] ∈ keys kw →
  ∃ alts rest, patternsOf kw = mkRegExp true ([] :: alts) true :: rest.
Proof.
  intros Hin. unfold patternsOf, freshCache.
  cbn [getCompiledPatterns cachedPatterns fst].
  destruct (sortStrings_head_nil _ Hin) as [rest ->].
  cbn [map length compileChunks]. change (0 <? S (length (map escapeRegex rest))) with true.
  cbv iota. unfold slice at 1. by eexists _, _.
Qed.

(** X3. A vocabulary with the empty string among its keys hangs the
    rewrite: on every text with a word character the early test finds a
    match, and then neither [replaceTextNode] nor the callback of a scan
    on a node not yet processed returns. *)
Theorem empty_key_hangs_rewrite kw parentNode textNode originalText st :
  [] ∈ keys kw →
  (∃ c, c ∈ originalText ∧ isWordChar c = true) →
  hasMatches (patternsOf kw) originalText = true ∧
  replaceTextNode parentNode textNode originalText (patternsOf kw) st = Diverges ∧
  (textNode ∉ processedNodes st →
   learnCallback (patternsOf kw) parentNode textNode originalText st = Diverges).
Proof.
  intros Hkey (c & Hc & Hw).
  destruct (word_char_boundary _ _ Hc Hw) as (p & Hp & Hb).
  destruct (patternsOf_empty_key kw Hkey) as (alts & rest & ->).
  destruct (execAll_empty_first (mkRegExp true ([] :: alts) true) originalText alts p
              eq_refl eq_refl Hp Hb) as [Hnone Htest].
  assert (Hhas : hasMatches (mkRegExp true ([] :: alts) true :: rest) originalText = true).
  { unfold hasMatches. cbn [existsb]. by rewrite Htest. }
  assert (Hrep : replaceTextNode parentNode textNode originalText
                   (mkRegExp true ([] :: alts) true :: rest) st = Diverges).
  { unfold replaceTextNode, buildFragment, resolveMatches. cbn [collectMatches].
    by rewrite Hnone. }
  split; [done|]. split; [done|].
  intros Hnot. unfold learnCallback. rewrite bool_decide_false by done.
  by rewrite Hhas, Hrep.
Qed.

(** ** The text of a fragment *)

Lemma take_slice {A} (l : list A) a b : a ≤ b → take a l ++ slice l a b = take b l.
Proof.
  intros H. unfold slice. rewrite take_take_drop. f_equal. lia.
Qed.

Lemma execLoop_sorted fuel r s lastIdx ms :
  execLoop fuel r s lastIdx = Some ms → StronglySorted before ms.
Proof.
  revert lastIdx ms. induction fuel as [|fuel IH]; intros lastIdx ms; cbn; [done|].
  destruct (exec r s lastIdx) as [[i e]|] eqn:E; [|intros [= <-]; constructor].
  destruct (e =? i) eqn:Eei; [done|].
  destruct (execLoop fuel r s e) as [ms'|] eqn:El; [|done].
  intros [= <-]. apply Nat.eqb_neq in Eei. apply exec_Some in E as (? & ? & ? & _).
  constructor; [by eapply IH|].
  apply execLoop_inText in El. eapply Forall_impl; [exact El|].
  unfold before. cbn. intros m [[? _] ?]. lia.
Qed.

Lemma fragmentText_app a b : fragmentText (a ++ b) = fragmentText a ++ fragmentText b.
Proof. unfold fragmentText. apply flat_map_app. Qed.

Lemma fragmentText_before originalText frag last s :
  last ≤ s → fragmentText frag = take last originalText →
  fragmentText (appendTextBefore originalText frag last s) = take s originalText.
Proof.
  intros Hle Hf. unfold appendTextBefore. destruct (Nat.ltb_spec last s).
  - rewrite fragmentText_app, Hf. cbn. rewrite app_nil_r. by apply take_slice.
  - by replace s with last by lia.
Qed.

Lemma highlightLoop_text originalText l st :
  Forall (inText originalText) l → StronglySorted before l →
  Forall (fun m => lastIndex st ≤ index m) l →
  fragmentText (fragment st) = take (lastIndex st) originalText →
  fragmentText (fragment (fold_left (highlightStep originalText) l st))
  = take (lastIndex (fold_left (highlightStep originalText) l st)) originalText.
Proof.
  intros Hin Hs. revert st. induction Hs as [|m l Hl IH Hm]; intros st Hlast Hf; [done|].
  cbn [fold_left]. apply Forall_cons in Hin as [(Hne & Hend & Htext) Hin].
  apply Forall_cons in Hlast as [Hl1 _]. apply IH; [done|..].
  - cbn. eapply Forall_impl; [exact Hm|]. by intros ? [_ ?].
  - cbn [highlightStep fragment lastIndex].
    rewrite fragmentText_app, (fragmentText_before _ _ _ _ Hl1 Hf). cbn.
    rewrite app_nil_r, Htext. apply take_slice. lia.
Qed.

Lemma fragmentText_remaining originalText st :
  fragmentText (fragment st) = take (lastIndex st) originalText →
  fragmentText (appendRemaining originalText st) = originalText.
Proof.
  intros Hf. unfold appendRemaining. destruct (Nat.ltb_spec (lastIndex st) (length originalText)).
  - rewrite fragmentText_app, Hf. cbn. unfold sliceFrom.
    by rewrite app_nil_r, take_drop.
  - by rewrite Hf, take_ge.
Qed.

(** X4. Highlighting in practice mode changes no text: whenever
    [highlightKnownWords] has built its fragment, the text runs and the
    contents of the spans of the fragment, read in order, are the text
    of the node. *)
Theorem highlight_keeps_text originalText pattern frag :
  highlightFragment originalText pattern = Returns frag →
  fragmentText frag = originalText.
Proof.
  unfold highlightFragment. destruct (execAll pattern originalText) as [ms|] eqn:E; [|done].
  intros [= <-]. apply fragmentText_remaining, highlightLoop_text.
  - apply execLoop_inText in E. eapply Forall_impl; [exact E|]. by intros ? [? _].
  - by eapply execLoop_sorted.
  - apply Forall_forall. intros; cbn; lia.
  - done.
Qed.

(** ** Reading [data-original] back *)

Lemma restoreOriginal_app a b :
  restoreOriginal (a ++ b) = restoreOriginal a ++ restoreOriginal b.
Proof. unfold restoreOriginal. apply flat_map_app. Qed.

Lemma restoreOriginal_before originalText frag last s :
  last ≤ s → restoreOriginal frag = take last originalText →
  restoreOriginal (appendTextBefore originalText frag last s) = take s originalText.
Proof.
  intros Hle Hf. unfold appendTextBefore. destruct (Nat.ltb_spec last s).
  - rewrite restoreOriginal_app, Hf. cbn. rewrite app_nil_r. by apply take_slice.
  - by replace s with last by lia.
Qed.

Lemma isCompound_before originalText frag last s :
  existsb isCompoundSpan (appendTextBefore originalText frag last s)
  = existsb isCompoundSpan frag.
Proof.
  unfold appendTextBefore. destruct (last <? s); [|done].
  rewrite existsb_app. cbn. by rewrite !orb_false_r.
Qed.

Lemma readsBack_single originalText st cur wordData seen :
  readsBack originalText st → inText originalText cur → lastIndex st ≤ index cur →
  readsBack originalText
    (mkBuilder (appendTextBefore originalText (fragment st) (lastIndex st) (index cur)
                  ++ [singleSpan (text cur) wordData])
               (endIndex cur) seen).
Proof.
  intros Hrb (Hne & _ & Htext) Hle. unfold readsBack. cbn [fragment lastIndex].
  rewrite existsb_app, isCompound_before. intros [Hno _]%orb_false_iff.
  rewrite restoreOriginal_app, (restoreOriginal_before _ _ _ _ Hle (Hrb Hno)).
  change (restoreOriginal [singleSpan (text cur) wordData]) with (text cur ++ []).
  rewrite app_nil_r, Htext. apply take_slice. lia.
Qed.

Lemma readsBack_compound originalText frag c words last seen :
  readsBack originalText (mkBuilder (frag ++ [compoundSpan c words]) last seen).
Proof.
  unfold readsBack. cbn [fragment]. rewrite existsb_app.
  change (existsb isCompoundSpan [compoundSpan c words]) with true.
  by rewrite orb_true_r.
Qed.

Lemma compoundStep_readsBack kw originalText um st i st' :
  Forall (inText originalText) um → pendingAfter um i st → readsBack originalText st →
  compoundStep kw originalText um (Returns st) i = Returns st' →
  readsBack originalText st'.
Proof.
  intros Hin Hp Hrb. unfold compoundStep. case_bool_decide as Hi; [by intros [= <-]|].
  destruct (um !! i) as [cur|] eqn:Hcur; [|by intros [= <-]].
  assert (Hcin : inText originalText cur).
  { rewrite Forall_forall in Hin. apply Hin. by eapply list_elem_of_lookup_2. }
  assert (Hle : lastIndex st ≤ index cur) by (by eapply Hp).
  destruct (getProperty kw (toLowerCase (text cur))) as [w|name|]; [..|by intros [= <-]].
  all: destruct (if 1 <? _ then _ else _) as [c|];
    [destruct (um !! (i + compoundLength c - 1)); [|done]|];
    intros [= <-]; [apply readsBack_compound|by apply readsBack_single].
Qed.

Lemma compoundLoop_readsBack kw originalText um k i st units st' :
  Forall (inText originalText) um → StronglySorted before um →
  builderInv originalText um st units → pendingAfter um i st →
  readsBack originalText st →
  fold_left (compoundStep kw originalText um) (seq i k) (Returns st) = Returns st' →
  readsBack originalText st'.
Proof.
  intros Hin Hs. revert i st units.
  induction k as [|k IH]; intros i st units Hinv Hp Hrb; cbn [seq fold_left].
  - by intros [= <-].
  - destruct (compoundStep_inv kw originalText um st units i Hin Hs Hinv Hp)
      as (st1 & units1 & Hstep & Hinv1 & Hp1).
    rewrite Hstep. apply (IH (S i) st1 units1); [done..|].
    exact (compoundStep_readsBack kw originalText um st i st1 Hin Hp Hrb Hstep).
Qed.

Lemma simpleLoop_readsBack kw originalText l st :
  Forall (inText originalText) l → StronglySorted before l →
  Forall (fun m => lastIndex st ≤ index m) l → readsBack originalText st →
  readsBack originalText (fold_left (simpleStep kw originalText) l st).
Proof.
  intros Hin Hs. revert st.
  induction Hs as [|m l Hl IH Hm]; intros st Hlast Hrb; cbn [fold_left]; [done|].
  apply Forall_cons in Hin as [Hm1 Hin]. apply Forall_cons in Hlast as [Hl1 Hl2].
  assert (Hnext : Forall (fun m' => endIndex m ≤ index m') l).
  { eapply Forall_impl; [exact Hm|]. by intros ? [_ ?]. }
  unfold simpleStep at 2.
  destruct (getProperty kw (toLowerCase (text m))) as [w|name|];
    [apply IH; [done|done|by apply readsBack_single]..|by apply IH].
Qed.

Lemma readsBack_remaining originalText st :
  readsBack originalText st →
  existsb isCompoundSpan (appendRemaining originalText st) = false →
  restoreOriginal (appendRemaining originalText st) = originalText.
Proof.
  unfold readsBack, appendRemaining.
  destruct (Nat.ltb_spec (lastIndex st) (length originalText)).
  - rewrite existsb_app. intros Hrb [Hno _]%orb_false_iff.
    rewrite restoreOriginal_app, (Hrb Hno). cbn. unfold sliceFrom.
    by rewrite app_nil_r, take_drop.
  - intros Hrb Hno. by rewrite (Hrb Hno), take_ge.
Qed.

Lemma buildFragment_restores fcl kw originalText patterns frag :
  buildFragment fcl kw originalText patterns = Returns frag →
  existsb isCompoundSpan frag = false →
  restoreOriginal frag = originalText.
Proof.
  unfold buildFragment.
  destruct (resolveMatches originalText patterns) as [um|] eqn:Hum; [|done].
  destruct (resolveMatches_spec _ _ _ Hum) as [Hin Hs].
  assert (Hstart : readsBack originalText emptyBuilder) by (by intros _).
  unfold fragmentOf. destruct (fcl && (0 <? length um)).
  - destruct (fold_left _ _ _) as [st| |] eqn:E; [|done..].
    intros [= <-]. apply readsBack_remaining.
    eapply (compoundLoop_readsBack kw originalText um (length um) 0 emptyBuilder []);
      [done|done|apply builderInv_empty| |done|exact E].
    intros j m _ _ _. cbn. lia.
  - intros [= <-]. apply readsBack_remaining, simpleLoop_readsBack; [done..| |done].
    apply Forall_forall. intros; cbn; lia.
Qed.

(** X5. [data-original] is accurate: whenever [replaceTextNode] has
    built a fragment in which no span is a compound, replacing every
    span by its [data-original] gives back the text of the node. *)
Theorem data_original_restores_text fcl kw originalText patterns frag :
  buildFragment fcl kw originalText patterns = Returns frag →
  existsb isCompoundSpan frag = false →
  restoreOriginal frag = originalText.
Proof. apply buildFragment_restores. Qed.

(** ** The chunks of the compiled patterns *)

Lemma compileChunks_concat fuel escapedWords i :
  length escapedWords - i ≤ fuel →
  concat (map group (compileChunks fuel escapedWords i)) = drop i escapedWords.
Proof.
  revert i. induction fuel as [|fuel IH]; intros i Hfuel; cbn [compileChunks].
  { cbn. rewrite drop_ge; [done|lia]. }
  destruct (Nat.ltb_spec i (length escapedWords)); [|by rewrite drop_ge].
  cbn [map concat group]. rewrite IH by (unfold CHUNK_SIZE; lia).
  unfold slice. replace (i + CHUNK_SIZE - i) with CHUNK_SIZE by lia.
  rewrite <- (drop_drop escapedWords CHUNK_SIZE i). apply take_drop.
Qed.

Lemma compileChunks_sizes fuel escapedWords i :
  Forall (fun p => 0 < length (group p) ≤ CHUNK_SIZE) (compileChunks fuel escapedWords i).
Proof.
  revert i. induction fuel as [|fuel IH]; intros i; cbn [compileChunks]; [constructor|].
  destruct (Nat.ltb_spec i (length escapedWords)); [|constructor].
  constructor; [|apply IH]. cbn [group]. unfold slice.
  rewrite length_take, length_drop. unfold CHUNK_SIZE. lia.
Qed.

Lemma compileChunks_length fuel escapedWords i :
  length escapedWords - i ≤ fuel →
  length (compileChunks fuel escapedWords i)
  = (length escapedWords - i + (CHUNK_SIZE - 1)) / CHUNK_SIZE.
Proof.
  unfold CHUNK_SIZE. revert i.
  induction fuel as [|fuel IH]; intros i Hfuel; cbn [compileChunks].
  { replace (length escapedWords - i) with 0 by lia. done. }
  destruct (Nat.ltb_spec i (length escapedWords)).
  - cbn [length]. unfold CHUNK_SIZE. rewrite IH by lia.
    destruct (Nat.le_gt_cases 200 (length escapedWords - i)).
    + replace (length escapedWords - i + (200 - 1))
        with (length escapedWords - (i + 200) + (200 - 1) + 1 * 200) by lia.
      rewrite Nat.div_add by done. lia.
    + replace (length escapedWords - (i + 200)) with 0 by lia.
      change (S ((0 + (200 - 1)) / 200)) with 1.
      apply (Nat.div_unique _ 200 1 (length escapedWords - i - 1)); lia.
  - replace (length escapedWords - i) with 0 by lia. done.
Qed.

(** X6. The chunks partition the vocabulary: the alternatives of the
    compiled patterns, read chunk after chunk, are exactly the escaped
    keys in sorted order, no key lost or repeated; every chunk holds
    between 1 and 200 alternatives, and their number is the number of
    keys over 200, rounded up. *)
Theorem chunks_partition_sorted_keys kw :
  concat (map group (patternsOf kw)) = map escapeRegex (sortStrings (keys kw)) ∧
  Forall (fun p => 0 < length (group p) ≤ CHUNK_SIZE) (patternsOf kw) ∧
  length (patternsOf kw) = (length (keys kw) + (CHUNK_SIZE - 1)) / CHUNK_SIZE.
Proof.
  unfold patternsOf, getCompiledPatterns. cbn [cachedPatterns freshCache fst].
  split; [|split].
  - by rewrite compileChunks_concat by lia.
  - apply compileChunks_sizes.
  - rewrite compileChunks_length by lia.
    rewrite Nat.sub_0_r, length_map.
    do 2 f_equal. apply Permutation_length, merge_sort_Permutation.
Qed.

(** ** What the signature determines *)

Lemma split_at_separator (c : N) (a b ta tb : list N) :
  c ∉ a → c ∉ b →
  (ta = [] ∨ ∃ t, ta = c :: t) → (tb = [] ∨ ∃ t, tb = c :: t) →
  a ++ ta = b ++ tb → a = b ∧ ta = tb.
Proof.
  revert b. induction a as [|x a IH]; intros [|y b] Ha Hb Hta Htb; cbn.
  - done.
  - intros ->. destruct Hta as [|[t Ht]]; [done|]. injection Ht as -> _.
    exfalso. apply Hb. left.
  - intros <-. destruct Htb as [|[t Ht]]; [done|]. injection Ht as -> _.
    exfalso. apply Ha. left.
  - intros [= -> H]. destruct (IH b) as [-> ->]; [| |done..].
    + intros ?. apply Ha. by right.
    + intros ?. apply Hb. by right.
Qed.

Lemma join_tail c (p : jsstring) rest :
  join [c] (p :: rest) = p ++ (if rest is [] then [] else c :: join [c] rest).
Proof. destruct rest; cbn [join]; [by rewrite app_nil_r|done]. Qed.

Lemma join_injective c (l1 l2 : list jsstring) :
  Forall (fun k => k ≠ [] ∧ c ∉ k) l1 → Forall (fun k => k ≠ [] ∧ c ∉ k) l2 →
  join [c] l1 = join [c] l2 → l1 = l2.
Proof.
  intros H1. revert l2. induction H1 as [|a l1 [Hne Ha] H1 IH]; intros l2 H2.
  - destruct H2 as [|b l2 [Hb _] _]; [done|]. rewrite join_tail. cbn.
    by destruct b.
  - destruct H2 as [|b l2 [_ Hb] H2]. { rewrite join_tail. by destruct a. }
    rewrite !join_tail. intros E.
    apply (split_at_separator c) in E as [-> E]; [|done|done|..].
    + f_equal. destruct l1, l2; try done. injection E as E. by apply IH.
    + destruct l1; eauto.
    + destruct l2; eauto.
Qed.

(** X7. A hit in the pattern cache is a hit for the same vocabulary:
    for keys that are not empty and hold no [|], equal signatures mean
    the same keys up to order, hence the same compiled patterns. *)
Theorem equal_signature_same_keys kw1 kw2 :
  Forall (fun k => k ≠ [] ∧ noBar k) (keys kw1) →
  Forall (fun k => k ≠ [] ∧ noBar k) (keys kw2) →
  knownWordsHash kw1 = knownWordsHash kw2 →
  keys kw1 ≡ₚ keys kw2 ∧ patternsOf kw1 = patternsOf kw2.
Proof.
  intros H1 H2 Hhash.
  assert (Hs : sortStrings (keys kw1) = sortStrings (keys kw2)).
  { apply (join_injective 124%N); [| |exact Hhash].
    - eapply Permutation_Forall; [|exact H1]. symmetry. apply merge_sort_Permutation.
    - eapply Permutation_Forall; [|exact H2]. symmetry. apply merge_sort_Permutation. }
  split.
  - rewrite <- (merge_sort_Permutation lexLe (keys kw1)).
    fold (sortStrings (keys kw1)). rewrite Hs. apply merge_sort_Permutation.
  - unfold patternsOf, getCompiledPatterns. cbn [cachedPatterns freshCache fst].
    by rewrite Hs.
Qed.

(** ** Subtrees the walker skips *)

Lemma replaceChild_same c children :
  NoDup (map nodeId children) → c ∈ children →
  replaceChild [c] (nodeId c) children = children.
Proof.
  induction children as [|d cs IH]; cbn [replaceChild map]; [done|].
  intros [Hd Hcs]%NoDup_cons [->|Hc]%elem_of_cons.
  - by rewrite Nat.eqb_refl.
  - destruct (Nat.eqb_spec (nodeId d) (nodeId c)) as [E|_].
    + exfalso. apply Hd. rewrite E. apply list_elem_of_fmap. by exists c.
    + f_equal. by apply IH.
Qed.

Lemma walkChildren_unvisited below f ancestors id tag a children todo w :
  existsb skipsText ancestors = true →
  NoDup (map nodeId children) → todo ⊆ children →
  Forall (fun c => ∀ w', below c w' = Returns (c, w')) todo →
  walkChildren below f ancestors todo (Returns (ElementNode id tag a children, w))
  = Returns (ElementNode id tag a children, w).
Proof.
  intros Hskip Hnd Hsub Hall.
  induction Hall as [|c todo Hc _ IH]; cbn [walkChildren]; [done|].
  destruct (walkerAlive w); [|done].
  assert (Hin : c ∈ children) by (apply Hsub; left).
  assert (Hrest : todo ⊆ children) by (intros x Hx; apply Hsub; by right).
  destruct c as [cid textContent|cid ctag ca cchildren].
  - unfold visitText, acceptNode. rewrite Hskip.
    destruct (trimIsEmpty textContent); by apply IH.
  - rewrite Hc. cbn [setChild].
    rewrite (replaceChild_same (ElementNode cid ctag ca cchildren)) by done.
    by apply IH.
Qed.

Lemma distinctChildren_Forall children :
  fold_right (fun c rest => distinctChildren c ∧ rest) True children →
  Forall distinctChildren children.
Proof.
  induction children as [|c cs IH]; cbn [fold_right]; [constructor|].
  intros [? ?]. constructor; [done|by apply IH].
Qed.

Lemma walkBelow_unvisited f n :
  ∀ ancestors w, distinctChildren n → existsb skipsText (chainAt n ancestors) = true →
  walkBelow f ancestors n w = Returns (n, w).
Proof.
  induction n as [id textContent|id tag a children IH] using node_induction;
    intros ancestors w Hd Hskip; [done|].
  cbn [walkBelow]. destruct Hd as [Hnd Hd%distinctChildren_Forall].
  cbn [chainAt] in Hskip.
  apply walkChildren_unvisited; [done|done|done|].
  rewrite Forall_forall in IH, Hd. apply Forall_forall. intros c Hc w'.
  apply IH; [done|by apply Hd|].
  destruct c as [|cid ctag ca cc]; cbn [chainAt]; [done|].
  change (skipsText (ctag, ca) || existsb skipsText ((tag, a) :: ancestors) = true).
  rewrite Hskip. apply orb_true_r.
Qed.

Lemma acceptedBelow_skipped n :
  ∀ ancestors, existsb skipsText (chainAt n ancestors) = true →
  acceptedBelow ancestors n = [].
Proof.
  induction n as [id textContent|id tag a children IH] using node_induction;
    intros ancestors Hskip; [done|].
  cbn [acceptedBelow chainAt] in *.
  induction IH as [|c cs Hc _ IHcs]; cbn [flat_map]; [done|].
  rewrite IHcs, app_nil_r. destruct c as [cid t|cid ctag ca cc].
  - unfold acceptNode. rewrite Hskip. by destruct (trimIsEmpty t).
  - apply Hc. cbn [chainAt].
    change (skipsText (ctag, ca) || existsb skipsText ((tag, a) :: ancestors) = true).
    rewrite Hskip. apply orb_true_r.
Qed.

(** X8. Text under a skipped element is out of reach at any depth: when
    the root of a walk or an element above it has a tag of SKIP_TAGS or
    an attribute of SKIP_ATTRIBUTES, [walkTextNodes] never calls its
    callback, whatever the callback would do, and returns the subtree
    and the page state as they were; so neither translation pass
    changes anything there. *)
Theorem skipped_subtree_is_untouched root rootAncestors st :
  distinctChildren root →
  existsb skipsText (chainAt root rootAncestors) = true →
  (∀ f, walkTextNodes root rootAncestors f st = Returns (root, st)) ∧
  acceptedBelow rootAncestors root = [] ∧
  (∃ cache', translateKnownWords root rootAncestors st
             = Returns (root, withCache st cache')) ∧
  translateUnknownWords root rootAncestors st = Returns (root, st).
Proof.
  intros Hd Hskip.
  assert (Hwalk : ∀ f st0, walkTextNodes root rootAncestors f st0 = Returns (root, st0)).
  { intros f st0. unfold walkTextNodes. by rewrite walkBelow_unvisited. }
  repeat split.
  - intros f. apply Hwalk.
  - by apply acceptedBelow_skipped.
  - unfold translateKnownWords. destruct (length (keys (knownWords st)) =? 0).
    + exists (cache st). by destruct st.
    + destruct (getCompiledPatterns (knownWords st) (cache st)) as [patterns cache'].
      exists cache'. apply Hwalk.
  - unfold translateUnknownWords. destruct (length (knownWords st) =? 0); [done|].
    apply Hwalk.
Qed.

(** ** The search for known Chinese words *)

Lemma startsWith_take w rest : startsWith w rest = true ↔ take (length w) rest = w.
Proof.
  revert rest. induction w as [|c w IH]; intros [|d rest]; cbn; try done.
  rewrite andb_true_iff, N.eqb_eq, IH. split.
  - by intros [-> ->].
  - by intros [= -> ->].
Qed.

Lemma startsWith_occursAt text w i :
  i ≤ length text → startsWith w (drop i text) = true → occursAt text w i.
Proof.
  intros Hi Hs%startsWith_take. unfold occursAt, slice.
  replace (i + length w - i) with (length w) by lia. split; [|done].
  apply (f_equal length) in Hs. rewrite length_take, length_drop in Hs. lia.
Qed.

Lemma occursAt_startsWith text w i :
  occursAt text w i → startsWith w (drop i text) = true.
Proof.
  intros [_ Hs]. apply startsWith_take. unfold slice in Hs.
  by replace (i + length w - i) with (length w) in Hs by lia.
Qed.

Lemma indexOfFrom_Some w rest pos i :
  indexOfFrom w rest pos = Some i →
  pos ≤ i ∧ i - pos ≤ length rest ∧ startsWith w (drop (i - pos) rest) = true ∧
  ∀ j, j < i - pos → startsWith w (drop j rest) = false.
Proof.
  revert pos. induction rest as [|c rest IH]; intros pos; cbn [indexOfFrom].
  - destruct (startsWith w []) eqn:E; [|done]. intros [= <-].
    rewrite Nat.sub_diag. split_and!; [lia|cbn; lia|done|lia].
  - destruct (startsWith w (c :: rest)) eqn:E.
    + intros [= <-]. rewrite Nat.sub_diag. split_and!; [lia|cbn; lia|done|lia].
    + intros (Hle & Hlen & Hs & Hbefore)%IH.
      replace (i - pos) with (S (i - S pos)) by lia. cbn [drop length].
      split_and!; [lia|lia|done|].
      intros [|j] Hj; [done|]. cbn [drop]. apply Hbefore. lia.
Qed.

Lemma indexOfFrom_None w rest pos :
  indexOfFrom w rest pos = None → ∀ j, startsWith w (drop j rest) = false.
Proof.
  revert pos. induction rest as [|c rest IH]; intros pos; cbn [indexOfFrom].
  - destruct (startsWith w []) eqn:E; [done|]. intros _ j. by rewrite drop_nil.
  - destruct (startsWith w (c :: rest)) eqn:E; [done|].
    intros H [|j]; [done|]. cbn [drop]. by eapply IH.
Qed.

Lemma indexOf_Some text w startIndex i :
  indexOf text w startIndex = Some i →
  startIndex `min` length text ≤ i ≤ length text ∧
  startsWith w (drop i text) = true ∧
  ∀ j, startIndex ≤ j < i → startsWith w (drop j text) = false.
Proof.
  unfold indexOf. intros (Hle & Hlen & Hs & Hbefore)%indexOfFrom_Some.
  rewrite length_drop in Hlen. rewrite drop_drop in Hs.
  replace (startIndex `min` length text + (i - startIndex `min` length text))
    with i in Hs by lia.
  split_and!; [lia|lia|done|]. intros j Hj.
  specialize (Hbefore (j - startIndex `min` length text)).
  rewrite drop_drop in Hbefore.
  replace (startIndex `min` length text + (j - startIndex `min` length text))
    with j in Hbefore by lia.
  apply Hbefore. lia.
Qed.

Lemma indexOf_None text w startIndex :
  indexOf text w startIndex = None →
  ∀ j, startIndex ≤ j → startsWith w (drop j text) = false.
Proof.
  unfold indexOf. intros H j Hj.
  pose proof (indexOfFrom_None _ _ _ H (j - startIndex `min` length text)) as Hn.
  rewrite drop_drop in Hn.
  by replace (startIndex `min` length text + (j - startIndex `min` length text))
    with j in Hn by lia.
Qed.

Lemma indexOf_empty text startIndex :
  indexOf text [] startIndex = Some (startIndex `min` length text).
Proof. unfold indexOf. by destruct (drop _ text). Qed.

(** Sorting by length *)

Lemma insertByLength_Permutation w sorted : insertByLength w sorted ≡ₚ w :: sorted.
Proof.
  induction sorted as [|x rest IH]; cbn [insertByLength]; [done|].
  destruct (length x <=? length w); [done|]. rewrite IH. apply perm_swap.
Qed.

Lemma sortByLength_Permutation words : sortByLength words ≡ₚ words.
Proof.
  induction words as [|w rest IH]; cbn [sortByLength]; [done|].
  by rewrite insertByLength_Permutation, IH.
Qed.

Lemma insertByLength_sorted w sorted :
  StronglySorted (fun a b => length b ≤ length a) sorted →
  StronglySorted (fun a b => length b ≤ length a) (insertByLength w sorted).
Proof.
  induction 1 as [|x rest Hrest IH Hx]; cbn [insertByLength].
  { repeat constructor. }
  destruct (Nat.leb_spec (length x) (length w)).
  - constructor; [by constructor|]. constructor; [done|].
    eapply Forall_impl; [exact Hx|]. cbn. lia.
  - constructor; [done|]. rewrite insertByLength_Permutation.
    constructor; [lia|done].
Qed.

Lemma sortByLength_sorted words :
  StronglySorted (fun a b => length b ≤ length a) (sortByLength words).
Proof.
  induction words as [|w rest IH]; cbn [sortByLength]; [constructor|].
  by apply insertByLength_sorted.
Qed.

(** The binary search *)

Lemma searchOverlap_spec ms index end' :
  placed ms → ∀ fuel left right,
  (0 ≤ left)%Z → (right < Z.of_nat (length ms))%Z → (left ≤ right + 1)%Z →
  (right - left + 1 < Z.of_nat fuel)%Z →
  (∀ (j : nat) m, ms !! j = Some m → (Z.of_nat j < left)%Z → end_ m ≤ index) →
  (∀ (j : nat) m, ms !! j = Some m → (right < Z.of_nat j)%Z → end' ≤ start m) →
  ∃ b l, searchOverlap fuel ms index end' left right = Returns (b, l) ∧
         if b then ∃ m, m ∈ ms ∧ overlapsAt index end' m = true
         else insertionPoint ms index end' l.
Proof.
  intros [Hs Hse]. induction fuel as [|fuel IH]; intros left right H0 Hr Hlr Hfuel Hl Hrt.
  { lia. }
  cbn [searchOverlap]. destruct (Z.leb_spec left right) as [Hle|Hgt].
  - pose proof (Z.div_mod (left + right) 2 ltac:(done)) as Hdiv.
    pose proof (Z.mod_pos_bound (left + right) 2 ltac:(done)) as Hmod.
    set (mid := ((left + right) `div` 2)%Z) in *.
    assert (Hmid : (left ≤ mid ≤ right)%Z) by lia.
    destruct (Z.leb_spec 0 mid) as [_|?]; [|lia].
    destruct (lookup_lt_is_Some_2 ms (Z.to_nat mid)) as [m Hm]; [lia|].
    rewrite Hm. destruct (overlapsAt index end' m) eqn:Eo.
    { exists true, left. split; [done|]. exists m. split; [|done].
      by eapply list_elem_of_lookup_2. }
    assert (Hm_le : start m ≤ end_ m).
    { rewrite Forall_forall in Hse. apply Hse. by eapply list_elem_of_lookup_2. }
    destruct (Nat.leb_spec end' (start m)) as [Hend|Hend].
    + apply IH; [lia..|done|].
      intros j mj Hj Hjr. destruct (decide (j = Z.to_nat mid)) as [->|Hne].
      * by simplify_eq.
      * assert (Hap : apart m mj).
        { eapply (StronglySorted_lookup_lt apart ms (Z.to_nat mid) j); [done|lia|done..]. }
        unfold apart in Hap. lia.
    + assert (Hidx : end_ m ≤ index).
      { unfold overlapsAt in Eo. apply andb_false_iff in Eo as [Eo|Eo].
        - apply Nat.ltb_ge in Eo. lia.
        - apply Nat.ltb_ge in Eo. lia. }
      apply IH; [lia..| |done].
      intros j mj Hj Hjl. destruct (decide (j = Z.to_nat mid)) as [->|Hne].
      * by simplify_eq.
      * assert (Hap : apart mj m).
        { eapply (StronglySorted_lookup_lt apart ms j (Z.to_nat mid)); [done|lia|done..]. }
        unfold apart in Hap. lia.
  - exists false, left. split; [done|]. split_and!; [lia|lia|done|].
    intros j m Hj Hjl. apply (Hrt j m Hj). lia.
Qed.

Lemma findOverlap_spec ms index end' :
  placed ms →
  ∃ b l, findOverlap ms index end' = Returns (b, l) ∧
         if b then ∃ m, m ∈ ms ∧ overlapsAt index end' m = true
         else insertionPoint ms index end' l.
Proof.
  intros Hp. apply searchOverlap_spec; [done|lia..| |].
  - intros j m _ Hj. lia.
  - intros j m Hj%lookup_lt_Some Hlt. lia.
Qed.

Lemma insertionPoint_no_overlap ms index end' l :
  insertionPoint ms index end' l → existsb (overlapsAt index end') ms = false.
Proof.
  intros (_ & Hbefore & Hafter). apply not_true_is_false. intros H.
  apply existsb_exists in H as (m & Hin & Ho).
  apply list_elem_of_In, list_elem_of_lookup_1 in Hin as [j Hj].
  unfold overlapsAt in Ho. apply andb_true_iff in Ho as [H1%Nat.ltb_lt H2%Nat.ltb_lt].
  destruct (Z.lt_ge_cases (Z.of_nat j) l) as [Hlt|Hge].
  - specialize (Hbefore j m Hj Hlt). lia.
  - specialize (Hafter j m Hj ltac:(lia)). lia.
Qed.

Lemma splice_placed ms index end' l :
  placed ms → index ≤ end' → insertionPoint ms index end' l → ∀ w,
  placed (splice ms (Z.to_nat l) (mkChineseMatch index end' w)).
Proof.
  intros [Hs Hse] Hie (Hl & Hbefore & Hafter) w. unfold splice.
  rewrite <- (take_drop (Z.to_nat l) ms) in Hs, Hse.
  apply StronglySorted_app in Hs as (Hcross & Hs1 & Hs2).
  apply Forall_app in Hse as [Hse1 Hse2].
  assert (Hd : Forall (apart (mkChineseMatch index end' w)) (drop (Z.to_nat l) ms)).
  { apply Forall_forall. intros m [j Hj]%list_elem_of_lookup_1.
    rewrite lookup_drop in Hj. unfold apart. cbn.
    apply (Hafter _ _ Hj). lia. }
  split.
  - apply StronglySorted_app_2; [|done|by constructor].
    intros x1 x2 [j Hj]%list_elem_of_lookup_1 [->|Hx2]%elem_of_cons.
    + apply lookup_take_Some in Hj as [Hj Hjl]. unfold apart. cbn.
      apply (Hbefore _ _ Hj). lia.
    + apply Hcross; [by eapply list_elem_of_lookup_2|done].
  - apply Forall_app. split; [done|]. by constructor.
Qed.

Lemma elem_of_splice ms l m x : x ∈ splice ms l m ↔ x = m ∨ x ∈ ms.
Proof.
  unfold splice. rewrite elem_of_app, elem_of_cons.
  rewrite <- (take_drop l ms) at 3. rewrite elem_of_app. tauto.
Qed.

Lemma addIfFree_placed ms index w :
  placed ms → ∃ ms', addIfFree ms index w = Returns ms' ∧ placed ms'.
Proof.
  intros Hp. unfold addIfFree.
  destruct (findOverlap_spec ms index (index + length w) Hp) as (b & l & -> & Hb).
  destruct b; [by exists ms|]. eexists. split; [done|].
  apply splice_placed; [done|lia|done].
Qed.

Lemma genuine_placed words text ms :
  StronglySorted apart ms → Forall (genuine words text) ms → placed ms.
Proof.
  intros Hs Hg. split; [done|]. eapply Forall_impl; [exact Hg|].
  intros m (_ & He & _). lia.
Qed.

(** What one word's loop leaves behind. *)
Lemma occurrences_spec words text w :
  w ≠ [] → w ∈ words → ∀ fuel startIndex ms,
  length text + 1 - startIndex < fuel →
  StronglySorted apart ms → Forall (genuine words text) ms →
  Forall (fun m => length w ≤ length (word m)) ms →
  ∃ ms', occurrences fuel text w startIndex ms = Returns ms' ∧
         StronglySorted apart ms' ∧ Forall (genuine words text) ms' ∧
         Forall (fun m => length w ≤ length (word m)) ms' ∧
         ms ⊆ ms' ∧
         ∀ i, startIndex ≤ i → occursAt text w i →
              ∃ m, m ∈ ms' ∧ overlapsAt i (i + length w) m = true.
Proof.
  intros Hne Hw. induction fuel as [|fuel IH]; intros startIndex ms Hfuel Hs Hg Hlen.
  { lia. }
  cbn [occurrences]. destruct (indexOf text w startIndex) as [index|] eqn:Ei.
  - apply indexOf_Some in Ei as (Hidx & Hhit & Hbefore).
    apply startsWith_occursAt in Hhit as Hocc; [|lia]. destruct Hocc as [Hin Hslice].
    assert (Hpos : 0 < length w) by (destruct w; [done|cbn; lia]).
    unfold addIfFree.
    destruct (findOverlap_spec ms index (index + length w) (genuine_placed _ _ _ Hs Hg))
      as (b & l & -> & Hb).
    destruct b.
    + destruct (IH (index + 1) ms) as (ms' & -> & ? & ? & ? & Hsub & Hcov); [lia|done..|].
      exists ms'. split_and!; [done..|]. intros i Hi Ho.
      destruct (decide (i = index)) as [->|Hne'].
      * destruct Hb as (m & Hm & Hom). exists m. split; [by apply Hsub|done].
      * apply Hcov; [|done]. destruct (decide (i < index)) as [Hlt|]; [|lia].
        apply occursAt_startsWith in Ho. rewrite Hbefore in Ho; [done|lia].
    + set (new := mkChineseMatch index (index + length w) w).
      destruct (IH (index + 1) (splice ms (Z.to_nat l) new))
        as (ms' & -> & ? & ? & ? & Hsub & Hcov); [lia| | | |].
      * apply splice_placed; [by eapply genuine_placed|lia|done].
      * apply Forall_forall. intros x [->|Hx]%elem_of_splice.
        -- by split_and!.
        -- rewrite Forall_forall in Hg. by apply Hg.
      * apply Forall_forall. intros x [->|Hx]%elem_of_splice; [done|].
        rewrite Forall_forall in Hlen. by apply Hlen.
      * exists ms'. split_and!; [done..| |].
        { intros x Hx. apply Hsub, elem_of_splice. by right. }
        intros i Hi Ho. destruct (decide (i = index)) as [->|Hne'].
        -- exists new. split; [apply Hsub, elem_of_splice; by left|].
           unfold overlapsAt. cbn.
           apply andb_true_iff. split; apply Nat.ltb_lt; lia.
        -- apply Hcov; [|done]. destruct (decide (i < index)) as [Hlt|]; [|lia].
           apply occursAt_startsWith in Ho. rewrite Hbefore in Ho; [done|lia].
  - exists ms. split_and!; [done..|]. intros i Hi Ho%occursAt_startsWith.
    by rewrite (indexOf_None _ _ _ Ei i Hi) in Ho.
Qed.

Lemma wordLoops_spec words text todo :
  StronglySorted (fun a b => length b ≤ length a) todo →
  Forall (fun w => w ≠ [] ∧ w ∈ words) todo → ∀ ms,
  StronglySorted apart ms → Forall (genuine words text) ms →
  (∀ w m, w ∈ todo → m ∈ ms → length w ≤ length (word m)) →
  ∃ ms', fold_left (wordLoop text) todo (Returns ms) = Returns ms' ∧
         StronglySorted apart ms' ∧ Forall (genuine words text) ms' ∧ ms ⊆ ms' ∧
         ∀ w i, w ∈ todo → occursAt text w i →
                ∃ m, m ∈ ms' ∧ overlapsAt i (i + length w) m = true ∧
                     length w ≤ length (word m).
Proof.
  induction 1 as [|w todo Htodo IH Hw]; intros Hall ms Hs Hg Hlen; cbn [fold_left].
  { exists ms. split_and!; [done..|]. intros w i Hin. by apply elem_of_nil in Hin. }
  apply Forall_cons in Hall as [[Hne Hin] Hall]. cbn [wordLoop].
  destruct (occurrences_spec words text w Hne Hin (S (S (length text))) 0 ms)
    as (ms1 & -> & Hs1 & Hg1 & Hlen1 & Hsub1 & Hcov1); [lia|done|done| |].
  { apply Forall_forall. intros m Hm. apply Hlen; [left|done]. }
  destruct (IH Hall ms1 Hs1 Hg1) as (ms' & -> & Hs' & Hg' & Hsub' & Hcov').
  { intros w' m Hw' Hm. rewrite Forall_forall in Hw. rewrite Forall_forall in Hlen1.
    specialize (Hw w' Hw'). specialize (Hlen1 m Hm). cbn in Hw. lia. }
  exists ms'. split_and!; [done..| |].
  { intros x Hx. by apply Hsub', Hsub1. }
  intros w' i [->|Hw']%elem_of_cons Ho; [|by apply Hcov'].
  destruct (Hcov1 i ltac:(lia) Ho) as (m & Hm & Hom).
  exists m. split_and!; [by apply Hsub'|done|].
  rewrite Forall_forall in Hlen1. by apply Hlen1.
Qed.

Lemma findMatches_spec words text :
  [] ∉ words →
  ∃ ms, findMatches (sortByLength words) text = Returns ms ∧
        StronglySorted apart ms ∧ Forall (genuine words text) ms ∧
        ∀ w i, w ∈ words → occursAt text w i →
               ∃ m, m ∈ ms ∧ overlapsAt i (i + length w) m = true ∧
                    length w ≤ length (word m).
Proof.
  intros Hne.
  destruct (wordLoops_spec words text (sortByLength words)) with (ms := @nil ChineseMatch)
    as (ms & Hms & Hs & Hg & _ & Hcov).
  - apply sortByLength_sorted.
  - apply Forall_forall. intros w Hw. rewrite sortByLength_Permutation in Hw.
    split; [|done]. by intros ->.
  - constructor.
  - constructor.
  - intros w m _ Hm. by apply elem_of_nil in Hm.
  - exists ms. split_and!; [done..|]. intros w i Hw. apply Hcov.
    by rewrite sortByLength_Permutation.
Qed.

(** The empty word *)

Lemma occurrences_empty fuel text startIndex ms :
  placed ms → occurrences fuel text [] startIndex ms = Diverges.
Proof.
  revert startIndex ms. induction fuel as [|fuel IH]; intros startIndex ms Hp; [done|].
  cbn [occurrences]. rewrite indexOf_empty.
  destruct (addIfFree_placed ms (startIndex `min` length text) [] Hp) as (ms' & -> & Hp').
  by apply IH.
Qed.

Lemma occurrences_placed fuel text w startIndex ms ms' :
  placed ms → occurrences fuel text w startIndex ms = Returns ms' → placed ms'.
Proof.
  revert startIndex ms. induction fuel as [|fuel IH]; intros startIndex ms Hp; [done|].
  cbn [occurrences]. destruct (indexOf text w startIndex) as [index|]; [|by intros [= <-]].
  destruct (addIfFree_placed ms index w Hp) as (ms1 & -> & Hp1). by apply IH.
Qed.

Lemma wordLoops_Diverges text todo : fold_left (wordLoop text) todo Diverges = Diverges.
Proof. by induction todo. Qed.

Lemma occurrences_never_throw fuel text w startIndex ms :
  placed ms → occurrences fuel text w startIndex ms ≠ Throws.
Proof.
  revert startIndex ms. induction fuel as [|fuel IH]; intros startIndex ms Hp; [done|].
  cbn [occurrences]. destruct (indexOf text w startIndex) as [index|]; [|done].
  destruct (addIfFree_placed ms index w Hp) as (ms1 & -> & Hp1). by apply IH.
Qed.

Lemma wordLoops_empty text todo ms :
  [] ∈ todo → placed ms → fold_left (wordLoop text) todo (Returns ms) = Diverges.
Proof.
  revert ms. induction todo as [|w todo IH]; intros ms Hin Hp.
  { by apply elem_of_nil in Hin. }
  cbn [fold_left wordLoop]. apply elem_of_cons in Hin as [<-|Hin].
  - rewrite occurrences_empty by done. apply wordLoops_Diverges.
  - destruct (occurrences _ text w 0 ms) as [ms'| |] eqn:E.
    + apply IH; [done|]. by eapply occurrences_placed.
    + by apply occurrences_never_throw in E.
    + apply wordLoops_Diverges.
Qed.

(** The fragment *)

Lemma chineseLoop_text text style l st :
  Forall (fun m => start m ≤ end_ m ∧ end_ m ≤ length text ∧
                   slice text (start m) (end_ m) = word m) l →
  StronglySorted apart l →
  Forall (fun m => lastIndex st ≤ start m) l →
  fragmentText (fragment st) = take (lastIndex st) text →
  fragmentText (fragment (fold_left (chineseStep text style) l st))
  = take (lastIndex (fold_left (chineseStep text style) l st)) text.
Proof.
  intros Hin Hs. revert st. induction Hs as [|m l Hl IH Hm]; intros st Hlast Hf; [done|].
  cbn [fold_left]. apply Forall_cons in Hin as [(Hse & Hend & Hword) Hin].
  apply Forall_cons in Hlast as [Hl1 _]. apply IH; [done|..].
  - cbn. eapply Forall_impl; [exact Hm|]. by intros ?.
  - cbn [chineseStep fragment lastIndex].
    rewrite fragmentText_app, (fragmentText_before _ _ _ _ Hl1 Hf). cbn.
    rewrite app_nil_r, <- Hword. by apply take_slice.
Qed.

Lemma chineseLoop_gaps text style ms l st :
  Forall (fun m => start m ≤ end_ m ≤ length text) l →
  StronglySorted apart l →
  Forall (fun m => lastIndex st ≤ start m) l →
  (∀ m, m ∈ ms → m ∈ l ∨ end_ m ≤ lastIndex st) →
  lastIndex st ≤ length text →
  (∀ t, NewText t ∈ fragment st → gapOf ms text t) →
  (∀ m, m ∈ ms → end_ m ≤ lastIndex (fold_left (chineseStep text style) l st)) ∧
  lastIndex (fold_left (chineseStep text style) l st) ≤ length text ∧
  ∀ t, NewText t ∈ fragment (fold_left (chineseStep text style) l st) → gapOf ms text t.
Proof.
  intros Hwf Hs. revert st.
  induction Hs as [|m l Hl IH Hm]; intros st Hlast Hdone Hlen Hgaps.
  { cbn. split_and!; [|done..]. intros m Hm. destruct (Hdone m Hm) as [H|H]; [|done].
    by apply elem_of_nil in H. }
  cbn [fold_left]. apply Forall_cons in Hlast as [Hl1 Hl2].
  apply Forall_cons in Hwf as [[Hse Hend] Hwf]. rewrite Forall_forall in Hm.
  apply IH; [done|..]; cbn [chineseStep fragment lastIndex].
  - apply Forall_forall. intros m' Hm'. by apply Hm.
  - intros m0 Hm0. destruct (Hdone m0 Hm0) as [[->|H]%elem_of_cons|H]; [right|left|right].
    + done.
    + done.
    + lia.
  - done.
  - intros t [Ht|Ht]%elem_of_app.
    2:{ apply list_elem_of_singleton in Ht. discriminate Ht. }
    unfold appendTextBefore in Ht. destruct (Nat.ltb_spec (lastIndex st) (start m)).
    2:{ by apply Hgaps. }
    apply elem_of_app in Ht as [Ht|Ht]; [by apply Hgaps|].
    apply list_elem_of_singleton in Ht. injection Ht as ->.
    exists (lastIndex st), (start m). split_and!; [lia|lia|done|].
    intros m0 Hm0. unfold overlapsAt. apply andb_false_iff.
    destruct (Hdone m0 Hm0) as [[->|H']%elem_of_cons|H'].
    + right. apply Nat.ltb_ge. lia.
    + right. apply Nat.ltb_ge. specialize (Hm m0 H'). unfold apart in Hm. lia.
    + left. apply Nat.ltb_ge. lia.
Qed.

Lemma slice_slice {A} (l : list A) a b i n :
  a ≤ b → i + n ≤ b - a → slice (slice l a b) i (i + n) = slice l (a + i) (a + i + n).
Proof.
  intros Hab Hin. unfold slice.
  replace (i + n - i) with n by lia. replace (a + i + n - (a + i)) with n by lia.
  rewrite skipn_firstn_comm, take_take, drop_drop. f_equal. lia.
Qed.

Lemma gap_holds_no_word ms text t w i :
  (∀ j, occursAt text w j → ∃ m, m ∈ ms ∧ overlapsAt j (j + length w) m = true) →
  gapOf ms text t → ¬ occursAt t w i.
Proof.
  intros Hcov (a & b & Hab & -> & Hfree) [Hlen Hocc].
  assert (Ht : length (slice text a b) = b - a).
  { unfold slice. rewrite length_take, length_drop. lia. }
  rewrite Ht in Hlen. rewrite slice_slice in Hocc by lia.
  destruct (Hcov (a + i)) as (m & Hm & Ho).
  { split; [lia|done]. }
  specialize (Hfree m Hm). unfold overlapsAt in *.
  apply andb_true_iff in Ho as [H1%Nat.ltb_lt H2%Nat.ltb_lt].
  apply andb_false_iff in Hfree as [H%Nat.ltb_ge|H%Nat.ltb_ge]; lia.
Qed.

Lemma wordLoops_none text todo :
  (∀ w i, w ∈ todo → ¬ occursAt text w i) →
  fold_left (wordLoop text) todo (Returns []) = Returns [].
Proof.
  induction todo as [|w todo IH]; intros Hno; [done|].
  cbn [fold_left wordLoop occurrences].
  destruct (indexOf text w 0) as [index|] eqn:Ei.
  - apply indexOf_Some in Ei as (Hidx & Hhit & _).
    apply startsWith_occursAt in Hhit; [|lia]. exfalso. eapply Hno; [left|done].
  - apply IH. intros w' i Hw'. apply Hno. by right.
Qed.

Lemma genuine_span words text m :
  genuine words text m →
  start m ≤ end_ m ∧ end_ m ≤ length text ∧ slice text (start m) (end_ m) = word m.
Proof. intros (_ & He & Hlen & Hs). split_and!; [lia|done|done]. Qed.

(** ** The fragment of the Chinese highlighter *)

Lemma findMatches_empty_word words text :
  [] ∈ words → findMatches (sortByLength words) text = Diverges.
Proof.
  intros Hin. apply wordLoops_empty.
  - by rewrite sortByLength_Permutation.
  - split; constructor.
Qed.

Lemma chineseFragment_Returns words style text r :
  chineseFragment words style text = Returns r → [] ∉ words.
Proof.
  intros H Hin. unfold chineseFragment in H.
  by rewrite findMatches_empty_word in H.
Qed.

Lemma chineseLoop_spans text style l st :
  (∀ c, c ∈ fragment st → (∃ t, c = NewText t) ∨ ∃ m, c = chineseSpan style m) →
  ∀ c, c ∈ fragment (fold_left (chineseStep text style) l st) →
       (∃ t, c = NewText t) ∨ ∃ m, c = chineseSpan style m.
Proof.
  revert st. induction l as [|m l IH]; intros st Hst; [done|].
  cbn [fold_left]. apply IH. cbn [chineseStep fragment].
  intros c [Hc|Hc]%elem_of_app.
  - unfold appendTextBefore in Hc. destruct (lastIndex st <? start m); [|by apply Hst].
    apply elem_of_app in Hc as [Hc|Hc]; [by apply Hst|].
    apply list_elem_of_singleton in Hc. left. by eexists.
  - apply list_elem_of_singleton in Hc. right. by eexists.
Qed.

Lemma chineseFragment_text words style text frag :
  chineseFragment words style text = Returns (Some frag) → fragmentText frag = text.
Proof.
  intros H. pose proof (chineseFragment_Returns _ _ _ _ H) as Hne.
  unfold chineseFragment in H.
  destruct (findMatches_spec words text Hne) as (ms & Hms & Hs & Hg & _).
  rewrite Hms in H. destruct (0 <? length ms); [|done]. injection H as <-.
  apply fragmentText_remaining, chineseLoop_text; [|done| |done].
  - eapply Forall_impl; [exact Hg|]. intros m. apply genuine_span.
  - apply Forall_forall. intros; cbn; lia.
Qed.

Lemma chineseFragment_parts words style text frag :
  chineseFragment words style text = Returns (Some frag) →
  ∀ c, c ∈ frag →
    (∃ t, c = NewText t ∧ chineseFragment words style t = Returns None) ∨
    (∃ m, c = chineseSpan style m).
Proof.
  intros H. pose proof (chineseFragment_Returns _ _ _ _ H) as Hne.
  unfold chineseFragment in H.
  destruct (findMatches_spec words text Hne) as (ms & Hms & Hs & Hg & Hcov).
  rewrite Hms in H. destruct (0 <? length ms); [|done]. injection H as <-.
  assert (Hgap : ∀ t, gapOf ms text t → chineseFragment words style t = Returns None).
  { intros t Ht. unfold chineseFragment. unfold findMatches; rewrite wordLoops_none; [done|].
    intros w i Hw. rewrite sortByLength_Permutation in Hw.
    eapply gap_holds_no_word; [|exact Ht]. intros j Hj.
    destruct (Hcov w j Hw Hj) as (m & ? & ? & _). by exists m. }
  destruct (chineseLoop_gaps text style ms ms emptyBuilder) as (Hdone & Hlast & Hgaps).
  { eapply Forall_impl; [exact Hg|]. intros m Hm%genuine_span. lia. }
  { done. }
  { apply Forall_forall. intros; cbn; lia. }
  { intros m Hm. by left. }
  { cbn. lia. }
  { intros t Ht. by apply elem_of_nil in Ht. }
  set (st := fold_left (chineseStep text style) ms emptyBuilder) in *.
  assert (Hparts : ∀ c, c ∈ fragment st → (∃ t, c = NewText t) ∨ ∃ m, c = chineseSpan style m).
  { apply chineseLoop_spans. intros c Hc. by apply elem_of_nil in Hc. }
  assert (Hbody : ∀ c, c ∈ fragment st →
            (∃ t, c = NewText t ∧ chineseFragment words style t = Returns None) ∨
            (∃ m, c = chineseSpan style m)).
  { intros c Hc. destruct (Hparts c Hc) as [[t ->]|?]; [left|by right].
    exists t. split; [done|]. by apply Hgap, Hgaps. }
  unfold appendRemaining. destruct (Nat.ltb_spec (lastIndex st) (length text)); [|done].
  intros c [Hc|Hc]%elem_of_app; [by apply Hbody|].
  apply list_elem_of_singleton in Hc as ->. left. eexists. split; [done|].
  apply Hgap. exists (lastIndex st), (length text). split_and!; [lia|done| |].
  - unfold sliceFrom, slice. by rewrite take_ge by (rewrite length_drop; lia).
  - intros m Hm. unfold overlapsAt. apply andb_false_iff. left.
    apply Nat.ltb_ge. by apply Hdone.
Qed.

(** ** The class of the spans *)

Lemma classTokens_first current w rest :
  Forall (fun c => isAsciiWhitespace c = false) w → current ++ w ≠ [] →
  classTokens current (w ++ 32%N :: rest) = (current ++ w) :: classTokens [] rest.
Proof.
  intros Hw. revert current. induction Hw as [|c w Hc _ IH]; intros current Hne.
  - rewrite app_nil_r in *. cbn. by destruct current.
  - cbn [app classTokens]. rewrite Hc, IH.
    + by rewrite <- app_assoc.
    + by rewrite <- app_assoc.
Qed.

Lemma chineseClass_rejected tag style rest t :
  chineseAcceptNode (tag, (js "class", js "chinese-known-word " ++ style) :: rest) t
  = false.
Proof.
  assert (H : classListContains
                ((js "class", js "chinese-known-word " ++ style) :: rest)
                (js "chinese-known-word") = true).
  { unfold classListContains.
    change (getAttribute _ (js "class"))
      with (Some (js "chinese-known-word" ++ 32%N :: style)).
    cbv beta iota.
    rewrite classTokens_first; [|by vm_compute; repeat constructor|done].
    apply bool_decide_eq_true. left. }
  unfold chineseAcceptNode, fst, snd. rewrite H. by rewrite !orb_true_r.
Qed.

(** ** The pass over the page *)

Lemma settled_children collected words style id tag a children :
  settled collected words style (ElementNode id tag a children) ↔
  Forall (settledUnder collected words style (tag, a)) children.
Proof.
  cbn [settled]. induction children as [|c cs IH]; cbn [fold_right].
  - split; [constructor|done].
  - rewrite Forall_cons, <- IH. by destruct c.
Qed.

Lemma settled_mono collected collected' words style n :
  collected ⊆ collected' → settled collected words style n →
  settled collected' words style n.
Proof.
  intros Hsub. induction n as [|id tag a children IH] using node_induction; [done|].
  rewrite !settled_children. intros H.
  induction H as [|c cs Hc _ IHcs]; [constructor|].
  apply Forall_cons in IH as [IHc IH]. constructor; [|by apply IHcs].
  destruct c as [cid t|]; [|by apply IHc].
  destruct Hc as [?|[?|?]]; [by left|right; left; by apply Hsub|by right; right].
Qed.

Lemma chineseChildren_settled below collected parent todo st :
  Forall (fun c => isElement c = true → below c st = Returns (c, st)) todo →
  Forall (settledUnder collected (chineseKnownWords st) (chineseHighlightStyle st) parent)
         todo →
  chineseChildren below collected parent todo st = Returns (todo, st).
Proof.
  intros Hbelow Hall. induction Hall as [|c todo Hc _ IH]; cbn [chineseChildren]; [done|].
  apply Forall_cons in Hbelow as [Hb Hbelow]. specialize (IH Hbelow).
  destruct c as [cid t|cid ctag ca cc].
  - assert (Hv : chineseVisit collected parent (TextNode cid t) cid t st
                 = Returns ([TextNode cid t], st)).
    { unfold chineseVisit. destruct Hc as [-> |[Hc| ->]]; [done| |].
      - rewrite bool_decide_eq_true_2 by done. by rewrite andb_false_r.
      - by destruct (_ && _). }
    rewrite Hv. fold (chineseChildren below collected parent). by rewrite IH.
  - rewrite Hb by done. fold (chineseChildren below collected parent). by rewrite IH.
Qed.

Lemma chineseBelow_settled collected n :
  ∀ st, settled collected (chineseKnownWords st) (chineseHighlightStyle st) n →
        chineseBelow collected n st = Returns (n, st).
Proof.
  induction n as [|id tag a children IH] using node_induction; intros st Hs; [done|].
  cbn [chineseBelow]. apply settled_children in Hs.
  rewrite chineseChildren_settled; [done| |done].
  rewrite Forall_forall in IH, Hs. apply Forall_forall. intros c Hc _.
  apply IH; [done|]. specialize (Hs c Hc). destruct c; [done|exact Hs].
Qed.

Lemma sameWords_refl st : sameWords st st.
Proof. by split_and!. Qed.

Lemma sameWords_trans st1 st2 st3 : sameWords st1 st2 → sameWords st2 st3 → sameWords st1 st3.
Proof.
  intros (Hw & Hs & Hp) (Hw' & Hs' & Hp').
  split_and!; [congruence|congruence|by etrans].
Qed.

Lemma attachAll_app next frag :
  ∀ n, n ∈ fst (attachAll next frag) → ∃ next' c, c ∈ frag ∧ n = fst (attachNode next' c).
Proof.
  revert next. induction frag as [|c frag IH]; intros next n; cbn [attachAll].
  { intros H. by apply elem_of_nil in H. }
  destruct (attachNode next c) as [n0 next0] eqn:E0.
  specialize (IH next0). destruct (attachAll next0 frag) as [ns next1]. cbn [fst] in *.
  intros [->|Hn]%elem_of_cons.
  - exists next, c. split; [left|]. by rewrite E0.
  - destruct (IH n Hn) as (next' & c' & Hc' & ->). exists next', c'. split; [by right|done].
Qed.

Lemma attachAll_text next frag :
  flat_map nodeText (fst (attachAll next frag)) = fragmentText frag.
Proof.
  revert next. induction frag as [|c frag IH]; intros next; cbn [attachAll]; [done|].
  destruct (attachNode next c) as [n0 next0] eqn:E0.
  specialize (IH next0). destruct (attachAll next0 frag) as [ns next1]. cbn [fst] in *.
  unfold fragmentText in *. cbn [flat_map]. rewrite IH. f_equal.
  destruct c as [data|cls content a]; unfold attachNode in E0; injection E0 as <- _.
  - done.
  - cbn [nodeText]. case_bool_decide as Hd; cbn [flat_map nodeText].
    + by rewrite Hd.
    + by rewrite app_nil_r.
Qed.

Lemma chineseSpan_settled collected words style' parent style m next :
  settledUnder collected words style' parent (fst (attachNode next (chineseSpan style m))).
Proof.
  unfold chineseSpan.
  change (fst (attachNode next (NewSpan ?cls (Str ?w) ?a)))
    with (ElementNode next (js "SPAN") ((js "class", cls) :: a)
            (if bool_decide (w = []) then [] else [TextNode (S next) w])).
  unfold settledUnder. apply settled_children.
  case_bool_decide; constructor; [|constructor].
  unfold settledUnder. left. apply chineseClass_rejected.
Qed.

Lemma chineseVisit_spec collected parent id t st out st' :
  chineseVisit collected parent (TextNode id t) id t st = Returns (out, st') →
  sameWords st st' ∧ flat_map nodeText out = t ∧
  Forall (settledUnder collected (chineseKnownWords st) (chineseHighlightStyle st) parent) out.
Proof.
  unfold chineseVisit.
  destruct (chineseAcceptNode parent t && negb (bool_decide (id ∈ collected))) eqn:Ea.
  2:{ intros [= <- <-]. split_and!; [apply sameWords_refl|cbn; by rewrite app_nil_r|].
      constructor; [|constructor]. cbn. apply andb_false_iff in Ea as [?|Ea]; [by left|].
      right. left. apply negb_false_iff, bool_decide_eq_true in Ea. done. }
  destruct (chineseFragment _ _ t) as [[frag|]| |] eqn:Ef; [| |done..].
  2:{ intros [= <- <-]. split_and!; [apply sameWords_refl|cbn; by rewrite app_nil_r|].
      constructor; [|constructor]. cbn. by right; right. }
  pose proof (attachAll_text (chineseNextNode st) frag) as Htext.
  pose proof (attachAll_app (chineseNextNode st) frag) as Hnodes.
  destruct (attachAll (chineseNextNode st) frag) as [nodes next]. cbn [fst] in *.
  intros [= <- <-]. split_and!.
  - split_and!; [done..|]. cbn. apply union_subseteq_r.
  - rewrite Htext. by eapply chineseFragment_text.
  - apply Forall_forall. intros n (next' & c & Hc & ->)%Hnodes.
    destruct (chineseFragment_parts _ _ _ _ Ef c Hc) as [(t' & -> & Hnone)|(m & ->)].
    + cbn. by right; right.
    + apply chineseSpan_settled.
Qed.

Lemma chineseChildren_spec below collected parent todo :
  Forall (fun c => ∀ st c' st', below c st = Returns (c', st') →
            isElement c' = isElement c ∧ sameWords st st' ∧ nodeText c' = nodeText c ∧
            settled collected (chineseKnownWords st) (chineseHighlightStyle st) c') todo →
  ∀ st out st', chineseChildren below collected parent todo st = Returns (out, st') →
  sameWords st st' ∧ flat_map nodeText out = flat_map nodeText todo ∧
  Forall (settledUnder collected (chineseKnownWords st) (chineseHighlightStyle st) parent) out.
Proof.
  intros Hbelow. induction Hbelow as [|c todo Hc _ IH]; intros st out st'; cbn [chineseChildren].
  { intros [= <- <-]. split_and!; [apply sameWords_refl|done|constructor]. }
  fold (chineseChildren below collected parent).
  destruct c as [cid t|cid ctag ca cc].
  - destruct (chineseVisit _ _ _ _ _ _) as [[nodes st1]| |] eqn:Ev; [|done..].
    apply chineseVisit_spec in Ev as (Hsame & Htext & Hset).
    destruct (chineseChildren below collected parent todo st1) as [[rest st2]| |] eqn:Er;
      [|done..].
    intros [= <- <-]. destruct (IH _ _ _ Er) as (Hsame' & Htext' & Hset').
    split_and!; [by eapply sameWords_trans| |].
    + rewrite flat_map_app, Htext, Htext'. done.
    + apply Forall_app. split; [done|].
      destruct Hsame as (Hw & Hs & _). by rewrite Hw, Hs in Hset'.
  - destruct (below _ st) as [[c' st1]| |] eqn:Eb; [|done..].
    apply Hc in Eb as (He & Hsame & Htext & Hset).
    destruct (chineseChildren below collected parent todo st1) as [[rest st2]| |] eqn:Er;
      [|done..].
    intros [= <- <-]. destruct (IH _ _ _ Er) as (Hsame' & Htext' & Hset').
    split_and!; [by eapply sameWords_trans| |].
    + cbn [app flat_map]. rewrite Htext, Htext'. done.
    + constructor.
      * destruct c'; [done|exact Hset].
      * destruct Hsame as (Hw & Hs & _). by rewrite Hw, Hs in Hset'.
Qed.

Lemma chineseBelow_spec collected n :
  ∀ st n' st', chineseBelow collected n st = Returns (n', st') →
  isElement n' = isElement n ∧ sameWords st st' ∧ nodeText n' = nodeText n ∧
  settled collected (chineseKnownWords st) (chineseHighlightStyle st) n'.
Proof.
  induction n as [|id tag a children IH] using node_induction; intros st n' st'.
  { intros [= <- <-]. split_and!; [done|apply sameWords_refl|done|done]. }
  cbn [chineseBelow].
  destruct (chineseChildren _ _ _ _ _) as [[children' st1]| |] eqn:Ec; [|done..].
  intros [= <- <-].
  apply chineseChildren_spec in Ec as (Hsame & Htext & Hset); [|done].
  split_and!; [done|done|done|]. by apply settled_children.
Qed.

(** ** What the Chinese highlighter guarantees *)

(** X9. With no empty word in the set, the search of
    [highlightChineseKnownWords] ends on every text, and the matches it
    keeps are in order of start, pairwise disjoint, and each is a known
    word at a place where the text has exactly that word. *)
Theorem chinese_matches_disjoint_genuine words text :
  [] ∉ words →
  ∃ ms, findMatches (sortByLength words) text = Returns ms ∧
        StronglySorted apart ms ∧ Forall (genuine words text) ms.
Proof.
  intros Hne. destruct (findMatches_spec words text Hne) as (ms & Hms & Hs & Hg & _).
  by exists ms.
Qed.

(** X10. Longest first: every place where the text has a known word is
    overlapped by a kept match of a word at least as long (the match may
    be that occurrence itself); so an occurrence is left out only in
    favour of a word that is no shorter. *)
Theorem chinese_longer_word_wins words text ms w i :
  [] ∉ words →
  findMatches (sortByLength words) text = Returns ms →
  w ∈ words → occursAt text w i →
  ∃ m, m ∈ ms ∧ overlapsAt i (i + length w) m = true ∧ length w ≤ length (word m).
Proof.
  intros Hne Hms Hw Ho.
  destruct (findMatches_spec words text Hne) as (ms' & Hms' & _ & _ & Hcov).
  rewrite Hms in Hms'. injection Hms' as <-. by apply Hcov.
Qed.

(** X11. The binary search is right: on matches that are in order and
    disjoint it returns, never running out of the array, and reports an
    overlap exactly when a scan of all the matches would find one; when
    there is none, inserting at the [left] it ends with keeps the
    matches in order and disjoint. *)
Theorem binary_search_agrees_with_scan ms index end' :
  placed ms → index ≤ end' →
  ∃ l, findOverlap ms index end' = Returns (existsb (overlapsAt index end') ms, l) ∧
       (existsb (overlapsAt index end') ms = false →
        ∀ w, placed (splice ms (Z.to_nat l) (mkChineseMatch index end' w))).
Proof.
  intros Hp Hle. destruct (findOverlap_spec ms index end' Hp) as (b & l & Hf & Hb).
  exists l. destruct b.
  - destruct Hb as (m & Hm & Ho).
    assert (He : existsb (overlapsAt index end') ms = true).
    { apply existsb_exists. exists m. split; [by apply list_elem_of_In|done]. }
    rewrite He. split; [done|]. by intros.
  - rewrite (insertionPoint_no_overlap _ _ _ _ Hb). split; [done|].
    intros _ w. by apply splice_placed.
Qed.

(** X12. The highlighter changes no text: when
    [highlightChineseKnownWords] returns, the [textContent] of the body
    is what it was. *)
Theorem chinese_highlight_keeps_page_text body st body' st' :
  highlightChineseKnownWords body st = Returns (body', st') →
  nodeText body' = nodeText body.
Proof.
  unfold highlightChineseKnownWords.
  destruct (length (chineseKnownWords st) =? 0); [by intros [= <- <-]|].
  by intros (_ & _ & Htext & _)%chineseBelow_spec.
Qed.

(** X13. A second pass finds nothing to do: after
    [highlightChineseKnownWords] has returned, calling it again on the
    page it left returns the same page and the same state. The text
    runs between the spans hold no known word, and the text inside the
    spans is rejected by the filter for its class. *)
Theorem chinese_second_pass_changes_nothing body st body' st' :
  highlightChineseKnownWords body st = Returns (body', st') →
  highlightChineseKnownWords body' st' = Returns (body', st').
Proof.
  unfold highlightChineseKnownWords.
  destruct (length (chineseKnownWords st) =? 0) eqn:E.
  { intros [= <- <-]. by rewrite E. }
  intros (_ & (Hw & Hs & Hp) & _ & Hset)%chineseBelow_spec.
  rewrite Hw, E. apply chineseBelow_settled.
  rewrite Hw, Hs. by eapply settled_mono.
Qed.

(** X14. An empty string among the known Chinese words hangs the page:
    [text.indexOf('', startIndex)] never returns -1, so the loop over
    the occurrences of the empty word does not end, whatever the text
    and however far it has run; the fragment of every text node, and
    with it the visit of every text node the filter accepts, never
    returns. *)
Theorem chinese_empty_word_hangs words style text :
  [] ∈ words →
  chineseFragment words style text = Diverges ∧
  (∀ fuel startIndex ms, placed ms → occurrences fuel text [] startIndex ms = Diverges) ∧
  (∀ collected parent id st,
     chineseKnownWords st = words → chineseHighlightStyle st = style →
     chineseAcceptNode parent text = true → id ∉ collected →
     chineseVisit collected parent (TextNode id text) id text st = Diverges).
Proof.
  intros Hin.
  assert (Hf : chineseFragment words style text = Diverges).
  { unfold chineseFragment. by rewrite findMatches_empty_word. }
  split_and!; [done| |].
  - intros fuel startIndex ms Hp. by apply occurrences_empty.
  - intros collected parent id st <- <- Ha Hid. unfold chineseVisit.
    rewrite Ha, bool_decide_eq_false_2 by done. cbn [negb andb]. by rewrite Hf.
Qed.

Lemma appendTextBefore_parts originalText frag last s :
  Forall rewriterPart frag →
  Forall rewriterPart (appendTextBefore originalText frag last s).
Proof.
  intros H. unfold appendTextBefore. destruct (last <? s); [|done].
  apply Forall_app. split; [done|]. constructor; [|constructor]. left. by eexists.
Qed.

Lemma inText_nonEmpty originalText m : inText originalText m → text m ≠ [].
Proof.
  intros (Hlt & Hend & ->) H. apply (f_equal length) in H.
  unfold slice in H. rewrite length_take, length_drop in H. cbn in H. lia.
Qed.

Lemma compoundStep_parts kw originalText um st i st' :
  Forall (inText originalText) um →
  Forall rewriterPart (fragment st) →
  compoundStep kw originalText um (Returns st) i = Returns st' →
  Forall rewriterPart (fragment st').
Proof.
  intros Hin Hm. unfold compoundStep. case_bool_decide; [by intros [= <-]|].
  destruct (um !! i) as [cur|] eqn:Hcur; [|by intros [= <-]].
  assert (Hne : text cur ≠ []).
  { rewrite Forall_forall in Hin. eapply inText_nonEmpty, Hin.
    by eapply list_elem_of_lookup_2. }
  assert (Hpush : ∀ span, rewriterPart span →
    Forall rewriterPart
      (appendTextBefore originalText (fragment st) (lastIndex st) (index cur) ++ [span])).
  { intros span Hspan. apply Forall_app. split; [by apply appendTextBefore_parts|].
    constructor; [done|constructor]. }
  destruct (getProperty kw (toLowerCase (text cur))) as [w|name|]; [..|by intros [= <-]].
  all: destruct (if 1 <? _ then _ else _) as [c|];
    [destruct (um !! (i + compoundLength c - 1)); [|done]|];
    intros [= <-]; cbn [fragment]; apply Hpush;
    [right; right; by eexists _, _|right; left; by eexists _, _].
Qed.

Lemma compoundLoop_parts kw originalText um l st st' :
  Forall (inText originalText) um →
  Forall rewriterPart (fragment st) →
  fold_left (compoundStep kw originalText um) l (Returns st) = Returns st' →
  Forall rewriterPart (fragment st').
Proof.
  intros Hin. revert st. induction l as [|i l IH]; intros st Hm; cbn [fold_left].
  - by intros [= <-].
  - destruct (compoundStep kw originalText um (Returns st) i) as [st1| |] eqn:E.
    + apply IH. by eapply compoundStep_parts.
    + by rewrite compoundLoop_Throws.
    + by rewrite compoundLoop_Diverges.
Qed.

Lemma simpleLoop_parts kw originalText l st :
  Forall (inText originalText) l →
  Forall rewriterPart (fragment st) →
  Forall rewriterPart (fragment (fold_left (simpleStep kw originalText) l st)).
Proof.
  intros Hin. revert st. induction Hin as [|m l Hm _ IH]; intros st Hst; cbn [fold_left]; [done|].
  apply IH. unfold simpleStep. apply inText_nonEmpty in Hm.
  destruct (getProperty kw (toLowerCase (text m))) as [w|name|]; [..|done];
    cbn [fragment]; (apply Forall_app; split; [by apply appendTextBefore_parts|]);
    constructor; [|constructor| |constructor]; right; left; by eexists _, _.
Qed.

Lemma buildFragment_parts fcl kw originalText patterns frag :
  buildFragment fcl kw originalText patterns = Returns frag →
  Forall rewriterPart frag.
Proof.
  unfold buildFragment.
  destruct (resolveMatches originalText patterns) as [um|] eqn:Hum; [|done].
  destruct (resolveMatches_spec _ _ _ Hum) as [Hin _].
  assert (Hrem : ∀ st, Forall rewriterPart (fragment st) →
                       Forall rewriterPart (appendRemaining originalText st)).
  { intros st H. unfold appendRemaining. destruct (_ <? _); [|done].
    apply Forall_app. split; [done|]. constructor; [|constructor]. left. by eexists. }
  unfold fragmentOf. destruct (fcl && (0 <? length um)).
  - destruct (fold_left _ _ _) as [st| |] eqn:E; [|done..].
    intros [= <-]. apply Hrem.
    eapply compoundLoop_parts; [done| |exact E]. constructor.
  - intros [= <-]. apply Hrem, simpleLoop_parts; [done|]. constructor.
Qed.

(** White space *)

Lemma inkOf_app a b : inkOf (a ++ b) = inkOf a ++ inkOf b.
Proof. apply List.filter_app. Qed.

Lemma inkOf_collapse inRun s : inkOf (collapseSpaces inRun s) = inkOf s.
Proof.
  revert inRun. induction s as [|c s IH]; intros inRun; cbn [collapseSpaces]; [done|].
  unfold inkOf in *. cbn [List.filter]. destruct (isWhiteSpace c) eqn:E; cbn [negb].
  - destruct inRun; [apply IH|]. cbn [List.filter].
    change (isWhiteSpace 32) with true. cbn [negb]. apply IH.
  - cbn [List.filter]. rewrite E. cbn [negb]. f_equal. apply IH.
Qed.

Lemma inkOf_trimStart s : inkOf (trimStart s) = inkOf s.
Proof.
  induction s as [|c s IH]; cbn [trimStart]; [done|].
  destruct (isWhiteSpace c) eqn:E; [|done].
  unfold inkOf in *. cbn [List.filter]. by rewrite E.
Qed.

Lemma inkOf_trim s : inkOf (trim s) = inkOf s.
Proof.
  unfold trim, inkOf. rewrite List.filter_rev. fold (inkOf (trimStart (rev (trimStart s)))).
  rewrite inkOf_trimStart. unfold inkOf. rewrite List.filter_rev, rev_involutive.
  apply inkOf_trimStart.
Qed.

Lemma inkOf_nil_iff s : inkOf s = [] ↔ Forall (fun c => isWhiteSpace c = true) s.
Proof.
  unfold inkOf. induction s as [|c s IH]; cbn [List.filter].
  - split; [constructor|done].
  - rewrite Forall_cons, <- IH. destruct (isWhiteSpace c); cbn [negb]; [|split; [done|]].
    + tauto.
    + by intros [? _].
Qed.

(** The fragment as [extractFromNode] reads it. *)

Lemma extract_attached next c :
  rewriterPart c → isCompoundSpan c = false →
  inkOf (extractFromNode (fst (attachNode next c))) = inkOf (restoreOriginal [c]).
Proof.
  intros [[t ->]|[(w & wd & Hne & ->)|(cr & ws & ->)]] Hc.
  - cbn. by rewrite app_nil_r.
  - destruct w as [|c0 w0]; [done|]. unfold singleSpan.
    change (extractFromNode _) with ((c0 :: w0) ++ js " ").
    change (restoreOriginal _) with ((c0 :: w0) ++ []).
    by rewrite inkOf_app, !app_nil_r.
  - done.
Qed.

Lemma extract_attachAll next frag :
  Forall rewriterPart frag → existsb isCompoundSpan frag = false →
  inkOf (flat_map extractFromNode (fst (attachAll next frag))) = inkOf (restoreOriginal frag).
Proof.
  intros H. revert next. induction H as [|c frag Hc _ IH]; intros next; [done|].
  cbn [existsb]. intros [Hc1 Hrest]%orb_false_iff. cbn [attachAll].
  pose proof (extract_attached next c Hc Hc1) as Hhead.
  destruct (attachNode next c) as [n next']. specialize (IH next' Hrest).
  destruct (attachAll next' frag) as [ns next'']. cbn [fst flat_map] in *.
  unfold restoreOriginal in *. cbn [flat_map] in *. rewrite app_nil_r in Hhead.
  by rewrite !inkOf_app, Hhead, IH.
Qed.

Lemma rewriterPart_settled collected words style parent next c :
  rewriterPart c →
  settledUnder collected words style parent (fst (attachNode next c))
  ∨ isElement (fst (attachNode next c)) = false.
Proof.
  intros [[t ->]|[(w & wd & _ & ->)|(cr & ws & ->)]]; [by right|left..].
  - unfold singleSpan.
    change (fst (attachNode next (NewSpan ?cls ?content ?a)))
      with (ElementNode next (js "SPAN") ((js "class", cls) :: a)
              (if bool_decide (domString content = []) then []
               else [TextNode (S next) (domString content)])).
    unfold settledUnder. apply settled_children.
    case_bool_decide; constructor; [|constructor]. by left.
  - unfold compoundSpan.
    change (fst (attachNode next (NewSpan ?cls ?content ?a)))
      with (ElementNode next (js "SPAN") ((js "class", cls) :: a)
              (if bool_decide (domString content = []) then []
               else [TextNode (S next) (domString content)])).
    unfold settledUnder. apply settled_children.
    case_bool_decide; constructor; [|constructor]. by left.
Qed.

(** X15. The two passes of [initialize] do not collide: the spans that
    [replaceTextNode] puts in place of a text node are rejected by the
    filter of the Chinese highlighter, so [highlightChineseKnownWords]
    returns every one of them as it is, although their text is in the
    target language. *)
Theorem chinese_pass_leaves_translations fcl kw originalText patterns frag next collected st n :
  buildFragment fcl kw originalText patterns = Returns frag →
  n ∈ fst (attachAll next frag) → isElement n = true →
  chineseBelow collected n st = Returns (n, st).
Proof.
  intros Hfrag%buildFragment_parts (next' & c & Hc & ->)%attachAll_app He.
  rewrite Forall_forall in Hfrag.
  destruct (rewriterPart_settled collected (chineseKnownWords st) (chineseHighlightStyle st)
              (js "", []) next' c (Hfrag c Hc)) as [Hs|Hn]; [|congruence].
  apply chineseBelow_settled.
  destruct (fst (attachNode next' c)); [done|exact Hs].
Qed.

(** X16. [getOriginalTextFromSelection] undoes the rewrite up to white
    space: for a selection that holds the nodes put in place of a text
    node, with no compound among them, the extracted text has the
    characters of the original text of the node, in order; only white
    space differs (a space follows every span, runs collapse, the ends
    are trimmed). *)
Theorem selection_reads_original_back fcl kw originalText patterns frag next selectedText :
  buildFragment fcl kw originalText patterns = Returns frag →
  existsb isCompoundSpan frag = false →
  inkOf originalText ≠ [] →
  inkOf (getOriginalTextFromSelection selectedText (Some (fst (attachAll next frag))))
  = inkOf originalText.
Proof.
  intros Hfrag Hno Hink. unfold getOriginalTextFromSelection.
  assert (E : inkOf (trim (collapseSpaces false
                 (flat_map extractFromNode (fst (attachAll next frag)))))
              = inkOf originalText).
  { rewrite inkOf_trim, inkOf_collapse, extract_attachAll; [|by eapply buildFragment_parts|done].
    f_equal. by eapply buildFragment_restores. }
  case_bool_decide as Hr; [|done]. rewrite Hr in E. by rewrite <- E in Hink.
Qed.

(** ** The popup keeps the Chinese list safe *)

Lemma containsChinese_nonEmpty w : containsChinese w = true → w ≠ [].
Proof. by intros H ->. Qed.

Lemma addChineseWord_chinese inputValue l :
  Forall (fun w => containsChinese w = true) l →
  Forall (fun w => containsChinese w = true) (addChineseWord inputValue l).
Proof.
  intros H. unfold addChineseWord. case_bool_decide; [done|].
  destruct (containsChinese (trim inputValue)) eqn:E; cbn [negb]; [|done].
  case_bool_decide; [done|]. apply Forall_app. split; [done|]. by repeat constructor.
Qed.

Lemma addChineseWord_NoDup inputValue l : NoDup l → NoDup (addChineseWord inputValue l).
Proof.
  intros H. unfold addChineseWord. case_bool_decide; [done|].
  destruct (containsChinese _); cbn [negb]; [|done].
  case_bool_decide as Hin; [done|].
  apply NoDup_app. split_and!; [done| |apply NoDup_singleton].
  intros x Hx ->%list_elem_of_singleton. done.
Qed.

(** [StorageManager] has no function [getWords]: the call throws, and
    [syncKnownWordsToChinese] stores nothing. *)
Lemma syncKnownWordsToChinese_stores_nothing kw stored :
  syncKnownWordsToChinese kw stored = stored.
Proof. reflexivity. Qed.

(** X18. The popup cannot store a list that hangs the highlighter: a
    list of words that each hold a Chinese character stays one under
    [addChineseWord], which refuses the empty string, words without a
    Chinese character and words that are in the list already, and under
    [syncKnownWordsToChinese], which leaves the stored list as it is,
    since the [StorageManager.getWords] it calls is no function of
    src/storage.js. So the list holds no empty word and no word twice,
    and the search of the highlighter returns on every text. *)
Theorem popup_words_never_hang inputValue kw l style text :
  Forall (fun w => containsChinese w = true) l → NoDup l →
  let l' := syncKnownWordsToChinese kw (addChineseWord inputValue l) in
  l' = addChineseWord inputValue l ∧
  Forall (fun w => containsChinese w = true) l' ∧ NoDup l' ∧ ([] ∉ l') ∧
  ∃ r, chineseFragment l' style text = Returns r.
Proof.
  intros Hc Hn l'.
  assert (El : l' = addChineseWord inputValue l)
    by apply syncKnownWordsToChinese_stores_nothing.
  assert (Hc' : Forall (fun w => containsChinese w = true) l').
  { rewrite El. by apply addChineseWord_chinese. }
  assert (Hne : [] ∉ l').
  { intros Hin. rewrite Forall_forall in Hc'. by specialize (Hc' _ Hin). }
  split_and!; [done|done| |done|].
  - rewrite El. by apply addChineseWord_NoDup.
  - unfold chineseFragment.
    destruct (findMatches_spec l' text Hne) as (ms & -> & _).
    destruct (0 <? length ms); by eexists.
Qed.

(** ** White space at the ends *)

Lemma trimStart_head s c : head (trimStart s) = Some c → isWhiteSpace c = false.
Proof.
  induction s as [|d s IH]; cbn [trimStart]; [done|].
  destruct (isWhiteSpace d) eqn:E; [done|]. cbn. by intros [= <-].
Qed.

Lemma trimStart_suffix s : ∃ p, s = p ++ trimStart s ∧ Forall (fun c => isWhiteSpace c = true) p.
Proof.
  induction s as [|d s (p & Hp & Hall)]; cbn [trimStart]; [by exists []|].
  destruct (isWhiteSpace d) eqn:E.
  - exists (d :: p). split; [by rewrite Hp at 1|by constructor].
  - by exists [].
Qed.

Lemma trimStart_id s : (∀ c, head s = Some c → isWhiteSpace c = false) → trimStart s = s.
Proof.
  destruct s as [|d s]; [done|]. intros H. cbn [trimStart]. by rewrite (H d eq_refl).
Qed.

Lemma head_rev (s : jsstring) : head (rev s) = last s.
Proof.
  induction s as [|c s IH] using rev_ind; [done|].
  by rewrite rev_app_distr, last_snoc.
Qed.

Lemma last_rev (s : jsstring) : last (rev s) = head s.
Proof. by rewrite <- head_rev, rev_involutive. Qed.

Lemma trim_trimmed s : trimmed (trim s).
Proof.
  unfold trim, trimmed. split; intros c.
  - destruct (trimStart_suffix (rev (trimStart s))) as (p & Hp & _).
    set (u := trimStart (rev (trimStart s))) in *.
    apply (f_equal (@rev N)) in Hp. rewrite rev_involutive, rev_app_distr in Hp.
    intros Hc. apply (trimStart_head s). rewrite Hp.
    destruct (rev u); [done|]. cbn in *. done.
  - rewrite last_rev. apply trimStart_head.
Qed.

Lemma trim_id s : trimmed s → trim s = s.
Proof.
  intros [Hh Hl]. unfold trim. rewrite (trimStart_id s Hh), trimStart_id, rev_involutive; [done|].
  intros c. rewrite head_rev. apply Hl.
Qed.

Lemma elem_of_rev (l : jsstring) c : c ∈ rev l ↔ c ∈ l.
Proof. rewrite !list_elem_of_In. symmetry. apply in_rev. Qed.

Lemma trim_sub s c : c ∈ trim s → c ∈ s.
Proof.
  unfold trim. rewrite elem_of_rev.
  destruct (trimStart_suffix (rev (trimStart s))) as (p & Hp & _).
  intros Hc. assert (c ∈ rev (trimStart s)) as Hc2.
  { rewrite Hp. apply elem_of_app. by right. }
  apply (proj1 (elem_of_rev _ _)) in Hc2.
  destruct (trimStart_suffix s) as (q & Hq & _). rewrite Hq.
  apply elem_of_app. by right.
Qed.

(** ** Lines *)

Lemma splitLines_nonEmpty s : splitLines s ≠ [].
Proof.
  destruct s as [|c s]; cbn [splitLines]; [done|].
  destruct (c =? 10)%N; [done|]. by destruct (splitLines s).
Qed.

Lemma splitLines_no_newline s : Forall (fun line => 10%N ∉ line) (splitLines s).
Proof.
  induction s as [|c s IH]; cbn [splitLines].
  - constructor; [apply not_elem_of_nil|constructor].
  - destruct (N.eqb_spec c 10).
    + constructor; [apply not_elem_of_nil|done].
    + destruct (splitLines s) as [|line lines] eqn:Es; [by apply splitLines_nonEmpty in Es|].
      apply Forall_cons in IH as [Hl Hls]. constructor; [|done].
      intros [E|?]%elem_of_cons; [congruence|done].
Qed.

Lemma splitLines_line line :
  10%N ∉ line → splitLines line = [line].
Proof.
  induction line as [|c line IH]; intros Hn; [done|]. cbn [splitLines].
  destruct (N.eqb_spec c 10) as [->|_]; [exfalso; apply Hn; left|].
  rewrite IH; [done|]. intros ?. apply Hn. by right.
Qed.

Lemma splitLines_app line rest :
  10%N ∉ line → splitLines (line ++ 10%N :: rest) = line :: splitLines rest.
Proof.
  induction line as [|c line IH]; intros Hn; [done|]. cbn [app splitLines].
  destruct (N.eqb_spec c 10) as [->|_]; [exfalso; apply Hn; left|].
  rewrite IH; [done|]. intros ?. apply Hn. by right.
Qed.

Lemma splitLines_join l :
  l ≠ [] → Forall (fun line => 10%N ∉ line) l → splitLines (join [10%N] l) = l.
Proof.
  intros Hne H. induction H as [|line l Hl H IH]; [done|].
  rewrite join_tail. destruct l as [|line' l].
  - rewrite app_nil_r. by apply splitLines_line.
  - rewrite splitLines_app by done. f_equal. by apply IH.
Qed.

(** The stored entries *)

Lemma parseExcludedUrls_storable value : Forall storable (parseExcludedUrls value).
Proof.
  unfold parseExcludedUrls. case_bool_decide; [constructor|].
  pose proof (splitLines_no_newline (trim value)) as Hl.
  induction Hl as [|line lines Hline _ IH]; cbn [map List.filter]; [constructor|].
  destruct (Nat.ltb_spec 0 (length (trim line))); [|done].
  constructor; [|done]. split_and!.
  - intros E. rewrite E in *. cbn in *. lia.
  - apply trim_trimmed.
  - intros Hin%trim_sub. done.
Qed.

Lemma filter_map_storable l :
  Forall storable l → List.filter (fun url => 0 <? length url) (map trim l) = l.
Proof.
  induction 1 as [|url l (Hne & Ht & _) _ IH]; [done|]. cbn [map List.filter].
  rewrite (trim_id url Ht), IH. by destruct url.
Qed.

Lemma join_storable_trimmed l : l ≠ [] → Forall storable l → trimmed (join [10%N] l) ∧ join [10%N] l ≠ [].
Proof.
  intros Hne H. induction H as [|url l (Hu & [Hh Hl] & Hn) H IH]; [done|].
  rewrite join_tail. destruct l as [|url' l].
  - rewrite app_nil_r. by split.
  - destruct IH as [[Hh' Hl'] Hne']; [done|]. split.
    + split; intros c.
      * destruct url; [done|]. cbn. apply Hh.
      * rewrite last_app. cbn [last]. 
        change (10%N :: join [10%N] (url' :: l)) with ([10%N] ++ join [10%N] (url' :: l)).
        rewrite last_app. destruct (last (join [10%N] (url' :: l))) eqn:El.
        -- intros [= <-]. by apply Hl'.
        -- apply last_None in El. done.
    + by destruct url.
Qed.

(** X19. The excluded URLs survive a reload of the settings: every
    entry the save button stores is non-empty, trimmed and free of line
    breaks, and when [loadSettings] has written the stored list into
    the textarea, saving again stores the same list. *)
Theorem excluded_urls_survive_reload value :
  Forall (fun url => url ≠ [] ∧ trim url = url ∧ 10%N ∉ url) (parseExcludedUrls value) ∧
  parseExcludedUrls (showExcludedUrls (parseExcludedUrls value)) = parseExcludedUrls value.
Proof.
  pose proof (parseExcludedUrls_storable value) as Hs.
  split.
  { eapply Forall_impl; [exact Hs|]. intros url (? & ? & ?). split_and!; [done| |done].
    by apply trim_id. }
  set (l := parseExcludedUrls value) in *. unfold showExcludedUrls.
  destruct (decide (l = [])) as [->|Hne]; [done|].
  destruct (join_storable_trimmed l Hne Hs) as [Ht Hj].
  unfold parseExcludedUrls at 1. rewrite (trim_id _ Ht).
  rewrite bool_decide_eq_false_2 by done.
  rewrite splitLines_join; [by apply filter_map_storable|done|].
  eapply Forall_impl; [exact Hs|]. by intros url (_ & _ & ?).
Qed.

Lemma includes_empty s : includes s [] = true.
Proof. unfold includes. by rewrite indexOf_empty. Qed.

(** X20. A blank entry switches the extension off everywhere: when
    one excluded pattern is empty once lower-cased and trimmed,
    [isUrlExcluded] is true for every URL whose host can be read,
    since every string includes the empty string. It throws when the
    URL cannot be parsed, and only the empty list is answered before
    the URL is looked at. *)
Theorem blank_entry_excludes_every_page hostname currentUrl excludedUrls excludedPattern :
  excludedPattern ∈ excludedUrls →
  trim (toLowerCase excludedPattern) = [] →
  isUrlExcluded (Some hostname) currentUrl excludedUrls = Returns true ∧
  isUrlExcluded None currentUrl excludedUrls = Throws ∧
  isUrlExcluded None currentUrl [] = Returns false.
Proof.
  intros Hin Hblank. unfold isUrlExcluded.
  destruct excludedUrls as [|p l]; [by apply elem_of_nil in Hin|]. cbn [length Nat.eqb].
  split_and!; [|done..]. f_equal. apply existsb_exists. exists excludedPattern.
  split; [by apply list_elem_of_In|]. by rewrite Hblank, includes_empty.
Qed.

(** ** Practice mode after a rewrite *)

Lemma tryAlternatives_finds r s p alts alt :
  alt ∈ alts → alternativeAt r s p alt = true → ∃ e, tryAlternatives r s p alts = Some e.
Proof.
  induction alts as [|a alts IH]; intros Hin Ha; [by apply elem_of_nil in Hin|].
  cbn [tryAlternatives]. destruct (alternativeAt r s p a) eqn:E; [by eexists|].
  apply elem_of_cons in Hin as [->|Hin]; [congruence|by apply IH].
Qed.

Lemma matched_word_matches r s ms m :
  ignoreCase r = false → wordBoundary r = false →
  execAll r s = Some ms → m ∈ ms → test r (text m) = true.
Proof.
  intros Hic Hwb Hms Hm.
  destruct (caseSensitive_match r s ms m Hic Hms Hm) as (alt & Halt & Htext).
  destruct (tryAlternatives_finds r (text m) 0 (group r) alt Halt) as [e He].
  { unfold alternativeAt. rewrite Hic, Hwb, Htext. cbn [negb orb].
    change (drop 0 (unescape alt)) with (unescape alt).
    rewrite <- (app_nil_r (unescape alt)) at 2. by rewrite prefixMatch_refl. }
  unfold test, exec. rewrite Nat.sub_0_r. by rewrite (scanFrom_first r (text m) 0 _ e He).
Qed.

Lemma highlightLoop_parts originalText ms l st :
  l ⊆ ms →
  (∀ c, c ∈ fragment st → (∃ t, c = NewText t) ∨ ∃ m, m ∈ ms ∧ c = knownSpan (text m)) →
  ∀ c, c ∈ fragment (fold_left (highlightStep originalText) l st) →
       (∃ t, c = NewText t) ∨ ∃ m, m ∈ ms ∧ c = knownSpan (text m).
Proof.
  revert st. induction l as [|m l IH]; intros st Hsub Hst; [done|].
  cbn [fold_left]. apply IH; [intros x Hx; apply Hsub; by right|].
  cbn [highlightStep fragment]. intros c [Hc|Hc]%elem_of_app.
  - unfold appendTextBefore in Hc. destruct (lastIndex st <? index m); [|by apply Hst].
    apply elem_of_app in Hc as [Hc|Hc]; [by apply Hst|].
    apply list_elem_of_singleton in Hc. left. by eexists.
  - apply list_elem_of_singleton in Hc. right. exists m. split; [apply Hsub; left|done].
Qed.

Lemma highlightFragment_parts originalText pattern frag :
  highlightFragment originalText pattern = Returns frag →
  ∃ ms, execAll pattern originalText = Some ms ∧
        ∀ c, c ∈ frag → (∃ t, c = NewText t) ∨ ∃ m, m ∈ ms ∧ c = knownSpan (text m).
Proof.
  unfold highlightFragment. destruct (execAll pattern originalText) as [ms|] eqn:E; [|done].
  intros [= <-]. exists ms. split; [done|]. intros c Hc.
  assert (Hloop : ∀ c, c ∈ fragment (fold_left (highlightStep originalText) ms emptyBuilder) →
                       (∃ t, c = NewText t) ∨ ∃ m, m ∈ ms ∧ c = knownSpan (text m)).
  { apply highlightLoop_parts; [done|]. intros c' Hc'. by apply elem_of_nil in Hc'. }
  unfold appendRemaining in Hc. destruct (_ <? _); [|by apply Hloop].
  apply elem_of_app in Hc as [Hc|Hc]; [by apply Hloop|].
  apply list_elem_of_singleton in Hc. left. by eexists.
Qed.

Lemma empty_alternative_matches r s p alt :
  wordBoundary r = false → alt ∈ group r → unescape alt = [] →
  ∃ e, matchAt r s p = Some e.
Proof.
  intros Hwb Hin He. apply (tryAlternatives_finds r s p (group r) alt Hin).
  unfold alternativeAt. by rewrite Hwb, He.
Qed.

Lemma execLoop_everywhere fuel r s lastIdx :
  (∀ p, ∃ e, matchAt r s p = Some e) → lastIdx ≤ length s →
  execLoop fuel r s lastIdx = None.
Proof.
  intros Hall. revert lastIdx. induction fuel as [|fuel IH]; intros lastIdx Hle; [done|].
  cbn [execLoop]. destruct (Hall lastIdx) as [e He].
  assert (Hex : exec r s lastIdx = Some (lastIdx, e)).
  { unfold exec. replace (S (length s) - lastIdx) with (S (length s - lastIdx)) by lia.
    by apply scanFrom_first. }
  rewrite Hex. destruct (e =? lastIdx); [done|].
  apply exec_Some in Hex as (_ & _ & Hlen & _). by rewrite IH.
Qed.

(** A pattern without [\b] whose loop over a text ends has no empty
    alternative: an empty alternative matches at every offset. *)
Lemma execAll_Some_nonEmpty r s ms :
  wordBoundary r = false → execAll r s = Some ms → nonEmptyAlternatives r.
Proof.
  intros Hwb Hms. apply Forall_forall. intros alt Hin He.
  unfold execAll in Hms. rewrite execLoop_everywhere in Hms; [done| |lia].
  intros p. by eapply empty_alternative_matches.
Qed.

Lemma prefixMatch_take ic lit n rest :
  prefixMatch ic lit (take n rest) = true → prefixMatch ic lit rest = true.
Proof.
  revert n rest. induction lit as [|c lit IH]; intros [|n] [|d rest]; cbn; try done.
  intros [-> H]%andb_true_iff. cbn. by eapply IH.
Qed.

Lemma prefixMatch_take_self ic lit rest :
  prefixMatch ic lit rest = true → prefixMatch ic lit (take (length lit) rest) = true.
Proof.
  revert rest. induction lit as [|c lit IH]; intros [|d rest]; cbn; try done.
  intros [-> H]%andb_true_iff. cbn. by apply IH.
Qed.

(** The alternative that decides a match in the text decides the match
    at the start of the matched word too. *)
Lemma tryAlternatives_word r s p alts e :
  wordBoundary r = false → tryAlternatives r s p alts = Some e →
  tryAlternatives r (slice s p e) 0 alts = Some (e - p).
Proof.
  intros Hwb. induction alts as [|alt alts IH]; cbn [tryAlternatives]; [done|].
  unfold alternativeAt. rewrite Hwb. cbn [negb orb]. rewrite !andb_true_r, drop_0.
  destruct (prefixMatch (ignoreCase r) (unescape alt) (drop p s)) eqn:E.
  - intros [= <-]. rewrite slice_plus, (prefixMatch_take_self _ _ _ E). f_equal. lia.
  - intros H. destruct (prefixMatch (ignoreCase r) (unescape alt) (slice s p e)) eqn:E2.
    + unfold slice in E2. apply prefixMatch_take in E2. congruence.
    + by apply IH.
Qed.

Lemma matchAt_end r s : nonEmptyAlternatives r → matchAt r s (length s) = None.
Proof.
  unfold nonEmptyAlternatives, matchAt.
  induction 1 as [|alt alts Hne _ IH]; cbn [tryAlternatives]; [done|].
  unfold alternativeAt. rewrite drop_all.
  destruct (unescape alt) as [|c lit]; [done|]. cbn [prefixMatch andb]. exact IH.
Qed.

Lemma execLoop_matchAt fuel r s lastIdx ms :
  execLoop fuel r s lastIdx = Some ms →
  Forall (fun m => matchAt r s (index m) = Some (endIndex m)) ms.
Proof.
  revert lastIdx ms. induction fuel as [|fuel IH]; intros lastIdx ms; cbn [execLoop]; [done|].
  destruct (exec r s lastIdx) as [[i e]|] eqn:E; [|intros [= <-]; constructor].
  destruct (e =? i); [done|].
  destruct (execLoop fuel r s e) as [ms'|] eqn:El; [|done]. intros [= <-].
  constructor; [|by eapply IH]. cbn [index endIndex].
  unfold exec in E. by apply scanFrom_Some in E as (_ & _ & E).
Qed.

(** A matched word, taken as a text of its own, has one match: itself. *)
Lemma matched_word_whole r s ms m :
  wordBoundary r = false → execAll r s = Some ms → m ∈ ms →
  execAll r (text m) = Some [mkMatch (text m) 0 (length (text m))].
Proof.
  intros Hwb Hms Hm.
  pose proof (execAll_Some_nonEmpty r s ms Hwb Hms) as Hne.
  pose proof (execLoop_matchAt _ _ _ _ _ Hms) as Hat.
  pose proof (execLoop_inText _ _ _ _ _ Hms) as Hin.
  rewrite Forall_forall in Hat, Hin.
  specialize (Hat m Hm). destruct (Hin m Hm) as [(Hlt & Hlen & Htext) _].
  apply (tryAlternatives_word r s _ _ _ Hwb) in Hat. rewrite <- Htext in Hat.
  assert (Hw : length (text m) = endIndex m - index m).
  { rewrite Htext. unfold slice. rewrite length_take, length_drop. lia. }
  rewrite <- Hw in Hat. set (w := text m) in *.
  destruct (length w) as [|k] eqn:Ek; [lia|]. rewrite <- Ek in *.
  unfold execAll. rewrite Ek at 1. cbn [execLoop].
  assert (H0 : exec r w 0 = Some (0, length w)).
  { unfold exec. rewrite Nat.sub_0_r. by apply scanFrom_first. }
  rewrite H0. replace (length w =? 0) with false by (symmetry; apply Nat.eqb_neq; lia).
  assert (H1 : exec r w (length w) = None).
  { unfold exec. replace (S (length w) - length w) with 1 by lia.
    cbn [scanFrom]. by rewrite matchAt_end. }
  rewrite H1. do 3 f_equal. unfold slice. by rewrite Nat.sub_0_r, drop_0, firstn_all.
Qed.

Lemma highlightFragment_word r s ms m :
  wordBoundary r = false → execAll r s = Some ms → m ∈ ms →
  highlightFragment (text m) r = Returns [knownSpan (text m)].
Proof.
  intros Hwb Hms Hm. unfold highlightFragment.
  rewrite (matched_word_whole r s ms m Hwb Hms Hm). cbn [fold_left].
  unfold highlightStep, appendRemaining, appendTextBefore, emptyBuilder.
  cbn [fragment lastIndex index endIndex text app].
  by rewrite Nat.ltb_irrefl.
Qed.

(** X17. Practice mode is not stable under a second pass: the span that
    [highlightKnownWords] puts around a known word carries no attribute
    the walker skips, and the text inside it is a node that matches the
    pattern again as a whole; so when [translateUnknownWords] runs once
    more (every refresh of the translations runs it), a span whose word
    is not white space comes back with its text node replaced by a
    further span of the same kind around the same word, and the old text
    node is marked processed. *)
Theorem practice_second_pass_wraps_again originalText st frag next n :
  highlightFragment originalText (practicePattern (knownWords st)) = Returns frag →
  n ∈ fst (attachAll next frag) → isElement n = true →
  acceptedBelow [] n ≠ [] →
  (∀ id t, (id, t) ∈ acceptedBelow [] n → id ∉ processedNodes st) →
  ∃ id textNode matchedWord,
    n = ElementNode id (js "SPAN")
          [(js "class", js "lang-learner-known");
           (js "data-known", js "true"); (js "title", js "Known word")]
          [TextNode textNode matchedWord] ∧
    translateUnknownWords n [] st
    = Returns
        (ElementNode id (js "SPAN")
           [(js "class", js "lang-learner-known");
            (js "data-known", js "true"); (js "title", js "Known word")]
           [ElementNode (nextNode st) (js "SPAN")
              [(js "class", js "lang-learner-known");
               (js "data-known", js "true"); (js "title", js "Known word")]
              [TextNode (S (nextNode st)) matchedWord]],
         withProcessed (withNextNode st (S (S (nextNode st))))
           ({[ textNode ]} ∪ processedNodes st)).
Proof.
  intros (ms & Hms & Hparts)%highlightFragment_parts (next' & c & Hc & ->)%attachAll_app.
  destruct (Hparts c Hc) as [[t ->]|(m & Hm & ->)]; [done|]. intros _.
  pose proof (matched_word_matches (practicePattern (knownWords st)) _ _ _
                eq_refl eq_refl Hms Hm) as Htest.
  pose proof (highlightFragment_word (practicePattern (knownWords st)) _ _ _
                eq_refl Hms Hm) as Hfrag.
  assert (Hkw : (length (knownWords st) =? 0) = false).
  { destruct (caseSensitive_match (practicePattern (knownWords st)) _ _ _
                eq_refl Hms Hm) as (alt & Halt & _).
    destruct (knownWords st); [by apply elem_of_nil in Halt|done]. }
  unfold knownSpan in *.
  change (fst (attachNode next' (NewSpan ?cls (Str ?w) ?a)))
    with (ElementNode next' (js "SPAN") ((js "class", cls) :: a)
            (if bool_decide (w = []) then [] else [TextNode (S next') w])).
  case_bool_decide as Hw; [done|].
  cbn [acceptedBelow flat_map]. rewrite app_nil_r.
  destruct (acceptNode _ (text m)) eqn:Ha; [|done]. intros _ Hnew.
  specialize (Hnew (S next') (text m) ltac:(left)).
  exists next', (S next'), (text m). split; [done|].
  unfold translateUnknownWords. rewrite Hkw. unfold walkTextNodes.
  cbn [walkBelow walkChildren walkerAlive]. unfold visitText. rewrite Ha.
  cbn [walkerPage]. unfold practiceCallback.
  rewrite bool_decide_eq_false_2 by done. rewrite Htest.
  unfold highlightKnownWords. rewrite Hfrag.
  unfold replaceInParent. cbn [attachAll].
  change (attachNode (nextNode st) (NewSpan ?cls (Str ?w) ?a))
    with (ElementNode (nextNode st) (js "SPAN") ((js "class", cls) :: a)
            (if bool_decide (w = []) then [] else [TextNode (S (nextNode st)) w]),
          S (S (nextNode st))).
  rewrite bool_decide_eq_false_2 by done.
  cbn [replaceChild nodeId]. rewrite Nat.eqb_refl. cbn [app walkerPage].
  reflexivity.
Qed.

(** ** The translation cache *)

Lemma getOwn_setEntry m key value : getOwn (setEntry m key value) key = Some value.
Proof.
  induction m as [|[k v] m IH]; cbn [setEntry getOwn].
  - by rewrite bool_decide_eq_true_2.
  - case_bool_decide as E; cbn [getOwn].
    + by rewrite bool_decide_eq_true_2.
    + by rewrite bool_decide_eq_false_2.
Qed.

Lemma length_setEntry m key value :
  length (setEntry m key value)
  = match getOwn m key with Some _ => length m | None => S (length m) end.
Proof.
  induction m as [|[k v] m IH]; cbn [setEntry getOwn]; [done|].
  case_bool_decide; [done|]. cbn [length]. rewrite IH. by destruct (getOwn m key).
Qed.

Lemma getOwn_None_keys m key : getOwn m key = None (A:=CacheEntry) ↔ key ∉ keys m.
Proof.
  induction m as [|[k v] m IH]; cbn [getOwn keys map fst].
  - split; [intros _; apply not_elem_of_nil|done].
  - case_bool_decide as E.
    + split; [done|]. intros H. exfalso. apply H. subst. left.
    + rewrite IH. unfold keys. rewrite not_elem_of_cons. split; [by split|by intros []].
Qed.

Lemma getOwn_deleteEntry m key key' :
  getOwn (deleteEntry m key) key'
  = if bool_decide (key' = key) then None else getOwn m key'.
Proof.
  induction m as [|[k v] m IH]; cbn [deleteEntry List.filter getOwn fst].
  - by destruct (bool_decide _).
  - fold (deleteEntry m key). destruct (bool_decide_reflect (k = key)) as [->|Hk]; cbn [negb].
    + rewrite IH. case_bool_decide as E; [done|]. by rewrite bool_decide_eq_false_2.
    + cbn [getOwn]. rewrite IH. destruct (bool_decide_reflect (k = key')) as [->|Hk'].
      * by rewrite bool_decide_eq_false_2.
      * done.
Qed.

Lemma length_deleteEntry_le m key : length (deleteEntry m key) ≤ length m.
Proof.
  induction m as [|[k v] m IH]; cbn [deleteEntry List.filter fst]; [done|].
  fold (deleteEntry m key). destruct (negb _); cbn [length]; lia.
Qed.

Lemma keys_deleteEntry m key k : k ∈ keys (deleteEntry m key) ↔ k ∈ keys m ∧ k ≠ key.
Proof.
  induction m as [|[k0 v] m IH]; cbn [deleteEntry List.filter fst keys map].
  - split; [intros H; by apply elem_of_nil in H|intros [H _]; by apply elem_of_nil in H].
  - fold (deleteEntry m key). fold (keys m).
    destruct (bool_decide_reflect (k0 = key)) as [->|Hk]; cbn [negb].
    + rewrite IH, elem_of_cons. split; [intros [? ?]; by split; [right|]|].
      intros [[->|?] ?]; [done|by split].
    + cbn [map fst]. fold (keys (deleteEntry m key)). rewrite !elem_of_cons, IH.
      split; [intros [->|[? ?]]; split; auto|]. intros [[->|?] ?]; [by left|by right].
Qed.

Lemma NoDup_keys_deleteEntry m key : NoDup (keys m) → NoDup (keys (deleteEntry m key)).
Proof.
  induction m as [|[k0 v] m IH]; cbn [deleteEntry List.filter fst keys map]; [done|].
  fold (deleteEntry m key). fold (keys m). intros [Hk Hm]%NoDup_cons.
  destruct (negb _); [|by apply IH]. cbn [map fst]. fold (keys (deleteEntry m key)).
  apply NoDup_cons. split; [|by apply IH]. rewrite keys_deleteEntry. by intros [? _].
Qed.

Lemma length_deleteEntry_in m key :
  NoDup (keys m) → key ∈ keys m → S (length (deleteEntry m key)) = length m.
Proof.
  induction m as [|[k0 v] m IH]; cbn [deleteEntry List.filter fst keys map].
  { intros _ H. by apply elem_of_nil in H. }
  fold (deleteEntry m key). fold (keys m). intros [Hk Hm]%NoDup_cons Hin.
  destruct (bool_decide_reflect (k0 = key)) as [->|Hne]; cbn [negb length].
  - f_equal. clear IH Hin Hm. induction m as [|[k1 v1] m IH]; [done|].
    cbn [deleteEntry List.filter fst]. fold (deleteEntry m key).
    cbn [keys map fst] in Hk. fold (keys m) in Hk. apply not_elem_of_cons in Hk as [Hne Hk].
    rewrite bool_decide_eq_false_2 by done. cbn [negb length]. f_equal. by apply IH.
  - f_equal. apply IH; [done|]. apply elem_of_cons in Hin as [?|?]; [congruence|done].
Qed.

Lemma length_deleteAll (items : list (jsstring * Z)) m :
  NoDup (keys m) → NoDup (map fst items) → (∀ k, k ∈ map fst items → k ∈ keys m) →
  length (fold_left (fun m item => deleteEntry m (fst item)) items m) + length items
  = length m.
Proof.
  revert m. induction items as [|[k t] items IH]; intros m Hm Hi Hsub; cbn [fold_left].
  { cbn. lia. }
  cbn [map fst] in Hi. apply NoDup_cons in Hi as [Hk Hi]. cbn [fst length].
  rewrite <- (length_deleteEntry_in m k Hm); [|apply Hsub; left].
  rewrite <- (IH (deleteEntry m k)); [lia|by apply NoDup_keys_deleteEntry|done|].
  intros k' Hk'. apply keys_deleteEntry. split; [apply Hsub; by right|].
  intros ->. done.
Qed.

Lemma insertByTimestamp_Permutation e sorted : insertByTimestamp e sorted ≡ₚ e :: sorted.
Proof.
  induction sorted as [|x rest IH]; cbn [insertByTimestamp]; [done|].
  destruct (_ <=? _)%Z; [done|]. rewrite IH. apply perm_swap.
Qed.

Lemma sortByTimestamp_Permutation l : sortByTimestamp l ≡ₚ l.
Proof.
  induction l as [|e rest IH]; cbn [sortByTimestamp]; [done|].
  by rewrite insertByTimestamp_Permutation, IH.
Qed.

Lemma length_limitPersistent p :
  NoDup (keys p) → length (limitPersistent p) ≤ maxCacheSize.
Proof.
  intros Hp. unfold limitPersistent.
  assert (Hk : length (keys p) = length p) by (unfold keys; apply length_map).
  rewrite Hk. destruct (Nat.ltb_spec maxCacheSize (length p)) as [Hlt|Hle]; [|done].
  set (sorted := sortByTimestamp (map (fun kv => (fst kv, timestamp (snd kv))) p)).
  assert (Hperm : map fst sorted ≡ₚ keys p).
  { unfold sorted. rewrite sortByTimestamp_Permutation. unfold keys.
    by rewrite map_map. }
  assert (Hlen : length sorted = length p).
  { by rewrite <- (length_map fst sorted), Hperm. }
  pose proof (length_deleteAll (take (length p - maxCacheSize) sorted) p Hp) as Hall.
  rewrite length_take in Hall.
  assert (length (fold_left (fun m item => deleteEntry m (fst item))
                    (take (length p - maxCacheSize) sorted) p)
          + (length p - maxCacheSize) `min` length sorted = length p) as Hsum.
  { apply Hall.
    - assert (Hnd : NoDup (map fst sorted)) by (by rewrite Hperm).
      rewrite <- (take_drop (length p - maxCacheSize) sorted), map_app in Hnd.
      by apply NoDup_app in Hnd as [? _].
    - intros k Hk'. rewrite <- Hperm.
      rewrite <- (take_drop (length p - maxCacheSize) sorted), map_app.
      apply elem_of_app. by left. }
  lia.
Qed.

Lemma NoDup_keys_setEntry m key value : NoDup (keys m) → NoDup (keys (setEntry m key value)).
Proof.
  induction m as [|[k v] m IH]; cbn [setEntry keys map fst].
  { intros _. apply NoDup_singleton. }
  fold (keys m). intros [Hk Hm]%NoDup_cons. case_bool_decide as E.
  - cbn [map fst]. fold (keys m). subst. by apply NoDup_cons.
  - cbn [map fst]. fold (keys (setEntry m key value)). apply NoDup_cons. split; [|by apply IH].
    clear IH Hm. induction m as [|[k1 v1] m IH]; cbn [setEntry keys map fst].
    + by apply not_elem_of_cons.
    + cbn [keys map fst] in Hk. fold (keys m) in Hk. apply not_elem_of_cons in Hk as [? ?].
      case_bool_decide; cbn [map fst]; fold (keys m); fold (keys (setEntry m key value));
        apply not_elem_of_cons; split; try done. by apply IH.
Qed.

Lemma cacheTranslation_memory now cacheKey translation api :
  length (translationCache api) ≤ 1000 →
  getOwn (translationCache (cacheTranslation now cacheKey translation api)) cacheKey
  = Some (mkCacheEntry translation now) ∧
  length (translationCache (cacheTranslation now cacheKey translation api)) ≤ 1000.
Proof.
  intros Hlen. unfold cacheTranslation. cbn [translationCache].
  set (e := mkCacheEntry translation now).
  pose proof (getOwn_setEntry (translationCache api) cacheKey e) as Hget.
  pose proof (length_setEntry (translationCache api) cacheKey e) as Hl.
  destruct (Nat.ltb_spec 1000 (length (setEntry (translationCache api) cacheKey e))) as [Hgt|Hle];
    [|done].
  destruct (getOwn (translationCache api) cacheKey) eqn:Eold; [lia|].
  destruct (translationCache api) as [|[k0 v0] m] eqn:Em; [cbn in *; lia|].
  cbn [getOwn] in Eold. destruct (bool_decide_reflect (k0 = cacheKey)) as [|Hne]; [done|].
  cbn [setEntry] in *. rewrite bool_decide_eq_false_2 in * by done.
  split.
  - rewrite getOwn_deleteEntry. rewrite bool_decide_eq_false_2 by done. exact Hget.
  - cbn [deleteEntry List.filter fst]. rewrite bool_decide_eq_true_2 by done. cbn [negb].
    pose proof (length_deleteEntry_le (setEntry m cacheKey e) k0) as Hd.
    unfold deleteEntry in Hd. cbn [length] in *. lia.
Qed.

(** X21. What was cached is found again: with at most 1000 entries in
    the in-memory cache, a translation stored by [cacheTranslation] is
    returned by [getCachedTranslation] for the same key at any time up
    to 24 hours later, and the lookup leaves both caches as they are. *)
Theorem cached_translation_is_found now later cacheKey translation api :
  length (translationCache api) ≤ 1000 → (later - now ≤ cacheTimeout)%Z →
  getCachedTranslation later cacheKey (cacheTranslation now cacheKey translation api)
  = (Some translation, cacheTranslation now cacheKey translation api).
Proof.
  intros Hlen Hage.
  destruct (cacheTranslation_memory now cacheKey translation api Hlen) as [Hget _].
  unfold getCachedTranslation. rewrite Hget. unfold expired. cbn [timestamp].
  destruct (Z.ltb_spec cacheTimeout (later - now)); [lia|done].
Qed.

(** X22. The limits of the cache: [cacheTranslation] keeps the
    in-memory cache within 1000 entries when it was, and leaves the
    persistent cache within [maxCacheSize] entries whatever its size
    before; but a lookup that finds the key only in the persistent
    cache adds it to the in-memory cache without a check, so a read can
    take the in-memory cache past its limit. *)
Theorem cache_limits now cacheKey translation api :
  (length (translationCache api) ≤ 1000 →
   length (translationCache (cacheTranslation now cacheKey translation api)) ≤ 1000) ∧
  (NoDup (keys (persistentCache api)) →
   length (persistentCache (cacheTranslation now cacheKey translation api)) ≤ maxCacheSize ∧
   NoDup (keys (persistentCache (cacheTranslation now cacheKey translation api)))) ∧
  (∀ entry,
     getOwn (translationCache api) cacheKey = None →
     getOwn (persistentCache api) cacheKey = Some entry →
     expired now entry = false →
     length (translationCache (snd (getCachedTranslation now cacheKey api)))
     = S (length (translationCache api))).
Proof.
  split_and!.
  - intros Hlen. by apply cacheTranslation_memory.
  - intros Hnd. unfold cacheTranslation. cbn [persistentCache].
    pose proof (NoDup_keys_setEntry (persistentCache api) cacheKey
                  (mkCacheEntry translation now) Hnd) as Hnd'.
    split; [by apply length_limitPersistent|].
    unfold limitPersistent. destruct (_ <? _); [|done].
    generalize (take (length (keys (setEntry (persistentCache api) cacheKey
                                      (mkCacheEntry translation now))) - maxCacheSize)
                  (sortByTimestamp
                     (map (fun kv => (fst kv, timestamp (snd kv)))
                        (setEntry (persistentCache api) cacheKey
                           (mkCacheEntry translation now))))).
    intros items. revert Hnd'.
    generalize (setEntry (persistentCache api) cacheKey (mkCacheEntry translation now)).
    induction items as [|item items IH]; intros m Hm; cbn [fold_left]; [done|].
    by apply IH, NoDup_keys_deleteEntry.
  - intros entry Hmem Hstore Hfresh. unfold getCachedTranslation.
    rewrite Hmem, Hstore, Hfresh. cbn [snd translationCache].
    by rewrite length_setEntry, Hmem.
Qed.

(** X23. No stale translation is returned: whatever
    [getCachedTranslation] returns is the translation of an entry of
    one of the two caches under that key, stored at most 24 hours
    before. *)
Theorem stale_translation_is_never_returned now cacheKey api translation api' :
  getCachedTranslation now cacheKey api = (Some translation, api') →
  ∃ entry,
    (getOwn (translationCache api) cacheKey = Some entry ∨
     getOwn (persistentCache api) cacheKey = Some entry) ∧
    cachedTranslation entry = translation ∧
    (now - timestamp entry ≤ cacheTimeout)%Z.
Proof.
  unfold getCachedTranslation.
  assert (Hstore : ∀ memory,
    match getOwn (persistentCache api) cacheKey with
    | Some cached =>
        if expired now cached
        then (None, mkTranslatorAPI memory (deleteEntry (persistentCache api) cacheKey))
        else (Some (cachedTranslation cached),
              mkTranslatorAPI (setEntry memory cacheKey cached) (persistentCache api))
    | None => (None, mkTranslatorAPI memory (persistentCache api))
    end = (Some translation, api') →
    ∃ entry, getOwn (persistentCache api) cacheKey = Some entry ∧
             cachedTranslation entry = translation ∧
             (now - timestamp entry ≤ cacheTimeout)%Z).
  { intros memory. destruct (getOwn (persistentCache api) cacheKey) as [c|]; [|done].
    destruct (expired now c) eqn:E; [done|]. intros [= <- _].
    exists c. split_and!; [done..|]. unfold expired in E. by apply Z.ltb_ge in E. }
  destruct (getOwn (translationCache api) cacheKey) as [m|] eqn:Em.
  - destruct (expired now m) eqn:E.
    + cbn [persistentCache translationCache]. intros H.
      destruct (Hstore _ H) as (entry & ? & ? & ?). exists entry. by split_and!; [right|..].
    + intros [= <- _]. exists m. split_and!; [by left|done|].
      unfold expired in E. by apply Z.ltb_ge in E.
  - destruct api as [memory persistent]. cbn [persistentCache translationCache] in *.
    intros H. destruct (Hstore memory H) as (entry & ? & ? & ?).
    exists entry. by split_and!; [right|..].
Qed.

Lemma rev_cacheKeyOf text sourceLang targetLang :
  rev (cacheKeyOf text sourceLang targetLang)
  = rev targetLang ++ 58%N :: rev sourceLang ++ 58%N :: rev text.
Proof.
  unfold cacheKeyOf. change (js ":") with [58%N].
  rewrite !rev_app_distr. cbn [rev app]. by rewrite <- !app_assoc.
Qed.

(** X24. The cache key tells requests apart: when the language codes
    hold no colon, two requests with the same key
    [`${text}:${sourceLang}:${targetLang}`] have the same text, source
    and target language, also for texts with colons. *)
Theorem cache_keys_tell_requests_apart text1 sourceLang1 targetLang1
    text2 sourceLang2 targetLang2 :
  58%N ∉ sourceLang1 → 58%N ∉ targetLang1 → 58%N ∉ sourceLang2 → 58%N ∉ targetLang2 →
  cacheKeyOf text1 sourceLang1 targetLang1 = cacheKeyOf text2 sourceLang2 targetLang2 →
  text1 = text2 ∧ sourceLang1 = sourceLang2 ∧ targetLang1 = targetLang2.
Proof.
  intros Hs1 Ht1 Hs2 Ht2 E. apply (f_equal (@rev N)) in E.
  rewrite !rev_cacheKeyOf in E.
  assert (Hrev : ∀ l : jsstring, 58%N ∉ l → 58%N ∉ rev l).
  { intros l Hl Hin. apply Hl. rewrite list_elem_of_In in *. by apply in_rev. }
  apply (split_at_separator 58%N) in E as [Et E];
    [|by apply Hrev|by apply Hrev|right; by eexists|right; by eexists].
  injection E as E.
  apply (split_at_separator 58%N) in E as [Es E];
    [|by apply Hrev|by apply Hrev|right; by eexists|right; by eexists].
  injection E as E.
  split_and!.
  - by rewrite <- (rev_involutive text1), E, rev_involutive.
  - by rewrite <- (rev_involutive sourceLang1), Es, rev_involutive.
  - by rewrite <- (rev_involutive targetLang1), Et, rev_involutive.
Qed.

(** ** The text runs of a rewrite hold no further match *)

Lemma scanFrom_None r s p n :
  scanFrom r s p n = None → ∀ q, p ≤ q → q < p + n → matchAt r s q = None.
Proof.
  revert p. induction n as [|n IH]; intros p; cbn [scanFrom]; [lia|].
  destruct (matchAt r s p) eqn:E; [done|]. intros H q Hpq Hq.
  destruct (decide (q = p)) as [->|]; [done|]. apply (IH (S p)); [done|lia..].
Qed.

Lemma scanFrom_None_all r s p n :
  (∀ q, p ≤ q → q < p + n → matchAt r s q = None) → scanFrom r s p n = None.
Proof.
  revert p. induction n as [|n IH]; intros p H; cbn [scanFrom]; [done|].
  rewrite (H p) by lia. apply IH. intros q ? ?. apply H; lia.
Qed.

Lemma scanFrom_before r s p n i e :
  scanFrom r s p n = Some (i, e) → ∀ q, p ≤ q → q < i → matchAt r s q = None.
Proof.
  revert p. induction n as [|n IH]; intros p; cbn [scanFrom]; [done|].
  destruct (matchAt r s p) eqn:E.
  - intros [= <- <-] q ? ?. lia.
  - intros H q Hpq Hq. destruct (decide (q = p)) as [->|]; [done|].
    apply (IH (S p)); [done|lia..].
Qed.

(** Between the matches of one pattern, and after the last, the pattern
    matches at no offset. *)
Lemma execLoop_free fuel r s lastIdx ms :
  execLoop fuel r s lastIdx = Some ms →
  ∀ p, lastIdx ≤ p → p ≤ length s →
       (∀ m, m ∈ ms → p < index m ∨ endIndex m ≤ p) → matchAt r s p = None.
Proof.
  revert lastIdx ms. induction fuel as [|fuel IH]; intros lastIdx ms; cbn [execLoop]; [done|].
  destruct (exec r s lastIdx) as [[i e]|] eqn:E.
  - destruct (e =? i); [done|].
    destruct (execLoop fuel r s e) as [ms'|] eqn:El; [|done].
    intros [= <-] p Hp Hlen Hfree.
    destruct (Hfree (mkMatch (slice s i e) i e) ltac:(left)) as [Hlt|Hge].
    + cbn in Hlt. unfold exec in E. by eapply scanFrom_before.
    + cbn in Hge. apply (IH e ms' El p Hge Hlen). intros m Hm. apply Hfree. by right.
  - intros _ p Hp Hlen _. unfold exec in E. eapply scanFrom_None; [exact E|done|lia].
Qed.

Lemma insertByIndex_head m l :
  Forall (fun x => index m ≤ index x) l → insertByIndex m l = m :: l.
Proof.
  destruct l as [|x l]; [done|]. intros [Hx _]%Forall_cons. cbn [insertByIndex].
  by destruct (Nat.leb_spec (index m) (index x)); [|lia].
Qed.

Lemma sortByIndex_id l : StronglySorted before l → sortByIndex l = l.
Proof.
  induction 1 as [|m l Hl IH Hm]; [done|]. cbn [sortByIndex]. rewrite IH.
  apply insertByIndex_head. eapply Forall_impl; [exact Hm|]. intros x [? _]. lia.
Qed.

Lemma keepFrom_id bound l :
  StronglySorted before l →
  (∀ e, bound = Some e → Forall (fun m => e ≤ index m) l) →
  keepFrom bound l = l.
Proof.
  intros Hs. revert bound. induction Hs as [|m l Hl IH Hm]; intros bound Hb; [done|].
  assert (Hrest : keepFrom (Some (endIndex m)) l = l).
  { apply IH. intros e [= <-]. eapply Forall_impl; [exact Hm|]. by intros x [_ ?]. }
  cbn [keepFrom]. destruct bound as [e|]; [|by rewrite Hrest].
  specialize (Hb e eq_refl). apply Forall_cons in Hb as [Hb _].
  destruct (Nat.leb_spec e (index m)); [by rewrite Hrest|lia].
Qed.

(** With one pattern, the resolved matches are all its matches. *)
Lemma resolveMatches_single s r um :
  resolveMatches s [r] = Some um → execAll r s = Some um.
Proof.
  unfold resolveMatches. cbn [collectMatches].
  destruct (execAll r s) as [ms|] eqn:E; [|done]. intros [= <-].
  rewrite app_nil_r. pose proof (execLoop_sorted _ _ _ _ _ E) as Hs.
  rewrite sortByIndex_id, uniqueMatchesOf_eq, keepFrom_id; done.
Qed.

Lemma wordAt_slice s a b i : i < b - a → b ≤ length s → wordAt (slice s a b) i = wordAt s (a + i).
Proof.
  intros Hi Hb. unfold wordAt, slice, jsstring.
  rewrite lookup_take_lt by done. by rewrite lookup_drop.
Qed.

Lemma wordAt_slice_end s a b i : b - a ≤ i → wordAt (slice s a b) i = false.
Proof.
  intros Hi. unfold wordAt, slice, jsstring. rewrite lookup_ge_None_2; [done|].
  rewrite length_take. lia.
Qed.

Lemma wordAt_end s i : length s ≤ i → wordAt s i = false.
Proof. intros Hi. unfold wordAt, jsstring. by rewrite lookup_ge_None_2. Qed.

(** A boundary inside a gap is a boundary of the text, when the ends of
    the gap are boundaries or ends of the text. *)
Lemma isBoundary_slice s a b i :
  a ≤ b → b ≤ length s → i ≤ b - a →
  (a = 0 ∨ isBoundary s a = true) → (b = length s ∨ isBoundary s b = true) →
  isBoundary (slice s a b) i = true → isBoundary s (a + i) = true.
Proof.
  intros Hab Hb Hi Ha Hbe. unfold isBoundary at 1.
  destruct (decide (i = b - a)) as [->|Hlt].
  - rewrite (wordAt_slice_end s a b (b - a)) by lia.
    replace (a + (b - a)) with b by lia.
    destruct (b - a) as [|q] eqn:Eq.
    { done. }
    rewrite wordAt_slice by lia. rewrite xorb_false_r. intros Hw.
    destruct Hbe as [->|?]; [|done]. unfold isBoundary.
    replace (length s) with (S (a + q)) by lia.
    rewrite Hw, wordAt_end by lia. done.
  - rewrite (wordAt_slice s a b i) by lia. destruct i as [|q].
    + rewrite Nat.add_0_r. cbn [xorb]. intros Hw.
      destruct Ha as [->|?]; [|done]. unfold isBoundary. by rewrite Hw.
    + rewrite wordAt_slice by lia. unfold isBoundary.
      replace (a + S q) with (S (a + q)) by lia. done.
Qed.

Lemma alternativeAt_slice r s a b i alt :
  a ≤ b → b ≤ length s → i ≤ b - a → unescape alt ≠ [] →
  (a = 0 ∨ isBoundary s a = true) → (b = length s ∨ isBoundary s b = true) →
  alternativeAt r (slice s a b) i alt = true →
  alternativeAt r s (a + i) alt = true ∧ i < b - a.
Proof.
  intros Hab Hb Hi Hne Ha Hbe. unfold alternativeAt.
  intros [Hp Hbd]%andb_true_iff.
  pose proof (prefixMatch_length _ _ _ Hp) as Hlen.
  unfold slice in Hp, Hlen. rewrite skipn_firstn_comm in Hp, Hlen.
  rewrite length_take, length_drop, length_drop in Hlen.
  assert (0 < length (unescape alt)) by (destruct (unescape alt); [done|cbn; lia]).
  split; [|lia]. apply andb_true_iff. split.
  - rewrite drop_drop in Hp. by eapply prefixMatch_take.
  - destruct (wordBoundary r); cbn [negb orb] in *; [|done].
    apply andb_true_iff in Hbd as [H1 H2]. apply andb_true_iff. split.
    + by apply (isBoundary_slice s a b i).
    + rewrite <- Nat.add_assoc.
      apply (isBoundary_slice s a b (i + length (unescape alt))); [done|done|lia|done..].
Qed.

Lemma matchAt_slice r s a b i e :
  a ≤ b → b ≤ length s → i ≤ b - a → nonEmptyAlternatives r →
  (a = 0 ∨ isBoundary s a = true) → (b = length s ∨ isBoundary s b = true) →
  matchAt r (slice s a b) i = Some e →
  i < b - a ∧ ∃ e', matchAt r s (a + i) = Some e'.
Proof.
  intros Hab Hb Hi Hne Ha Hbe (alt & Halt & Hat & _)%tryAlternatives_Some.
  unfold nonEmptyAlternatives in Hne. rewrite Forall_forall in Hne.
  destruct (alternativeAt_slice r s a b i alt Hab Hb Hi (Hne alt Halt) Ha Hbe Hat) as [H1 H2].
  split; [done|]. by eapply tryAlternatives_finds.
Qed.

Lemma execLoop_boundaries fuel r s lastIdx ms m :
  wordBoundary r = true → execLoop fuel r s lastIdx = Some ms → m ∈ ms →
  isBoundary s (index m) = true ∧ isBoundary s (endIndex m) = true.
Proof.
  intros Hwb Hms Hm. pose proof (execLoop_alternative _ _ _ _ _ Hms) as Hall.
  rewrite Forall_forall in Hall. destruct (Hall m Hm) as (alt & _ & Hat & -> & _).
  unfold alternativeAt in Hat. rewrite Hwb in Hat. cbn [negb orb] in Hat.
  by apply andb_true_iff in Hat as [_ [? ?]%andb_true_iff].
Qed.

(** A gap between the matches of a pattern holds no match of it. *)
Lemma gap_holds_no_match r s um t :
  wordBoundary r = true → nonEmptyAlternatives r →
  execAll r s = Some um → matchGap s um t → test r t = false.
Proof.
  intros Hwb Hne Hum (a & b & -> & Hab & Hb & Ha & Hbe & Hfree).
  assert (Ha' : a = 0 ∨ isBoundary s a = true).
  { destruct Ha as [?|(m & Hm & <-)]; [by left|right].
    by destruct (execLoop_boundaries _ _ _ _ _ m Hwb Hum Hm). }
  assert (Hb' : b = length s ∨ isBoundary s b = true).
  { destruct Hbe as [?|(m & Hm & <-)]; [by left|right].
    by destruct (execLoop_boundaries _ _ _ _ _ m Hwb Hum Hm). }
  assert (Hlen : length (slice s a b) = b - a).
  { unfold slice. rewrite length_take, length_drop. lia. }
  unfold test, exec. rewrite scanFrom_None_all; [done|].
  intros q _ Hq. rewrite Hlen in Hq.
  destruct (matchAt r (slice s a b) q) as [e|] eqn:E; [|done]. exfalso.
  destruct (matchAt_slice r s a b q e Hab Hb ltac:(lia) Hne Ha' Hb' E) as [Hlt [e' He']].
  rewrite (execLoop_free _ _ _ _ _ Hum (a + q)) in He'; [done|lia|lia|].
  intros m Hm. destruct (Hfree m Hm); [right|left]; lia.
Qed.

Lemma sorted_ends s um j k a b :
  Forall (inText s) um → StronglySorted before um → j ≤ k →
  um !! j = Some a → um !! k = Some b →
  index a ≤ index b ∧ endIndex a ≤ endIndex b.
Proof.
  intros Hin Hs Hjk Ha Hb. destruct (decide (j = k)) as [->|Hne].
  - rewrite Ha in Hb. injection Hb as <-. lia.
  - destruct (StronglySorted_lookup_lt before um j k a b Hs ltac:(lia) Ha Hb) as [H1 H2].
    rewrite Forall_forall in Hin.
    destruct (Hin b) as (Hb1 & _); [by eapply list_elem_of_lookup_2|]. lia.
Qed.

Lemma gapInv_push s um i st cur fin len span seen :
  Forall (inText s) um → StronglySorted before um →
  gapInv s um i st → lastIndex st ≤ index cur →
  um !! i = Some cur → um !! (i + len - 1) = Some fin → 1 ≤ len →
  (∀ t, span ≠ NewText t) →
  (∀ j, j ∈ seen → j ∈ processedIndices st ∨ (i ≤ j ∧ j < i + len)) →
  gapInv s um (S i)
    (mkBuilder (appendTextBefore s (fragment st) (lastIndex st) (index cur) ++ [span])
               (endIndex fin) seen).
Proof.
  intros Hin Hs (Hg & He & Hd & Hpr) Hle Hcur Hfin Hlen Hspan Hseen.
  pose proof Hin as Hin'. rewrite Forall_forall in Hin'.
  assert (Hcin : inText s cur) by (apply Hin'; by eapply list_elem_of_lookup_2).
  destruct Hcin as (Hc1 & Hc2 & _).
  destruct (sorted_ends s um i (i + len - 1) cur fin Hin Hs ltac:(lia) Hcur Hfin) as [_ Hcf].
  split_and!; cbn [fragment lastIndex processedIndices].
  - intros t [Ht|Ht]%elem_of_app.
    2:{ apply list_elem_of_singleton in Ht. by destruct (Hspan t). }
    unfold appendTextBefore in Ht. destruct (Nat.ltb_spec (lastIndex st) (index cur)).
    2:{ by apply Hg. }
    apply elem_of_app in Ht as [Ht|Ht]; [by apply Hg|].
    apply list_elem_of_singleton in Ht. injection Ht as ->.
    exists (lastIndex st), (index cur). split_and!; [done|lia|lia|done| |].
    + right. exists cur. split; [by eapply list_elem_of_lookup_2|done].
    + intros m [j Hj]%list_elem_of_lookup_1. destruct (decide (j < i)).
      * left. by eapply Hd.
      * right. by destruct (sorted_ends s um i j cur m Hin Hs ltac:(lia) Hcur Hj).
  - right. exists fin. split; [by eapply list_elem_of_lookup_2|done].
  - intros j m Hj Hm. destruct (decide (j = i)) as [->|].
    + rewrite Hcur in Hm. injection Hm as <-. done.
    + specialize (Hd j m ltac:(lia) Hm). lia.
  - intros j m Hj Hm. destruct (Hseen j Hj) as [Hold|[H1 H2]].
    + specialize (Hpr j m Hold Hm). lia.
    + assert (Hjl : j < length um) by (by eapply lookup_lt_Some).
      assert (Hfl : i + len - 1 < length um) by (by eapply lookup_lt_Some).
      by destruct (sorted_ends s um j (i + len - 1) m fin Hin Hs ltac:(lia) Hm Hfin).
Qed.

Lemma compoundStep_gap kw s um st i st' :
  Forall (inText s) um → StronglySorted before um → allKnown kw um →
  pendingAfter um i st → gapInv s um i st →
  compoundStep kw s um (Returns st) i = Returns st' →
  gapInv s um (S i) st'.
Proof.
  intros Hin Hs Hk Hp Hinv. pose proof Hinv as (Hg & He & Hd & Hpr).
  unfold compoundStep. case_bool_decide as Hi.
  { intros [= <-]. split_and!; [done|done| |done]. intros j m Hj Hm.
    destruct (decide (j = i)) as [->|]; [by eapply Hpr|]. apply (Hd j); [lia|done]. }
  destruct (um !! i) as [cur|] eqn:Hcur.
  2:{ intros [= <-]. split_and!; [done|done| |done]. intros j m Hj Hm.
      destruct (decide (j = i)) as [->|]; [congruence|]. apply (Hd j); [lia|done]. }
  assert (Hle : lastIndex st ≤ index cur) by (by eapply Hp).
  assert (Hknown : getProperty kw (toLowerCase (text cur)) ≠ Absent).
  { unfold allKnown in Hk. rewrite Forall_forall in Hk. apply Hk.
    by eapply list_elem_of_lookup_2. }
  destruct (getProperty kw (toLowerCase (text cur))) as [w|name|] eqn:Eg; [..|done].
  all: destruct (if 1 <? _ then _ else _) as [c|] eqn:Ec;
    [destruct (um !! (i + compoundLength c - 1)) as [fin|] eqn:Hfin; [|done]|];
    intros [= <-].
  all: try (apply compoundSome_range in Ec as [Hc2 _];
            apply (gapInv_push s um i st cur fin (compoundLength c));
            [done|done|done|done|done|done|lia|done|];
            intros j [?|Hj%elem_of_list_to_set]%elem_of_union; [by left|];
            apply consumedIndices_elem in Hj; right; lia).
  all: apply (gapInv_push s um i st cur cur 1);
    [done|done|done|done|done|by replace (i + 1 - 1) with i by lia|lia|done|];
    intros j [?|Hj%elem_of_singleton]%elem_of_union; [by left|right; lia].
Qed.

Lemma compoundLoop_gap kw s um k i st units st' :
  Forall (inText s) um → StronglySorted before um → allKnown kw um →
  builderInv s um st units → pendingAfter um i st → gapInv s um i st →
  fold_left (compoundStep kw s um) (seq i k) (Returns st) = Returns st' →
  gapInv s um (i + k) st'.
Proof.
  intros Hin Hs Hk. revert i st units.
  induction k as [|k IH]; intros i st units Hinv Hp Hg; cbn [seq fold_left].
  - intros [= <-]. by rewrite Nat.add_0_r.
  - destruct (compoundStep_inv kw s um st units i Hin Hs Hinv Hp)
      as (st1 & units1 & Hstep & Hinv1 & Hp1).
    rewrite Hstep. replace (i + S k) with (S i + k) by lia.
    apply (IH (S i) st1 units1); [done..|].
    exact (compoundStep_gap kw s um st i st1 Hin Hs Hk Hp Hg Hstep).
Qed.

Lemma simpleLoop_gap kw s um l st :
  Forall (inText s) l → StronglySorted before l → allKnown kw l →
  (∀ m, m ∈ l → m ∈ um) →
  Forall (fun m => lastIndex st ≤ index m) l →
  (∀ m, m ∈ um → m ∈ l ∨ endIndex m ≤ lastIndex st) →
  (lastIndex st = 0 ∨ ∃ m, m ∈ um ∧ endIndex m = lastIndex st) →
  (∀ t, NewText t ∈ fragment st → matchGap s um t) →
  (∀ t, NewText t ∈ fragment (fold_left (simpleStep kw s) l st) → matchGap s um t) ∧
  (lastIndex (fold_left (simpleStep kw s) l st) = 0 ∨
   ∃ m, m ∈ um ∧ endIndex m = lastIndex (fold_left (simpleStep kw s) l st)) ∧
  (∀ m, m ∈ um → endIndex m ≤ lastIndex (fold_left (simpleStep kw s) l st)).
Proof.
  intros Hin Hs. revert st.
  induction Hs as [|cur l Hl IH Hcur]; intros st Hk Hsub Hlast Hdone He Hg; cbn [fold_left].
  { split_and!; [done..|]. intros m Hm. destruct (Hdone m Hm) as [H|H]; [|done].
    by apply elem_of_nil in H. }
  apply Forall_cons in Hin as [(Hc1 & Hc2 & _) Hin].
  apply Forall_cons in Hk as [Hknown Hk]. apply Forall_cons in Hlast as [Hle _].
  rewrite Forall_forall in Hcur.
  assert (Hst1 : simpleStep kw s st cur
                 = mkBuilder (appendTextBefore s (fragment st) (lastIndex st) (index cur)
                                ++ [singleSpan (text cur)
                                      (getProperty kw (toLowerCase (text cur)))])
                             (endIndex cur) (processedIndices st)).
  { unfold simpleStep. by destruct (getProperty kw (toLowerCase (text cur))). }
  rewrite Hst1. apply IH; [done|done|..]; cbn [fragment lastIndex].
  - intros m Hm. apply Hsub. by right.
  - apply Forall_forall. intros m Hm. by destruct (Hcur m Hm).
  - intros m Hm. destruct (Hdone m Hm) as [[->|H]%elem_of_cons|H]; [right|left|right].
    + done.
    + done.
    + lia.
  - right. exists cur. split; [apply Hsub; left|done].
  - intros t [Ht|Ht]%elem_of_app.
    2:{ apply list_elem_of_singleton in Ht. discriminate Ht. }
    unfold appendTextBefore in Ht. destruct (Nat.ltb_spec (lastIndex st) (index cur)).
    2:{ by apply Hg. }
    apply elem_of_app in Ht as [Ht|Ht]; [by apply Hg|].
    apply list_elem_of_singleton in Ht. injection Ht as ->.
    exists (lastIndex st), (index cur). split_and!; [done|lia|lia|done| |].
    + right. exists cur. split; [apply Hsub; left|done].
    + intros m Hm. destruct (Hdone m Hm) as [[->|H']%elem_of_cons|H'].
      * right. lia.
      * right. destruct (Hcur m H'). lia.
      * by left.
Qed.

Lemma appendRemaining_gap s um st :
  (∀ t, NewText t ∈ fragment st → matchGap s um t) →
  (lastIndex st = 0 ∨ ∃ m, m ∈ um ∧ endIndex m = lastIndex st) →
  (∀ m, m ∈ um → endIndex m ≤ lastIndex st) →
  ∀ t, NewText t ∈ appendRemaining s st → matchGap s um t.
Proof.
  intros Hg He Hdone t. unfold appendRemaining.
  destruct (Nat.ltb_spec (lastIndex st) (length s)); [|by apply Hg].
  intros [Ht|Ht]%elem_of_app; [by apply Hg|].
  apply list_elem_of_singleton in Ht. injection Ht as ->.
  exists (lastIndex st), (length s). split_and!; [|lia|done|done|by left|].
  - unfold sliceFrom, slice. by rewrite take_ge by (rewrite length_drop; lia).
  - intros m Hm. left. by apply Hdone.
Qed.

(** The text runs of a fragment are gaps between the resolved matches,
    when every match is a word of the vocabulary. *)
Lemma buildFragment_gaps fcl kw s patterns um frag :
  resolveMatches s patterns = Some um → allKnown kw um →
  buildFragment fcl kw s patterns = Returns frag →
  ∀ t, NewText t ∈ frag → matchGap s um t.
Proof.
  intros Hum Hk. unfold buildFragment. rewrite Hum.
  destruct (resolveMatches_spec _ _ _ Hum) as [Hin Hs].
  unfold fragmentOf. destruct (fcl && (0 <? length um)).
  - destruct (fold_left _ _ _) as [st| |] eqn:E; [|done..]. intros [= <-].
    destruct (compoundLoop_gap kw s um (length um) 0 emptyBuilder [] st Hin Hs Hk)
      as (Hg & He & Hd & _); [apply builderInv_empty| | |exact E|].
    { intros j m _ _ _. cbn. lia. }
    { split_and!; cbn; [|by left|lia|].
      - intros t Ht. by apply elem_of_nil in Ht.
      - intros j m Hj. by apply not_elem_of_empty in Hj. }
    apply appendRemaining_gap; [done|done|].
    intros m [j Hj]%list_elem_of_lookup_1. apply (Hd j m); [|done].
    cbn. by eapply lookup_lt_Some.
  - intros [= <-].
    destruct (simpleLoop_gap kw s um um emptyBuilder Hin Hs Hk) as (Hg & He & Hd).
    { done. }
    { apply Forall_forall. intros; cbn; lia. }
    { intros m Hm. by left. }
    { by left. }
    { intros t Ht. by apply elem_of_nil in Ht. }
    by apply appendRemaining_gap.
Qed.

Lemma patternsOf_small kw :
  length (keys kw) ≤ CHUNK_SIZE →
  patternsOf kw = [] ∨
  patternsOf kw = [mkRegExp true (map escapeRegex (sortStrings (keys kw))) true].
Proof.
  intros Hlen. unfold patternsOf, getCompiledPatterns. cbn [cachedPatterns freshCache fst].
  set (esc := map escapeRegex (sortStrings (keys kw))).
  assert (He : length esc ≤ CHUNK_SIZE).
  { unfold esc, sortStrings. rewrite length_map.
    by rewrite (Permutation_length (merge_sort_Permutation lexLe (keys kw))). }
  destruct (length esc) as [|n] eqn:En; [by left|right].
  cbn [compileChunks]. rewrite En. cbn [Nat.ltb Nat.leb].
  unfold slice. rewrite drop_0, take_ge by lia.
  destruct n as [|n]; [done|]. cbn [compileChunks].
  destruct (Nat.ltb_spec (0 + CHUNK_SIZE) (length esc)); [lia|done].
Qed.

(** X25. A second pass of learn mode leaves the text runs alone: for a
    vocabulary of at most 200 keys, none empty, whose matches are all
    found again in [knownWords] once lower-cased, no text run of the
    fragment that [replaceTextNode] builds matches a pattern; so the
    callback of [translateKnownWords] and of [processSubtree] returns
    from each of them without a change. *)
Theorem learn_second_pass_leaves_text_runs fcl kw s um frag :
  length (keys kw) ≤ CHUNK_SIZE → [] ∉ keys kw →
  resolveMatches s (patternsOf kw) = Some um → allKnown kw um →
  buildFragment fcl kw s (patternsOf kw) = Returns frag →
  ∀ t, NewText t ∈ frag →
    hasMatches (patternsOf kw) t = false ∧
    ∀ parentNode textNode st,
      learnCallback (patternsOf kw) parentNode textNode t st = Returns (None, st).
Proof.
  intros Hlen Hne Hum Hk Hfrag t Ht.
  assert (Hno : hasMatches (patternsOf kw) t = false).
  { pose proof (buildFragment_gaps fcl kw s _ um frag Hum Hk Hfrag t Ht) as Hgap.
    destruct (patternsOf_small kw Hlen) as [E|E]; rewrite E in *; [done|].
    unfold hasMatches. cbn [existsb]. rewrite orb_false_r.
    apply (gap_holds_no_match _ s um t); [done| |by apply resolveMatches_single|done].
    unfold nonEmptyAlternatives. cbn [group]. apply Forall_forall.
    intros alt (key & -> & Hkey)%list_elem_of_fmap. rewrite unescape_escapeRegex.
    intros ->. apply Hne. by rewrite <- (merge_sort_Permutation lexLe (keys kw)). }
  split; [done|]. intros parentNode textNode st. unfold learnCallback.
  rewrite Hno. by case_bool_decide.
Qed.

End Runtime.

(** * Concrete runs

    The case tables are those of ASCII. *)

Lemma patternsOf_greetings_nonEmpty : Forall nonEmptyAlternatives (patternsOf greetings).
Proof. repeat (constructor; try discriminate). Defined.

Lemma practicePattern_greetings_nonEmpty : nonEmptyAlternatives (practicePattern greetings).
Proof. repeat (constructor; try discriminate). Defined.

(** "Hello, world!" with the vocabulary hello, world: two units, the
    punctuation between and after them kept as text runs. *)
Example hello_world_fragment :
  buildFragment asciiCanonicalize asciiToLowerCase true greetings (js "Hello, world!")
    (patternsOf greetings)
  = Returns [singleSpan (js "Hello") (Own (mkWord [0x4F60; 0x597D]%N None));
             NewText (js ", ");
             singleSpan (js "world") (Own (mkWord [0x4E16; 0x754C]%N None));
             NewText (js "!")].
Proof. vm_compute. reflexivity. Qed.

(** "the the the" with the vocabulary the: three units, none merged. *)
Example the_the_the_fragment :
  resolveMatches asciiCanonicalize (js "the the the")
    (patternsOf [(js "the", mkWord (js "X") None)])
  = Some [mkMatch (js "the") 0 3; mkMatch (js "the") 4 7; mkMatch (js "the") 8 11].
Proof. vm_compute. reflexivity. Qed.

(** C1 at "Hello, world!" with the vocabulary hello, world. *)
Lemma resolved_spans_sorted_disjoint_witness :
  Forall nonEmptyAlternatives (patternsOf greetings) ∧
  ∃ matches,
    collectMatches asciiCanonicalize (js "Hello, world!") (patternsOf greetings)
      = Some matches ∧
    resolveMatches asciiCanonicalize (js "Hello, world!") (patternsOf greetings)
      = Some (uniqueMatchesOf (sortByIndex matches)) ∧
    StronglySorted before (uniqueMatchesOf (sortByIndex matches)) ∧
    sublist (uniqueMatchesOf (sortByIndex matches)) (sortByIndex matches) ∧
    sortByIndex matches ≡ₚ matches ∧
    StronglySorted byIndex (sortByIndex matches) ∧
    head (uniqueMatchesOf (sortByIndex matches)) = head (sortByIndex matches) ∧
    ∀ m, m ∈ matches →
      m ∈ uniqueMatchesOf (sortByIndex matches) ∨
      ∃ k, k ∈ uniqueMatchesOf (sortByIndex matches) ∧
           index k ≤ index m ∧ index m < endIndex k.
Proof.
  split; [exact patternsOf_greetings_nonEmpty|].
  apply (resolved_spans_sorted_disjoint asciiCanonicalize (js "Hello, world!")
           (patternsOf greetings)).
  exact patternsOf_greetings_nonEmpty.
Defined.

(** C2 fails on the code: in "I read a lot of books", with the vocabulary
    i, of, the resolved matches are "I" and "of", and the text outside
    them is " read a lot " and " books". With [window.findCompound]
    loaded, the translations of the two matches concatenate to a key of
    the compound table, the two matches are consumed as one compound, and
    the fragment is the compound span followed by " books": the text
    " read a lot " between the matches is in no node. The branch without
    compounds builds, from the same matches, a fragment that keeps it.
    Likewise "I, of!" loses ", ". *)
Theorem compound_deletes_text_between :
  resolveMatches asciiCanonicalize (js "I read a lot of books") (patternsOf possessive)
    = Some [mkMatch (js "I") 0 1; mkMatch (js "of") 13 15] ∧
  outsideSpans (js "I read a lot of books") 0
      [mkMatch (js "I") 0 1; mkMatch (js "of") 13 15]
    = js " read a lot " ++ js " books" ∧
  buildFragment asciiCanonicalize asciiToLowerCase true possessive
      (js "I read a lot of books") (patternsOf possessive)
    = Returns [compoundSpan (mkCompound [0x6211; 0x7684]%N (Str (js "my")) 2)
                 [js "I"; js "of"];
               NewText (js " books")] ∧
  buildFragment asciiCanonicalize asciiToLowerCase false possessive
      (js "I read a lot of books") (patternsOf possessive)
    = Returns [singleSpan (js "I") (Own (mkWord [0x6211]%N None));
               NewText (js " read a lot ");
               singleSpan (js "of") (Own (mkWord [0x7684]%N None));
               NewText (js " books")] ∧
  buildFragment asciiCanonicalize asciiToLowerCase true possessive
      (js "I, of!") (patternsOf possessive)
    = Returns [compoundSpan (mkCompound [0x6211; 0x7684]%N (Str (js "my")) 2)
                 [js "I"; js "of"];
               NewText (js "!")].
Proof. split_and!; vm_compute; reflexivity. Qed.

(** C3 fails on the code: a burst adds the element 1, a second burst
    adds the element 3 before the timer fires, then the timer fires.
    Only the element 3 is passed to [processSubtree]; the set that held
    the element 1 went with the cleared timer. *)
Theorem earlier_burst_is_dropped (walkerResumes : bool) :
  ∃ l,
    run asciiCanonicalize asciiToLowerCase walkerResumes Learn
        (mkLoop pageStart None [])
        [Mutations [mkMutation childList [] [divA]];
         Mutations [mkMutation childList [] [divB]];
         TimerFires] = Returns l ∧
    processed l = [3] ∧ timeout l = None.
Proof. destruct walkerResumes; eexists; (split; [vm_compute; reflexivity|done]). Qed.

(** C4 as stated fails: the text node 2, "zzz", is accepted and tested,
    has no match, and is not in the processed set after the scan. *)
Lemma unmatched_node_not_marked :
  ¬ (∀ root st root' st',
       processSubtree asciiCanonicalize asciiToLowerCase true root [] Learn st
         = Returns (root', st') →
       ∀ id textContent,
         (id, textContent) ∈ acceptedBelow [] root → id ∈ processedNodes st').
Proof.
  intros H.
  assert (∃ st', processSubtree asciiCanonicalize asciiToLowerCase true plainDiv []
                   Learn pageStart = Returns (plainDiv, st') ∧
                 processedNodes st' = ∅) as (st' & Hr & Hp).
  { eexists. split; [vm_compute; reflexivity|reflexivity]. }
  specialize (H _ _ _ _ Hr 2 (js "zzz")). rewrite Hp in H.
  apply (not_elem_of_empty (C:=gset nat) 2), H. vm_compute. constructor.
Qed.

(** C4 (amended) on a page with one matching and one plain text node. *)
Lemma scan_marks_only_rewritten_nodes_witness :
  ∃ root' st',
    processSubtree asciiCanonicalize asciiToLowerCase true article [] Learn pageStart
      = Returns (root', st') ∧
    (∀ patterns parentNode textNode originalText page,
       hasMatches asciiCanonicalize patterns originalText = false →
       learnCallback asciiCanonicalize asciiToLowerCase patterns parentNode textNode
         originalText page = Returns (None, page)) ∧
    (∀ patterns parentNode textNode originalText page parent' page',
       learnCallback asciiCanonicalize asciiToLowerCase patterns parentNode textNode
         originalText page = Returns (Some parent', page') →
       textNode ∈ processedNodes page' ∧ (textNode ∉ processedNodes page) ∧
       hasMatches asciiCanonicalize patterns originalText = true) ∧
    (∀ patterns parentNode textNode originalText page,
       textNode ∈ processedNodes page →
       learnCallback asciiCanonicalize asciiToLowerCase patterns parentNode textNode
         originalText page = Returns (None, page)) ∧
    (∀ j, j ∈ processedNodes st' →
       j ∈ processedNodes pageStart ∨
       ∃ textContent,
         (j, textContent) ∈ acceptedBelow [] article ∧
         hasMatches asciiCanonicalize
           (fst (getCompiledPatterns (knownWords pageStart) (cache pageStart)))
           textContent = true) ∧
    processedNodes pageStart ⊆ processedNodes st' ∧
    (autoTranslate pageStart = true → true = true →
     ∀ j textContent,
       (j, textContent) ∈ acceptedBelow [] article →
       hasMatches asciiCanonicalize
         (fst (getCompiledPatterns (knownWords pageStart) (cache pageStart)))
         textContent = true →
       j ∈ processedNodes st').
Proof.
  eexists _, _. split; [vm_compute; reflexivity|].
  eapply (scan_marks_only_rewritten_nodes asciiCanonicalize asciiToLowerCase true
            article [] pageStart).
  vm_compute. reflexivity.
Defined.

(** C5 at the fragment of "Hello, world!": the first captured root is
    the span of "Hello". *)
Lemma generated_units_not_reprocessed_witness :
  ∃ frag r,
    buildFragment asciiCanonicalize asciiToLowerCase true greetings (js "Hello, world!")
      (patternsOf greetings) = Returns frag ∧
    r ∈ mutatedRootsOf pageStart [mkMutation childList [] (fst (attachAll 100 frag))] ∧
    isElement (fst r) = true ∧
    acceptedBelow (snd r) (fst r) = [] ∧
    ∃ cache', processSubtree asciiCanonicalize asciiToLowerCase true (fst r) (snd r)
                Learn pageStart = Returns (fst r, withCache pageStart cache').
Proof.
  eexists _, _. split; [vm_compute; reflexivity|].
  split; [vm_compute; constructor|].
  eapply (generated_units_not_reprocessed asciiCanonicalize asciiToLowerCase true
            true greetings (js "Hello, world!") (patternsOf greetings) _ 100 []
            pageStart Learn pageStart).
  - vm_compute. reflexivity.
  - vm_compute. constructor.
Defined.

(** C6 fails on the code: "construct" and "or" concatenate to
    "constructor", which is no key of the dictionary, yet the lookup
    finds the member of [Object.prototype] of that name and a compound
    of two words is returned, its translation not a string. *)
Theorem inherited_member_taken_for_compound :
  getOwn CompoundWords (js "constructor") = None ∧
  findCompound [Str (js "construct"); Str (js "or")] 0 2
  = Some (mkCompound (js "constructor") (Builtin (js "constructor")) 2).
Proof. split; vm_compute; reflexivity. Qed.

(** C7 at the vocabulary hello, world and its reversal. *)
Lemma signature_ignores_insertion_order_witness :
  keys greetings ≡ₚ keys greetingsReversed ∧
  knownWordsHash greetings = knownWordsHash greetingsReversed ∧
  (∀ c patterns,
     cachedPatterns c = Some patterns →
     cachedKnownWordsHash c = Some (knownWordsHash greetings) →
     getCompiledPatterns greetingsReversed c = (patterns, c)) ∧
  (∀ c, getCompiledPatterns greetingsReversed (snd (getCompiledPatterns greetings c))
        = (fst (getCompiledPatterns greetings c), snd (getCompiledPatterns greetings c))) ∧
  (∀ c originalText,
     resolveMatches asciiCanonicalize originalText (fst (getCompiledPatterns greetings c))
     = resolveMatches asciiCanonicalize originalText
         (fst (getCompiledPatterns greetingsReversed c))).
Proof.
  split; [apply perm_swap|].
  apply (signature_ignores_insertion_order asciiCanonicalize greetings greetingsReversed).
  apply perm_swap.
Defined.

(** C8 as stated fails: with the keys "new" and "new york" in one chunk
    each, the text "new york" resolves to "new" or to "new york"
    according to the order of the two chunks; and with the patterns the
    code compiles for these keys it resolves to "new", the shorter of
    the two matches at offset 0. *)
Lemma chunk_order_decides_ties :
  [chunkOf (js "new"); chunkOf (js "new york")]
    ≡ₚ [chunkOf (js "new york"); chunkOf (js "new")] ∧
  resolveMatches asciiCanonicalize (js "new york")
    [chunkOf (js "new"); chunkOf (js "new york")]
  ≠ resolveMatches asciiCanonicalize (js "new york")
      [chunkOf (js "new york"); chunkOf (js "new")] ∧
  alternativeAt asciiCanonicalize (chunkOf (js "new york")) (js "new york") 0
    (escapeRegex (js "new york")) = true ∧
  resolveMatches asciiCanonicalize (js "new york") (patternsOf places)
  = Some [mkMatch (js "new") 0 3].
Proof.
  split; [apply perm_swap|]. split; [vm_compute; discriminate|].
  split; vm_compute; reflexivity.
Qed.

(** C8 (amended) at "Hello, world!" with one chunk per key. *)
Lemma chunk_order_irrelevant_without_ties_witness :
  [chunkOf (js "hello"); chunkOf (js "world")]
    ≡ₚ [chunkOf (js "world"); chunkOf (js "hello")] ∧
  collectMatches asciiCanonicalize (js "Hello, world!")
    [chunkOf (js "hello"); chunkOf (js "world")]
  = Some [mkMatch (js "Hello") 0 5; mkMatch (js "world") 7 12] ∧
  NoDup (index <$> [mkMatch (js "Hello") 0 5; mkMatch (js "world") 7 12]) ∧
  resolveMatches asciiCanonicalize (js "Hello, world!")
    [chunkOf (js "hello"); chunkOf (js "world")]
  = Some (uniqueMatchesOf
            (sortByIndex [mkMatch (js "Hello") 0 5; mkMatch (js "world") 7 12])) ∧
  (∀ k, k ∈ uniqueMatchesOf
              (sortByIndex [mkMatch (js "Hello") 0 5; mkMatch (js "world") 7 12]) →
        head (filter (fun m => index m = index k)
                [mkMatch (js "Hello") 0 5; mkMatch (js "world") 7 12]) = Some k) ∧
  (NoDup (index <$> [mkMatch (js "Hello") 0 5; mkMatch (js "world") 7 12]) →
   resolveMatches asciiCanonicalize (js "Hello, world!")
     [chunkOf (js "world"); chunkOf (js "hello")]
   = resolveMatches asciiCanonicalize (js "Hello, world!")
       [chunkOf (js "hello"); chunkOf (js "world")]).
Proof.
  split; [apply perm_swap|]. split; [vm_compute; reflexivity|].
  split.
  { cbn. repeat constructor; rewrite ?elem_of_cons, ?elem_of_nil; intros H;
      repeat destruct H as [H|H]; discriminate || done. }
  apply (chunk_order_irrelevant_without_ties asciiCanonicalize (js "Hello, world!")
           [chunkOf (js "hello"); chunkOf (js "world")]
           [chunkOf (js "world"); chunkOf (js "hello")]
           [mkMatch (js "Hello") 0 5; mkMatch (js "world") 7 12]).
  - apply perm_swap.
  - vm_compute. reflexivity.
Defined.

(** C9 as stated fails: on a text node without a parent the replacement
    is not skipped, the call throws. *)
Lemma detached_node_throws :
  ¬ (∀ textNode originalText patterns st,
       replaceTextNode asciiCanonicalize asciiToLowerCase None textNode originalText
         patterns st ≠ Throws).
Proof.
  intros H. apply (H 2 (js "hello") (patternsOf greetings) pageStart).
  vm_compute. reflexivity.
Qed.

(** C9 (amended) at the text node 2, "hello". *)
Lemma replacement_goes_through_parent_witness :
  Forall nonEmptyAlternatives (patternsOf greetings) ∧
  nonEmptyAlternatives (practicePattern greetings) ∧
  ∃ frag known,
    buildFragment asciiCanonicalize asciiToLowerCase (findCompoundLoaded pageStart)
      (knownWords pageStart) (js "hello") (patternsOf greetings) = Returns frag ∧
    highlightFragment asciiCanonicalize (js "hello") (practicePattern greetings)
      = Returns known ∧
    replaceTextNode asciiCanonicalize asciiToLowerCase None 2 (js "hello")
      (patternsOf greetings) pageStart = Throws ∧
    highlightKnownWords asciiCanonicalize None 2 (js "hello")
      (practicePattern greetings) pageStart = Throws ∧
    ∀ id tag a before after,
      Forall (fun n => nodeId n ≠ 2) before →
      replaceTextNode asciiCanonicalize asciiToLowerCase
        (Some (ElementNode id tag a (before ++ TextNode 2 (js "hello") :: after)))
        2 (js "hello") (patternsOf greetings) pageStart
      = Returns (ElementNode id tag a
                   (before ++ fst (attachAll (nextNode pageStart) frag) ++ after),
                 withNextNode pageStart (snd (attachAll (nextNode pageStart) frag))) ∧
      highlightKnownWords asciiCanonicalize
        (Some (ElementNode id tag a (before ++ TextNode 2 (js "hello") :: after)))
        2 (js "hello") (practicePattern greetings) pageStart
      = Returns (ElementNode id tag a
                   (before ++ fst (attachAll (nextNode pageStart) known) ++ after),
                 withNextNode pageStart (snd (attachAll (nextNode pageStart) known))).
Proof.
  split; [exact patternsOf_greetings_nonEmpty|].
  split; [exact practicePattern_greetings_nonEmpty|].
  apply (replacement_goes_through_parent asciiCanonicalize asciiToLowerCase 2
           (js "hello") (patternsOf greetings) (practicePattern greetings) pageStart).
  - exact patternsOf_greetings_nonEmpty.
  - exact practicePattern_greetings_nonEmpty.
Defined.

(** C10. The pattern of practice mode is built from the translations
    without flag [i] and without [\b]; on every text each of its matches
    is a translation code unit for code unit, wherever it stands. Every
    pattern of learn mode has flag [i] and both [\b]; each of its matches
    stands between word boundaries and is a key up to case folding. On
    "Cat concatenate", with the word cat, practice mode finds "cat"
    inside "concatenate" and not "Cat", learn mode finds "Cat" and
    nothing inside "concatenate". *)
Theorem practice_pattern_case_sensitive_unanchored :
  (∀ kw,
     ignoreCase (practicePattern kw) = false ∧
     wordBoundary (practicePattern kw) = false ∧
     group (practicePattern kw)
       = escapeRegex <$> ((fun kv => translation (snd kv)) <$> kw)) ∧
  (∀ canonicalize kw s ms m,
     execAll canonicalize (practicePattern kw) s = Some ms → m ∈ ms →
     ∃ entry, entry ∈ kw ∧ text m = translation (snd entry)) ∧
  (∀ canonicalize kw p s ms m,
     p ∈ patternsOf kw → execAll canonicalize p s = Some ms → m ∈ ms →
     ignoreCase p = true ∧ wordBoundary p = true ∧
     isBoundary s (index m) = true ∧ isBoundary s (endIndex m) = true ∧
     ∃ key, key ∈ keys kw ∧ canonicalize <$> text m = canonicalize <$> key) ∧
  execAll asciiCanonicalize (practicePattern pets) (js "Cat concatenate")
    = Some [mkMatch (js "cat") 7 10] ∧
  resolveMatches asciiCanonicalize (js "Cat concatenate") (patternsOf pets)
    = Some [mkMatch (js "Cat") 0 3].
Proof.
  split; [done|]. split; [apply practice_match|]. split; [apply learn_match|].
  split; vm_compute; reflexivity.
Qed.

(** * Concrete runs of the further properties *)


(** X3 at the vocabulary with the empty key and the text "hi". *)
Lemma empty_key_hangs_rewrite_witness :
  [] ∈ keys blankKey ∧
  (∃ c, c ∈ js "hi" ∧ isWordChar c = true) ∧
  hasMatches asciiCanonicalize (patternsOf blankKey) (js "hi") = true ∧
  replaceTextNode asciiCanonicalize asciiToLowerCase (Some plainDiv) 2 (js "hi")
    (patternsOf blankKey) pageStart = Diverges.
Proof.
  assert (H1 : [] ∈ keys blankKey) by (vm_compute; left).
  assert (H2 : ∃ c, c ∈ js "hi" ∧ isWordChar c = true).
  { exists 104%N. split; [vm_compute; left|reflexivity]. }
  split; [exact H1|]. split; [exact H2|].
  destruct (empty_key_hangs_rewrite asciiCanonicalize asciiToLowerCase blankKey
              (Some plainDiv) 2 (js "hi") pageStart H1 H2) as (H3 & H4 & _).
  split; [exact H3|exact H4].
Defined.

(** X4 at "Cat concatenate" with the translation cat. *)
Lemma highlight_keeps_text_witness :
  ∃ frag,
    highlightFragment asciiCanonicalize (js "Cat concatenate") (practicePattern pets)
      = Returns frag ∧
    fragmentText frag = js "Cat concatenate".
Proof.
  eexists. split; [vm_compute; reflexivity|].
  apply (highlight_keeps_text asciiCanonicalize (js "Cat concatenate")
           (practicePattern pets)).
  vm_compute. reflexivity.
Defined.

(** X5 at "Hello, world!" with the vocabulary hello, world. *)
Lemma data_original_restores_text_witness :
  ∃ frag,
    buildFragment asciiCanonicalize asciiToLowerCase true greetings (js "Hello, world!")
      (patternsOf greetings) = Returns frag ∧
    existsb isCompoundSpan frag = false ∧
    restoreOriginal frag = js "Hello, world!".
Proof.
  eexists. split; [vm_compute; reflexivity|]. split; [vm_compute; reflexivity|].
  apply (data_original_restores_text asciiCanonicalize asciiToLowerCase true greetings
           (js "Hello, world!") (patternsOf greetings)).
  - vm_compute. reflexivity.
  - vm_compute. reflexivity.
Defined.

Lemma greetings_keys_plain : Forall (fun k => k ≠ [] ∧ noBar k) (keys greetings).
Proof.
  unfold noBar. apply (bool_decide_unpack _). vm_compute. exact I.
Defined.

Lemma greetingsReversed_keys_plain :
  Forall (fun k => k ≠ [] ∧ noBar k) (keys greetingsReversed).
Proof.
  unfold noBar. apply (bool_decide_unpack _). vm_compute. exact I.
Defined.

(** X7 at the vocabulary hello, world and its reversal. *)
Lemma equal_signature_same_keys_witness :
  Forall (fun k => k ≠ [] ∧ noBar k) (keys greetings) ∧
  Forall (fun k => k ≠ [] ∧ noBar k) (keys greetingsReversed) ∧
  knownWordsHash greetings = knownWordsHash greetingsReversed ∧
  keys greetings ≡ₚ keys greetingsReversed ∧
  patternsOf greetings = patternsOf greetingsReversed.
Proof.
  split; [exact greetings_keys_plain|]. split; [exact greetingsReversed_keys_plain|].
  split; [vm_compute; reflexivity|].
  apply (equal_signature_same_keys greetings greetingsReversed).
  - exact greetings_keys_plain.
  - exact greetingsReversed_keys_plain.
  - vm_compute. reflexivity.
Defined.

Lemma scriptNode_distinct : distinctChildren scriptNode.
Proof.
  unfold scriptNode. cbn [distinctChildren fold_right map nodeId].
  split_and!; try exact I; apply (bool_decide_unpack _); vm_compute; exact I.
Defined.

(** X8 at a script element with a text and an element child. *)
Lemma skipped_subtree_is_untouched_witness :
  distinctChildren scriptNode ∧
  existsb skipsText (chainAt scriptNode []) = true ∧
  translateKnownWords asciiCanonicalize asciiToLowerCase true scriptNode [] pageStart
  = Returns (scriptNode,
             withCache pageStart
               (snd (getCompiledPatterns (knownWords pageStart) (cache pageStart)))) ∧
  translateUnknownWords asciiCanonicalize true scriptNode [] pageStart
  = Returns (scriptNode, pageStart).
Proof.
  split; [exact scriptNode_distinct|]. split; [vm_compute; reflexivity|].
  destruct (skipped_subtree_is_untouched asciiCanonicalize asciiToLowerCase true
              scriptNode [] pageStart scriptNode_distinct) as (_ & _ & _ & H4).
  { vm_compute. reflexivity. }
  split; [vm_compute; reflexivity|exact H4].
Defined.

Lemma knownChinese_no_empty : [] ∉ knownChinese.
Proof. apply (bool_decide_unpack _). vm_compute. exact I. Defined.

(** X9 at the words U+597D, U+4F60 U+597D. *)
Lemma chinese_matches_disjoint_genuine_witness :
  ([] ∉ knownChinese) ∧
  ∃ ms, findMatches (sortByLength knownChinese) chineseText = Returns ms ∧
        StronglySorted apart ms ∧ Forall (genuine knownChinese chineseText) ms.
Proof.
  split; [exact knownChinese_no_empty|].
  apply (chinese_matches_disjoint_genuine knownChinese chineseText).
  exact knownChinese_no_empty.
Defined.

(** X10: the occurrence of U+597D at 1 lies inside the match of
    U+4F60 U+597D at 0. *)
Lemma chinese_longer_word_wins_witness :
  ∃ ms,
    ([] ∉ knownChinese) ∧
    findMatches (sortByLength knownChinese) chineseText = Returns ms ∧
    shortWord ∈ knownChinese ∧ occursAt chineseText shortWord 1 ∧
    ∃ m, m ∈ ms ∧ overlapsAt 1 (1 + length shortWord) m = true ∧
         length shortWord ≤ length (word m).
Proof.
  eexists. split; [exact knownChinese_no_empty|].
  split; [vm_compute; reflexivity|].
  assert (H3 : shortWord ∈ knownChinese) by left.
  assert (H4 : occursAt chineseText shortWord 1) by (split; [vm_compute; lia|reflexivity]).
  split; [exact H3|]. split; [exact H4|].
  apply (chinese_longer_word_wins knownChinese chineseText _ shortWord 1
           knownChinese_no_empty); [vm_compute; reflexivity|exact H3|exact H4].
Defined.

Lemma two_matches_placed :
  placed [mkChineseMatch 0 2 [0x4F60; 0x597D]%N; mkChineseMatch 4 5 [0x597D]%N].
Proof.
  split; repeat constructor; unfold apart; cbn; lia.
Defined.

(** X11: the candidate [2, 4) fits between the matches [0, 2) and [4, 5). *)
Lemma binary_search_agrees_with_scan_witness :
  placed [mkChineseMatch 0 2 [0x4F60; 0x597D]%N; mkChineseMatch 4 5 [0x597D]%N] ∧
  2 ≤ 4 ∧
  ∃ l, findOverlap [mkChineseMatch 0 2 [0x4F60; 0x597D]%N; mkChineseMatch 4 5 [0x597D]%N]
         2 4
       = Returns (existsb (overlapsAt 2 4)
                    [mkChineseMatch 0 2 [0x4F60; 0x597D]%N;
                     mkChineseMatch 4 5 [0x597D]%N], l) ∧
       (existsb (overlapsAt 2 4)
          [mkChineseMatch 0 2 [0x4F60; 0x597D]%N; mkChineseMatch 4 5 [0x597D]%N] = false →
        ∀ w, placed (splice [mkChineseMatch 0 2 [0x4F60; 0x597D]%N;
                             mkChineseMatch 4 5 [0x597D]%N]
                            (Z.to_nat l) (mkChineseMatch 2 4 w))).
Proof.
  split; [exact two_matches_placed|]. split; [lia|].
  apply (binary_search_agrees_with_scan _ 2 4 two_matches_placed). lia.
Defined.

(** X12 on a body with one paragraph. *)
Lemma chinese_highlight_keeps_page_text_witness :
  ∃ body' st',
    highlightChineseKnownWords chineseBody chineseStart = Returns (body', st') ∧
    nodeText body' = nodeText chineseBody.
Proof.
  eexists _, _. split; [vm_compute; reflexivity|].
  eapply (chinese_highlight_keeps_page_text chineseBody chineseStart).
  vm_compute. reflexivity.
Defined.

(** X13 on the same body. *)
Lemma chinese_second_pass_changes_nothing_witness :
  ∃ body' st',
    highlightChineseKnownWords chineseBody chineseStart = Returns (body', st') ∧
    highlightChineseKnownWords body' st' = Returns (body', st').
Proof.
  eexists _, _. split; [vm_compute; reflexivity|].
  eapply (chinese_second_pass_changes_nothing chineseBody chineseStart).
  vm_compute. reflexivity.
Defined.

(** X14 with the empty string as the only known word. *)
Lemma chinese_empty_word_hangs_witness :
  [] ∈ [@nil N] ∧
  chineseFragment [[]] (js "underline") chineseText = Diverges.
Proof.
  assert (H : [] ∈ [@nil N]) by left.
  split; [exact H|].
  exact (proj1 (chinese_empty_word_hangs [[]] (js "underline") chineseText H)).
Defined.

(** X15 at the span of "Hello" in the fragment of "Hello, world!". *)
Lemma chinese_pass_leaves_translations_witness :
  ∃ frag n,
    buildFragment asciiCanonicalize asciiToLowerCase true greetings (js "Hello, world!")
      (patternsOf greetings) = Returns frag ∧
    n ∈ fst (attachAll 100 frag) ∧ isElement n = true ∧
    chineseBelow ∅ n chineseStart = Returns (n, chineseStart).
Proof.
  eexists _, _. split; [vm_compute; reflexivity|].
  split; [vm_compute; left|]. split; [reflexivity|].
  eapply (chinese_pass_leaves_translations asciiCanonicalize asciiToLowerCase true
            greetings (js "Hello, world!") (patternsOf greetings) _ 100).
  - vm_compute. reflexivity.
  - vm_compute. left.
  - reflexivity.
Defined.

(** X16 at the fragment of "Hello, world!". *)
Lemma selection_reads_original_back_witness :
  ∃ frag,
    buildFragment asciiCanonicalize asciiToLowerCase true greetings (js "Hello, world!")
      (patternsOf greetings) = Returns frag ∧
    existsb isCompoundSpan frag = false ∧
    inkOf (js "Hello, world!") ≠ [] ∧
    inkOf (getOriginalTextFromSelection (js "") (Some (fst (attachAll 100 frag))))
    = inkOf (js "Hello, world!").
Proof.
  eexists. split; [vm_compute; reflexivity|]. split; [vm_compute; reflexivity|].
  split; [vm_compute; discriminate|].
  apply (selection_reads_original_back asciiCanonicalize asciiToLowerCase true greetings
           (js "Hello, world!") (patternsOf greetings)).
  - vm_compute. reflexivity.
  - vm_compute. reflexivity.
  - vm_compute. discriminate.
Defined.

(** X17 at the text "cat" with the translation cat: the span 50 around
    the text node 51 comes back holding the new span 100 around the new
    text node 101. *)
Lemma practice_second_pass_wraps_again_witness :
  highlightFragment asciiCanonicalize (js "cat") (practicePattern (knownWords practicePage))
    = Returns [knownSpan (js "cat")] ∧
  fst (attachNode 50 (knownSpan (js "cat"))) ∈ fst (attachAll 50 [knownSpan (js "cat")]) ∧
  acceptedBelow [] (fst (attachNode 50 (knownSpan (js "cat")))) ≠ [] ∧
  ∃ id textNode matchedWord,
    fst (attachNode 50 (knownSpan (js "cat")))
    = ElementNode id (js "SPAN")
        [(js "class", js "lang-learner-known");
         (js "data-known", js "true"); (js "title", js "Known word")]
        [TextNode textNode matchedWord] ∧
    translateUnknownWords asciiCanonicalize true
      (fst (attachNode 50 (knownSpan (js "cat")))) [] practicePage
    = Returns
        (ElementNode id (js "SPAN")
           [(js "class", js "lang-learner-known");
            (js "data-known", js "true"); (js "title", js "Known word")]
           [ElementNode (nextNode practicePage) (js "SPAN")
              [(js "class", js "lang-learner-known");
               (js "data-known", js "true"); (js "title", js "Known word")]
              [TextNode (S (nextNode practicePage)) matchedWord]],
         withProcessed (withNextNode practicePage (S (S (nextNode practicePage))))
           ({[ textNode ]} ∪ processedNodes practicePage)).
Proof.
  split; [vm_compute; reflexivity|].
  split; [vm_compute; left|].
  split; [vm_compute; discriminate|].
  apply (practice_second_pass_wraps_again asciiCanonicalize true (js "cat") practicePage
           [knownSpan (js "cat")] 50).
  - vm_compute. reflexivity.
  - vm_compute. left.
  - reflexivity.
  - vm_compute. discriminate.
  - intros id t _. apply not_elem_of_empty.
Defined.

Lemma knownChinese_chinese : Forall (fun w => containsChinese w = true) knownChinese.
Proof. repeat constructor. Defined.

Lemma knownChinese_NoDup : NoDup knownChinese.
Proof. apply (bool_decide_unpack _). vm_compute. exact I. Defined.

(** X18 at the list U+597D, U+4F60 U+597D, the input U+4E16 U+754C with a
    space before it, and the vocabulary i, of (translations U+6211 and
    U+7684, neither in the list): the input is added, no translation is. *)
Lemma popup_words_never_hang_witness :
  Forall (fun w => containsChinese w = true) knownChinese ∧ NoDup knownChinese ∧
  syncKnownWordsToChinese possessive (addChineseWord [32; 0x4E16; 0x754C]%N knownChinese)
    = knownChinese ++ [[0x4E16; 0x754C]%N] ∧
  ([] ∉ syncKnownWordsToChinese possessive
          (addChineseWord [32; 0x4E16; 0x754C]%N knownChinese)) ∧
  ∃ r, chineseFragment
         (syncKnownWordsToChinese possessive
            (addChineseWord [32; 0x4E16; 0x754C]%N knownChinese))
         (js "underline") chineseText = Returns r.
Proof.
  split; [exact knownChinese_chinese|]. split; [exact knownChinese_NoDup|].
  destruct (popup_words_never_hang [32; 0x4E16; 0x754C]%N possessive knownChinese
              (js "underline") chineseText knownChinese_chinese knownChinese_NoDup)
    as (H1 & _ & _ & H3 & H4).
  split; [exact H1|]. split; [exact H3|exact H4].
Defined.

(** X20 at a list whose only entry is two spaces. *)
Lemma blank_entry_excludes_every_page_witness :
  js "  " ∈ [js "  "] ∧
  trim (asciiToLowerCase (js "  ")) = [] ∧
  isUrlExcluded asciiToLowerCase (Some (js "example.org")) (js "https://example.org/a")
    [js "  "] = Returns true.
Proof.
  assert (H1 : js "  " ∈ [js "  "]) by left.
  assert (H2 : trim (asciiToLowerCase (js "  ")) = []) by (vm_compute; reflexivity).
  split; [exact H1|]. split; [exact H2|].
  exact (proj1 (blank_entry_excludes_every_page asciiToLowerCase (js "example.org")
                  (js "https://example.org/a") [js "  "] (js "  ") H1 H2)).
Defined.

(** X21 from the empty cache, read one hour later. *)
Lemma cached_translation_is_found_witness :
  length (translationCache emptyAPI) ≤ 1000 ∧
  (3600000 - 0 ≤ cacheTimeout)%Z ∧
  getCachedTranslation 3600000 (cacheKeyOf (js "hello") (js "en") (js "zh"))
    (cacheTranslation 0 (cacheKeyOf (js "hello") (js "en") (js "zh"))
       [0x4F60; 0x597D]%N emptyAPI)
  = (Some [0x4F60; 0x597D]%N,
     cacheTranslation 0 (cacheKeyOf (js "hello") (js "en") (js "zh"))
       [0x4F60; 0x597D]%N emptyAPI).
Proof.
  assert (H1 : length (translationCache emptyAPI) ≤ 1000) by (cbn; lia).
  assert (H2 : (3600000 - 0 ≤ cacheTimeout)%Z) by (vm_compute; discriminate).
  split; [exact H1|]. split; [exact H2|].
  exact (cached_translation_is_found 0 3600000
           (cacheKeyOf (js "hello") (js "en") (js "zh")) [0x4F60; 0x597D]%N emptyAPI
           H1 H2).
Defined.

(** X23 at an entry read one hour after it was stored. *)
Lemma stale_translation_is_never_returned_witness :
  ∃ translation api' entry,
    getCachedTranslation 3600000 (js "hello:en:zh")
      (mkTranslatorAPI [] [(js "hello:en:zh", mkCacheEntry [0x4F60; 0x597D]%N 0)])
    = (Some translation, api') ∧
    (getOwn [] (js "hello:en:zh") = Some entry ∨
     getOwn [(js "hello:en:zh", mkCacheEntry [0x4F60; 0x597D]%N 0)] (js "hello:en:zh")
     = Some entry) ∧
    cachedTranslation entry = translation ∧
    (3600000 - timestamp entry ≤ cacheTimeout)%Z.
Proof.
  destruct (stale_translation_is_never_returned 3600000 (js "hello:en:zh")
              (mkTranslatorAPI [] [(js "hello:en:zh", mkCacheEntry [0x4F60; 0x597D]%N 0)])
              [0x4F60; 0x597D]%N
              (mkTranslatorAPI [(js "hello:en:zh", mkCacheEntry [0x4F60; 0x597D]%N 0)]
                 [(js "hello:en:zh", mkCacheEntry [0x4F60; 0x597D]%N 0)]))
    as (entry & H1 & H2 & H3); [vm_compute; reflexivity|].
  eexists _, _, entry. split; [vm_compute; reflexivity|]. split; [exact H1|].
  split; [exact H2|exact H3].
Defined.

Lemma en_no_colon : 58%N ∉ js "en".
Proof. apply (bool_decide_unpack _). vm_compute. exact I. Defined.

Lemma zh_no_colon : 58%N ∉ js "zh".
Proof. apply (bool_decide_unpack _). vm_compute. exact I. Defined.

(** X24 at the text "a:b" from en to zh. *)
Lemma cache_keys_tell_requests_apart_witness :
  (58%N ∉ js "en") ∧ (58%N ∉ js "zh") ∧
  cacheKeyOf (js "a:b") (js "en") (js "zh") = cacheKeyOf (js "a:b") (js "en") (js "zh") ∧
  js "a:b" = js "a:b" ∧ js "en" = js "en" ∧ js "zh" = js "zh".
Proof.
  split; [exact en_no_colon|]. split; [exact zh_no_colon|]. split; [reflexivity|].
  exact (cache_keys_tell_requests_apart (js "a:b") (js "en") (js "zh")
           (js "a:b") (js "en") (js "zh")
           en_no_colon zh_no_colon en_no_colon zh_no_colon eq_refl).
Defined.

Lemma greetings_no_blank_key : [] ∉ keys greetings.
Proof. apply (bool_decide_unpack _). vm_compute. exact I. Defined.

Lemma greetings_matches_known :
  allKnown asciiToLowerCase greetings
    [mkMatch (js "Hello") 0 5; mkMatch (js "world") 7 12].
Proof. repeat constructor; vm_compute; discriminate. Defined.

Lemma comma_in_greeting :
  NewText (js ", ") ∈
    [NewSpan (js "lang-learner-translated") (Str [0x4F60; 0x597D]%N)
       [(js "data-original", js "Hello"); (js "data-translated", js "true")];
     NewText (js ", ");
     NewSpan (js "lang-learner-translated") (Str [0x4E16; 0x754C]%N)
       [(js "data-original", js "world"); (js "data-translated", js "true")];
     NewText (js "!")].
Proof. apply list_elem_of_further, list_elem_of_here. Defined.

(** X25 at "Hello, world!" with the vocabulary hello, world: the run ", "
    between the two spans. *)
Lemma learn_second_pass_leaves_text_runs_witness :
  length (keys greetings) ≤ CHUNK_SIZE ∧
  ([] ∉ keys greetings) ∧
  resolveMatches asciiCanonicalize (js "Hello, world!") (patternsOf greetings)
    = Some [mkMatch (js "Hello") 0 5; mkMatch (js "world") 7 12] ∧
  hasMatches asciiCanonicalize (patternsOf greetings) (js ", ") = false ∧
  ∀ parentNode textNode st,
    learnCallback asciiCanonicalize asciiToLowerCase (patternsOf greetings)
      parentNode textNode (js ", ") st = Returns (None, st).
Proof.
  split; [vm_compute; lia|]. split; [exact greetings_no_blank_key|].
  split; [vm_compute; reflexivity|].
  apply (learn_second_pass_leaves_text_runs asciiCanonicalize asciiToLowerCase true
           greetings (js "Hello, world!")
           [mkMatch (js "Hello") 0 5; mkMatch (js "world") 7 12]
           [NewSpan (js "lang-learner-translated") (Str [0x4F60; 0x597D]%N)
              [(js "data-original", js "Hello"); (js "data-translated", js "true")];
            NewText (js ", ");
            NewSpan (js "lang-learner-translated") (Str [0x4E16; 0x754C]%N)
              [(js "data-original", js "world"); (js "data-translated", js "true")];
            NewText (js "!")]).
  - vm_compute. lia.
  - exact greetings_no_blank_key.
  - vm_compute. reflexivity.
  - exact greetings_matches_known.
  - vm_compute. reflexivity.
  - exact comma_in_greeting.
Defined.
